(** * Memory Guardian: vector indexing and retrieval engine

    A shallow embedding of the chunker ([src/utils/chunk.ts]), the vector
    store ([utils/faiss-store.js]), the indexing task queue
    ([components/faiss-vectorizer.js]), the retrieval gate
    ([components/rag-injector.js]) and the retrieval hook
    ([hooks/rag-inject/handler.js]), with the properties of the
    specification stated and proved over it.

    JavaScript strings are sequences of UTF-16 code units; numbers that the
    code uses as lengths, offsets, priorities and timestamps are integers
    ([Z]); the id counter of the store, which is read from a file as it
    is, and the ids it hands out are doubles ([JsNumber.number]);
    similarity scores are exact rationals standing for the index's
    floats.  What a function reads from outside (the clock, random
    ids, the file system, the native index, the retrieval service) is an
    argument of its model; a function that throws returns the exception
    together with the state it leaves. *)

From Stdlib Require Import ZArith NArith QArith Lia Lqa String Ascii DecimalString
  Sorted Permutation.
From stdpp Require Import base option list sorting gmap.

Close Scope Q_scope.
Local Open Scope Z_scope.

(* ===================================================================== *)
(** ** JavaScript strings and arrays *)
(* ===================================================================== *)

Module Js.

(** A string is the list of its UTF-16 code units. *)
Definition jsstring := list N.

(** ASCII literal. *)
Fixpoint u16 (s : string) : jsstring :=
  match s with
  | EmptyString => []
  | String a s' => N_of_ascii a :: u16 s'
  end.

(** [s.length] *)
Definition len (s : jsstring) : Z := Z.of_nat (length s).

(** WhiteSpace and LineTerminator code points: what [String.prototype.trim]
    strips and what [\s] matches. *)
Definition isWhiteSpace (c : N) : bool :=
  ((9 <=? c) && (c <=? 13) || (c =? 32) || (c =? 160) || (c =? 0x1680)
   || (0x2000 <=? c) && (c <=? 0x200A) || (c =? 0x2028) || (c =? 0x2029)
   || (c =? 0x202F) || (c =? 0x205F) || (c =? 0x3000) || (c =? 0xFEFF))%N.

Fixpoint trimStart (s : jsstring) : jsstring :=
  match s with
  | [] => []
  | c :: s' => if isWhiteSpace c then trimStart s' else s
  end.

Definition trimEnd (s : jsstring) : jsstring := rev (trimStart (rev s)).

(** [s.trim()] *)
Definition trim (s : jsstring) : jsstring := trimEnd (trimStart s).

(** Relative index of [slice] and [substring]-like methods: a negative
    index counts from the end, and the result is clamped to [0, len]. *)
Definition rel_index (n i : Z) : Z :=
  if i <? 0 then Z.max (n + i) 0 else Z.min i n.

(** [s.slice(start, end)] *)
Definition slice (s : jsstring) (start end_ : Z) : jsstring :=
  let from := rel_index (len s) start in
  let to := rel_index (len s) end_ in
  take (Z.to_nat (to - from)) (drop (Z.to_nat from) s).

(** [s.slice(start)] *)
Definition slice_from (s : jsstring) (start : Z) : jsstring :=
  slice s start (len s).

(** [s.substring(0, n)] for a non-negative [n]. *)
Definition substring0 (s : jsstring) (n : nat) : jsstring := take n s.

(** [s.startsWith(p)] *)
Fixpoint startsWith (s p : jsstring) : bool :=
  match p, s with
  | [], _ => true
  | _ :: _, [] => false
  | a :: p', b :: s' => (a =? b)%N && startsWith s' p'
  end.

(** The regular expressions of the sources that need no engine: a literal
    word and a class of code units. *)
Inductive regex :=
| Literal (w : jsstring)
| CharClass (cs : list N).

(** Length of the match of [r] at the head of [s], if there is one. *)
Definition match_at (r : regex) (s : jsstring) : option nat :=
  match r with
  | Literal w => if startsWith s w then Some (length w) else None
  | CharClass cs =>
      match s with
      | c :: _ => if bool_decide (c ∈ cs) then Some 1%nat else None
      | [] => None
      end
  end.

(** [[...s.matchAll(r)]] for a global [r]: the successive non-overlapping
    matches scanned from the left, as (index, length) pairs.  [i] is the
    index of the head of [s] and [skip] the number of code units still
    covered by the previous match. *)
Fixpoint matchAll_aux (r : regex) (s : jsstring) (i skip : nat) : list (nat * nat) :=
  match s with
  | [] => []
  | _ :: s' =>
      match skip with
      | S k => matchAll_aux r s' (S i) k
      | O =>
          match match_at r s with
          | Some n => (i, n) :: matchAll_aux r s' (S i) (Nat.pred n)
          | None => matchAll_aux r s' (S i) 0
          end
      end
  end.

Definition matchAll (r : regex) (s : jsstring) : list (nat * nat) :=
  matchAll_aux r s 0 0.

(** [Array.prototype.sort(cmp)]: a stable sort; [a] stays in front of a
    later [b] unless [cmp a b > 0].  For a comparator that compares keys
    the result of a stable sort is determined, whatever the algorithm
    ([JsFacts.stable_sort_unique]). *)
Section Sort.
Context {A : Type} (cmp : A -> A -> Z).

Fixpoint sort_insert (x : A) (l : list A) : list A :=
  match l with
  | [] => [x]
  | y :: l' => if cmp x y <=? 0 then x :: l else y :: sort_insert x l'
  end.

Fixpoint sort (l : list A) : list A :=
  match l with
  | [] => []
  | x :: l' => sort_insert x (sort l')
  end.

(** [a] may stand in front of [b]. *)
Definition before (a b : A) : Prop := cmp a b <= 0.
End Sort.

End Js.

(* ===================================================================== *)
(** ** JavaScript numbers *)
(* ===================================================================== *)

Module JsNumber.

(** Every finite double is a whole multiple of [2^-1074], the smallest
    positive one; [Finite k] is the number [k * 2^-1074].  The sign of
    zero is not kept: the code never divides by an id, and a [Map] takes
    [-0] for [+0]. *)
Inductive number :=
| NaN
| Infinity (negative : bool)
| Finite (k : Z).

(** The number 1 in units of [2^-1074]. *)
Definition one : Z := 2 ^ 1074.

(** [2^1024], the first power of two that is no double. *)
Definition huge : Z := 2 ^ 1024 * one.

(** Number of binary digits. *)
Definition bits (k : Z) : Z := Z.log2 (Z.abs k) + 1.

(** A double has 53 significant bits and is smaller than [2^1024]. *)
Definition isDouble (k : Z) : bool :=
  (Z.abs k <? huge) && ((bits k <=? 53) || (k mod 2 ^ (bits k - 53) =? 0)).

(** The multiple of [2^s] nearest to [k]; of two that are equally near,
    the even one. *)
Definition nearest (k s : Z) : Z :=
  let p := 2 ^ s in
  let q := k / p in
  let r := k mod p in
  if 2 * r <? p then q * p
  else if p <? 2 * r then (q + 1) * p
  else if Z.even q then q * p else (q + 1) * p.

(** Rounding of an exact result to a double (round to nearest, ties to
    even; overflow gives an infinity). *)
Definition round (k : Z) : number :=
  let s := bits k - 53 in
  let r := if s <=? 0 then k else nearest k s in
  if huge <=? Z.abs r then Infinity (r <? 0) else Finite r.

(** [x + 1].  A [Finite k] that is no double stands for no number and is
    left as it is. *)
Definition plusOne (x : number) : number :=
  match x with
  | Finite k => if isDouble k then round (k + one) else x
  | _ => x
  end.

(** The number nearest to an integer: the integer itself up to [2^53]. *)
Definition ofZ (z : Z) : number := round (z * one).

Definition zero : number := Finite 0.

(** [x < y] *)
Definition lt (x y : number) : bool :=
  match x, y with
  | NaN, _ | _, NaN => false
  | Infinity a, Infinity b => a && negb b
  | Infinity a, Finite _ => a
  | Finite _, Infinity b => negb b
  | Finite a, Finite b => a <? b
  end.

(** [ToNumeric] of a field that holds a number or [undefined] ([None]). *)
Definition ToNumeric (v : option number) : number :=
  match v with
  | Some x => x
  | None => NaN
  end.

(** [v++]: the old value as a number, and what the field holds then. *)
Definition postIncrement (v : option number) : number * option number :=
  let old := ToNumeric v in (old, Some (plusOne old)).

(** The largest integer up to which every integer is a double. *)
Definition MAX_EXACT : Z := 2 ^ 53.

Arguments one : simpl never.
Arguments huge : simpl never.
Arguments MAX_EXACT : simpl never.
Arguments round : simpl never.
Arguments ofZ : simpl never.
Arguments plusOne : simpl never.
Arguments isDouble : simpl never.

#[export] Instance number_eq_dec : EqDecision number.
Proof. solve_decision. Defined.

#[export] Instance number_countable : Countable number :=
  inj_countable'
    (fun x => match x with
              | NaN => inl ()
              | Infinity b => inr (inl b)
              | Finite k => inr (inr k)
              end)
    (fun s => match s with
              | inl _ => NaN
              | inr (inl b) => Infinity b
              | inr (inr k) => Finite k
              end)
    (fun x => match x with NaN | Infinity _ | Finite _ => eq_refl end).

End JsNumber.

(* ===================================================================== *)
(** ** Chunker ([src/utils/chunk.ts]) *)
(* ===================================================================== *)

Module Chunk.
Import Js.

(** [Record<string, unknown>], as the list of its entries. *)
Definition Metadata := list (jsstring * jsstring).

Record TextChunk := {
  id : jsstring;
  text : jsstring;
  sourcePath : jsstring;
  offset : Z;
  timestamp : Z;
  sessionKey : option jsstring;
  metadata : option Metadata;
}.

(** [Partial<ChunkOptions>]: an absent field is [None]. *)
Record ChunkOptions := {
  chunkSize : option Z;
  chunkOverlap : option Z;
  optSourcePath : option jsstring;
  optSessionKey : option jsstring;
  optMetadata : option Metadata;
}.

Definition DEFAULT_CHUNK_SIZE : Z := 512.
Definition DEFAULT_CHUNK_OVERLAP : Z := 64.

(** What a call reads from its surroundings: [Date.now()] (read once per
    call) and [randomUUID()], whose [k]-th result in the call is [uuid k]. *)
Record Env := {
  now : Z;
  uuid : nat -> jsstring;
}.

Definition boundaryPatterns : list regex :=
  [ Literal [10; 10]%N;
    Literal [10]%N;
    CharClass [0x3002; 0xFF01; 0xFF1F]%N;
    CharClass (u16 ".!?");
    CharClass [0xFF0C; 44; 0xFF1B; 59]%N ].

Record Adjusted := {
  adjText : jsstring;
  adjustedEnd : Z;
}.

(** The [for (const pattern of boundaryPatterns)] loop: the last match of
    the first pattern that matches at all. *)
Fixpoint findBoundary (ps : list regex) (searchRegion : jsstring) : option (nat * nat) :=
  match ps with
  | [] => None
  | pattern :: ps' =>
      match last (matchAll pattern searchRegion) with
      | Some lastMatch => Some lastMatch
      | None => findBoundary ps' searchRegion
      end
  end.

Definition adjustChunkBoundary (chunk fullText : jsstring) (startOffset endOffset : Z) : Adjusted :=
  if len fullText <=? endOffset then
    {| adjText := chunk; adjustedEnd := endOffset |}
  else
    let searchStart := (3 * len chunk) / 4 in
    let searchRegion := slice_from chunk searchStart in
    match findBoundary boundaryPatterns searchRegion with
    | Some (index, mlen) =>
        let boundaryPos := searchStart + Z.of_nat index + Z.of_nat mlen in
        {| adjText := slice chunk 0 boundaryPos;
           adjustedEnd := startOffset + boundaryPos |}
    | None => {| adjText := chunk; adjustedEnd := endOffset |}
    end.

Section ChunkText.
Variable env : Env.
Variable fullText : jsstring.
Variable options : ChunkOptions.

(** The destructured [chunkSize] and [chunkOverlap], defaults applied. *)
Definition windowSize : Z := default DEFAULT_CHUNK_SIZE (chunkSize options).
Definition windowOverlap : Z := default DEFAULT_CHUNK_OVERLAP (chunkOverlap options).
Definition step : Z := windowSize - windowOverlap.

Definition mkChunk (n : nat) (t : jsstring) (off : Z) : TextChunk :=
  {| id := uuid env n;
     text := t;
     sourcePath := default (u16 "unknown") (optSourcePath options);
     offset := off;
     timestamp := now env;
     sessionKey := optSessionKey options;
     metadata := optMetadata options |}.

(** State of the sliding-window loop: the cursor and the chunks pushed. *)
Definition loop_state : Type := Z * list TextChunk.

(** One pass through the body of the [while], up to [offset += step]. *)
Definition loop_body (st : loop_state) : loop_state :=
  let '(off, chunks) := st in
  let endPos := off + windowSize in
  let endPos := if len fullText <? endPos then len fullText else endPos in
  let chunkText := slice fullText off endPos in
  let adjustedChunk := adjustChunkBoundary chunkText fullText off endPos in
  let chunks :=
    if 0 <? len (trim (adjText adjustedChunk))
    then chunks ++ [mkChunk (length chunks) (trim (adjText adjustedChunk)) off]
    else chunks in
  (off + step, chunks).

(** [while (offset < text.length) { ...; if (offset >= text.length) break; }]
    with a bound on the number of passes; [None] when the bound is hit. *)
Fixpoint while_loop (fuel : nat) (st : loop_state) : option (list TextChunk) :=
  if st.1 <? len fullText then
    match fuel with
    | O => None
    | S fuel' =>
        let st' := loop_body st in
        if len fullText <=? st'.1 then Some st'.2 else while_loop fuel' st'
    end
  else Some st.2.

Definition chunkText (fuel : nat) : option (list TextChunk) :=
  if bool_decide (fullText = []) || (len (trim fullText) =? 0) then Some []
  else if len fullText <=? windowSize then Some [mkChunk 0 (trim fullText) 0]
  else while_loop fuel (0, []).
End ChunkText.

End Chunk.

(* ===================================================================== *)
(** ** Vector store ([utils/faiss-store.js]) *)
(* ===================================================================== *)

Module FaissStore.
Import Js JsNumber Chunk.

(** [Float32Array]; the components are exact rationals here. *)
Definition vector := list Q.

(** [getEmbeddingDimension()] *)
Definition getEmbeddingDimension : nat := 384.
Definition DIMENSION : nat := getEmbeddingDimension.

(** The [IndexFlatIP] of faiss-node, as far as the store uses it.  The
    result of [search] is the pair of parallel arrays [labels] and
    [distances], kept here as one list of (label, inner product) pairs, a
    label being the integer faiss gives; [index_read] is [None] when
    [IndexFlatIP.read] throws.  [add] and [search] are taken as total:
    what the native library does with a vector of another length than its
    own dimension, or with a [k] above the number of vectors it holds, is
    outside this model. *)
Class IndexFlatIP (I : Type) := {
  index_new : nat -> I;
  index_add : I -> vector -> I;
  index_search : I -> vector -> nat -> list (Z * Q);
  index_read : jsstring -> option I;
}.

(** What the store relies on: [search(x, k)] answers with [k] entries,
    best inner product first. *)
Class IndexLaws (I : Type) `{IndexFlatIP I} : Prop := {
  index_search_length : forall (i : I) q k, length (index_search i q k) = k;
  index_search_ranked : forall (i : I) q k,
    Sorted (fun a b => (b.2 <= a.2)%Q) (index_search i q k);
}.

(** What [new Map(metadata.documents)] finds in the field [documents]. *)
Inductive DocumentsField :=
| NoDocuments                                    (* no such field, or null: an empty map *)
| Entries (entries : list (number * TextChunk))  (* an iterable of entry objects *)
| NotEntries.                                    (* anything else: [new Map] throws *)

(** The parsed metadata as far as [load] reads it: its two fields.
    [meta_nextId] is [None] when the value has no field [nextId]; a field
    that holds something else than a number is read as the number that
    [++] takes it for.  The entries are typed as the store declares its
    map, [Map<number, TextChunk>]. *)
Record MetaDoc := {
  meta_nextId : option number;
  meta_documents : DocumentsField;
}.

(** What [JSON.parse] returns: [null], of which no field can be read, or
    another value. *)
Inductive Parsed :=
| JsonNull
| JsonValue (metadata : MetaDoc).

Record SearchResult := {
  sr_id : number;
  distance : Q;
  chunk : TextChunk;
}.

(** What the store throws. *)
Inductive exn :=
| NotInitialized          (* 'FAISS index not initialised' *)
| DimensionError (n : nat) (* 'wrong vector dimension' *)
| FilesMissing            (* 'index files do not exist' *)
| IndexReadFailure        (* thrown by IndexFlatIP.read *)
| MetaParseFailure        (* SyntaxError, thrown by JSON.parse *)
| MetaShapeFailure.       (* TypeError, thrown when a field of null is read
                             and by new Map *)

Inductive result (A : Type) :=
| Ok (a : A)
| Throw (e : exn).
Arguments Ok {A} a.
Arguments Throw {A} e.

(** The files of the store directory: path to content. *)
Abbreviation FileSystem := (gmap jsstring jsstring).

Definition existsSync (fs : FileSystem) (path : jsstring) : bool :=
  bool_decide (is_Some (fs !! path)).

(** [new Map(entries)]: a later entry with the same key wins. *)
Definition new_Map (entries : list (number * TextChunk)) : gmap number TextChunk :=
  foldl (fun m e => <[e.1 := e.2]> m) ∅ entries.

(** [new Map(metadata.documents)]; [None] when it throws. *)
Definition mapOf (field : DocumentsField) : option (gmap number TextChunk) :=
  match field with
  | NoDocuments => Some ∅
  | Entries entries => Some (new_Map entries)
  | NotEntries => None
  end.

Section Store.
Context {I : Type} `{IndexFlatIP I}.

(** [JSON.parse] of the metadata file; [None] when it throws. *)
Variable JSON_parse : jsstring -> option Parsed.

(** [nextId] holds a number, or [undefined] ([None]) after a load from a
    metadata document without that field. *)
Record FaissVectorStore := {
  index : option I;
  documents : gmap number TextChunk;
  nextId : option number;
  indexPath : jsstring;
  metaPath : jsstring;
  isDirty : bool;
}.

(** [new FaissVectorStore({ indexPath, metaPath })] *)
Definition construct (ip mp : jsstring) : FaissVectorStore :=
  {| index := None; documents := ∅; nextId := Some zero;
     indexPath := ip; metaPath := mp; isDirty := false |}.

(** [load()].  The fields are assigned one after the other, so a failure
    on the way leaves the ones already assigned in place. *)
Definition load (fs : FileSystem) (st : FaissVectorStore) : result unit * FaissVectorStore :=
  match fs !! indexPath st, fs !! metaPath st with
  | Some indexBlob, Some metaContent =>
      match index_read indexBlob with
      | None => (Throw IndexReadFailure, st)
      | Some i =>
          let st1 :=
            {| index := Some i; documents := documents st; nextId := nextId st;
               indexPath := indexPath st; metaPath := metaPath st;
               isDirty := isDirty st |} in
          match JSON_parse metaContent with
          | None => (Throw MetaParseFailure, st1)
          | Some JsonNull => (Throw MetaShapeFailure, st1)
          | Some (JsonValue metadata) =>
              let st2 :=
                {| index := Some i; documents := documents st;
                   nextId := meta_nextId metadata;
                   indexPath := indexPath st; metaPath := metaPath st;
                   isDirty := isDirty st |} in
              match mapOf (meta_documents metadata) with
              | None => (Throw MetaShapeFailure, st2)
              | Some docs =>
                  (Ok (),
                   {| index := Some i;
                      documents := docs;
                      nextId := meta_nextId metadata;
                      indexPath := indexPath st; metaPath := metaPath st;
                      isDirty := false |})
              end
          end
      end
  | _, _ => (Throw FilesMissing, st)
  end.

(** [initialize()].  Creating the directory does not touch the two
    files and is left out. *)
Definition initialize (fs : FileSystem) (st : FaissVectorStore) : result unit * FaissVectorStore :=
  if existsSync fs (indexPath st) && existsSync fs (metaPath st) then
    load fs st
  else
    (Ok (),
     {| index := Some (index_new DIMENSION);
        documents := documents st; nextId := nextId st;
        indexPath := indexPath st; metaPath := metaPath st;
        isDirty := isDirty st |}).

(** [add(chunk, embedding)] *)
Definition add (st : FaissVectorStore) (c : TextChunk) (embedding : vector)
  : result number * FaissVectorStore :=
  match index st with
  | None => (Throw NotInitialized, st)
  | Some i =>
      if bool_decide (length embedding <> DIMENSION) then
        (Throw (DimensionError (length embedding)), st)
      else
        let '(id, next) := postIncrement (nextId st) in
        (Ok id,
         {| index := Some (index_add i embedding);
            documents := <[id := c]> (documents st);
            nextId := next;
            indexPath := indexPath st; metaPath := metaPath st;
            isDirty := true |})
  end.

(** State of the [for ... of items] loop of [addBatch]. *)
Record batch_state := {
  b_index : I;
  b_documents : gmap number TextChunk;
  b_nextId : option number;
  b_ids : list number;
}.

Definition addBatch_item (b : batch_state) (item : TextChunk * vector) : batch_state :=
  let '(c, embedding) := item in
  if bool_decide (length embedding <> DIMENSION) then b
  else
    let '(id, next) := postIncrement (b_nextId b) in
    {| b_index := index_add (b_index b) embedding;
       b_documents := <[id := c]> (b_documents b);
       b_nextId := next;
       b_ids := b_ids b ++ [id] |}.

(** [addBatch(items)] *)
Definition addBatch (st : FaissVectorStore) (items : list (TextChunk * vector))
  : result (list number) * FaissVectorStore :=
  match index st with
  | None => (Throw NotInitialized, st)
  | Some i =>
      let b := foldl addBatch_item
                 {| b_index := i; b_documents := documents st;
                    b_nextId := nextId st; b_ids := [] |} items in
      (Ok (b_ids b),
       {| index := Some (b_index b);
          documents := b_documents b;
          nextId := b_nextId b;
          indexPath := indexPath st; metaPath := metaPath st;
          isDirty := true |})
  end.

(** [getDocumentCount()] *)
Definition getDocumentCount (st : FaissVectorStore) : nat := size (documents st).

(** The loop of [search] over the entries the index answered with; the
    label reaches the code as a number. *)
Fixpoint collect (docs : gmap number TextChunk) (results : list (Z * Q)) : list SearchResult :=
  match results with
  | [] => []
  | (label, score) :: rest =>
      let id := ofZ label in
      let distance := (1 - score)%Q in
      if lt id zero then collect docs rest
      else
        match docs !! id with
        | None => collect docs rest
        | Some c => {| sr_id := id; distance := distance; chunk := c |} :: collect docs rest
        end
  end.

(** [search(queryEmbedding, k = 5)] *)
Definition search (st : FaissVectorStore) (queryEmbedding : vector) (k : option nat)
  : result (list SearchResult) :=
  let k := default 5%nat k in
  match index st with
  | None => Throw NotInitialized
  | Some i =>
      if bool_decide (size (documents st) = 0%nat) then Ok []
      else
        let actualK := Nat.min k (size (documents st)) in
        Ok (collect (documents st) (index_search i queryEmbedding actualK))
  end.

(** [clear()] *)
Definition clear (st : FaissVectorStore) : FaissVectorStore :=
  {| index := Some (index_new DIMENSION); documents := ∅; nextId := Some zero;
     indexPath := indexPath st; metaPath := metaPath st; isDirty := true |}.

(** [deleteDocument(id)] *)
Definition deleteDocument (st : FaissVectorStore) (id : number) : bool * FaissVectorStore :=
  if bool_decide (is_Some (documents st !! id)) then
    (true,
     {| index := index st; documents := delete id (documents st);
        nextId := nextId st;
        indexPath := indexPath st; metaPath := metaPath st; isDirty := true |})
  else (false, st).
End Store.

Arguments FaissVectorStore I : clear implicits.

End FaissStore.

(* ===================================================================== *)
(** ** A reference flat inner-product index *)
(* ===================================================================== *)

(** An executable index that meets [IndexFlatIP], for the examples; the
    theorems hold for every index.  It keeps the vectors in insertion
    order, labels them by position and ranks them by inner product with
    the query.  A request for more entries than it holds is filled up with
    entries of label [-1], as faiss does, here with the lowest score at
    hand. *)

Module FlatIndex.
Import Js JsNumber FaissStore.

Record flat := {
  flat_d : nat;
  flat_xb : list vector;
}.

Definition dot (a b : vector) : Q := foldr Qplus 0%Q (zip_with Qmult a b).

Definition scored (q : vector) (xb : list vector) : list (Z * Q) :=
  imap (fun i v => (Z.of_nat i, dot q v)) xb.

(** Comparator that puts the larger inner product first. *)
Definition by_score (a b : Z * Q) : Z :=
  match (a.2 ?= b.2)%Q with
  | Lt => 1
  | Eq => 0
  | Gt => -1
  end.

Definition pad (k : nat) (l : list (Z * Q)) : list (Z * Q) :=
  let lowest := match last l with Some e => e.2 | None => 0%Q end in
  l ++ replicate (k - length l) (-1, lowest).

Definition flat_search (i : flat) (q : vector) (k : nat) : list (Z * Q) :=
  pad k (take k (sort by_score (scored q (flat_xb i)))).

(** The file format of the reference index: a header unit, then the
    dimension; the vectors themselves are not kept in this format. *)
Definition flat_read (blob : jsstring) : option flat :=
  match blob with
  | 0x46%N :: d :: _ => Some {| flat_d := N.to_nat d; flat_xb := [] |}
  | _ => None
  end.

#[export] Instance flat_index : IndexFlatIP flat := {
  index_new d := {| flat_d := d; flat_xb := [] |};
  index_add i v := {| flat_d := flat_d i; flat_xb := flat_xb i ++ [v] |};
  index_search := flat_search;
  index_read := flat_read;
}.

(** A metadata reader for the examples.  The units [0x4D; n] are the
    document [{ nextId: n, documents: [] }], [0x50; e] is the same with
    the counter [2^e], and [0x4D; n; 0x21] has [true] in the place of the
    entries; [{}] and [null] are read as what they are. *)
Definition meta_read (content : jsstring) : option Parsed :=
  match content with
  | [0x4D%N; n] =>
      Some (JsonValue {| meta_nextId := Some (ofZ (Z.of_N n)); meta_documents := Entries [] |})
  | [0x50%N; e] =>
      Some (JsonValue {| meta_nextId := Some (ofZ (2 ^ Z.of_N e)); meta_documents := Entries [] |})
  | [0x4D%N; n; 0x21%N] =>
      Some (JsonValue {| meta_nextId := Some (ofZ (Z.of_N n)); meta_documents := NotEntries |})
  | [0x7B%N; 0x7D%N] =>
      Some (JsonValue {| meta_nextId := None; meta_documents := NoDocuments |})
  | [0x6E%N; 0x75%N; 0x6C%N; 0x6C%N] => Some JsonNull
  | _ => None
  end.

End FlatIndex.

(* ===================================================================== *)
(** ** Indexing task queue ([components/faiss-vectorizer.js]) *)
(* ===================================================================== *)

Module Vectorizer.
Import Js Chunk.

(** ['text' | 'file' | 'conversation'] *)
Inductive TaskType := text_task | file_task | conversation_task.

(** [Omit<IndexTask, 'id' | 'createdAt'>] *)
Record TaskRequest := {
  type : TaskType;
  content : jsstring;
  taskSourcePath : jsstring;
  taskSessionKey : option jsstring;
  taskMetadata : option Metadata;
  priority : Z;
}.

(** [{ ...task, id, createdAt }] *)
Record IndexTask := {
  request : TaskRequest;
  taskId : jsstring;
  createdAt : Z;
}.

(** What one [addTask] call reads from its surroundings: [Date.now()] for
    the id, [Math.random().toString(36).slice(2, 8)], and [Date.now()]
    again for [createdAt]. *)
Record Tick := {
  idTime : Z;
  random36 : jsstring;
  createdTime : Z;
}.

(** Decimal rendering of an integer, as in a template literal. *)
Definition toString (z : Z) : jsstring := u16 (NilZero.string_of_int (Z.to_int z)).

(** The comparator [(a, b) => b.priority - a.priority]. *)
Definition byPriority (a b : IndexTask) : Z :=
  priority (request b) - priority (request a).

Record Service := {
  taskQueue : list IndexTask;
  isProcessing : bool;
  storeReady : bool;
}.

(** [new FaissVectorizerService(...)] *)
Definition newService : Service :=
  {| taskQueue := []; isProcessing := false; storeReady := false |}.

Definition fullTask (task : TaskRequest) (tick : Tick) : IndexTask :=
  {| request := task;
     taskId := u16 "task-" ++ toString (idTime tick) ++ u16 "-" ++ random36 tick;
     createdAt := createdTime tick |}.

(** [addTask(task)] *)
Definition addTask (s : Service) (task : TaskRequest) (tick : Tick) : jsstring * Service :=
  let t := fullTask task tick in
  (taskId t,
   {| taskQueue := sort byPriority (taskQueue s ++ [t]);
      isProcessing := isProcessing s; storeReady := storeReady s |}).

(** The start of [processTasks()], up to [taskQueue.splice(0, 10)]: the
    batch taken and the service left behind. *)
Definition processTasks_take (s : Service) : list IndexTask * Service :=
  if isProcessing s || bool_decide (taskQueue s = []) || negb (storeReady s) then ([], s)
  else
    (take 10 (taskQueue s),
     {| taskQueue := drop 10 (taskQueue s); isProcessing := true;
        storeReady := storeReady s |}).

(** The [finally] of [processTasks()]. *)
Definition processTasks_done (s : Service) : Service :=
  {| taskQueue := taskQueue s; isProcessing := false; storeReady := storeReady s |}.

(** The store becomes available in [initialize()]. *)
Definition storeLoaded (s : Service) : Service :=
  {| taskQueue := taskQueue s; isProcessing := isProcessing s; storeReady := true |}.

End Vectorizer.

(* ===================================================================== *)
(** ** Retrieval gate ([components/rag-injector.js]) *)
(* ===================================================================== *)

Module RagInjector.
Import Js.

(** *** Code points *)

Definition isHighSurrogate (c : N) : bool := ((0xD800 <=? c) && (c <=? 0xDBFF))%N.
Definition isLowSurrogate (c : N) : bool := ((0xDC00 <=? c) && (c <=? 0xDFFF))%N.

(** The code points of a string, as a regular expression with the [u]
    flag and the case mappings read it: a surrogate pair is one code
    point, a lone surrogate stands for itself. *)
Fixpoint codePoints (s : jsstring) : list N :=
  match s with
  | [] => []
  | h :: s' =>
      match s' with
      | l :: s'' =>
          if isHighSurrogate h && isLowSurrogate l
          then (0x10000 + (h - 0xD800) * 0x400 + (l - 0xDC00))%N :: codePoints s''
          else h :: codePoints s'
      | [] => [h]
      end
  end.

Definition encodeCodePoint (c : N) : jsstring :=
  if (c <? 0x10000)%N then [c]
  else [(0xD800 + (c - 0x10000) / 0x400)%N; (0xDC00 + (c - 0x10000) mod 0x400)%N].

Section Gate.
(** The Unicode tables beyond ASCII are not spelled out: the lower-case
    mapping of a code point from U+0080 on that is not white space
    (white space has no case mapping), and the [Emoji] property from
    U+0100 on. *)
Variable lower_table : N -> list N.
Variable emoji_table : N -> bool.

Definition lowerCodePoint (c : N) : list N :=
  if ((0x41 <=? c) && (c <=? 0x5A))%N then [(c + 32)%N]
  else if (c <? 0x80)%N then [c]
  else if isWhiteSpace c then [c]
  else lower_table c.

(** [s.toLowerCase()].  The one context-sensitive rule (final sigma)
    changes neither lengths nor any test below and is left to the
    table. *)
Definition toLowerCase (s : jsstring) : jsstring :=
  flat_map (fun c => flat_map encodeCodePoint (lowerCodePoint c)) (codePoints s).

(** [\p{Emoji}]: below U+0100 these are [#], [*], the digits, the
    copyright and the registered sign. *)
Definition isEmoji (c : N) : bool :=
  if (c <? 0x100)%N then
    ((c =? 0x23) || (c =? 0x2A) || (0x30 <=? c) && (c <=? 0x39)
     || (c =? 0xA9) || (c =? 0xAE))%N
  else emoji_table c.

(** [/^[\p{Emoji}\s]+$/u.test(s)] *)
Definition emojiOnly (s : jsstring) : bool :=
  match codePoints s with
  | [] => false
  | cps => forallb (fun c => isEmoji c || isWhiteSpace c) cps
  end.

Definition greetings : list jsstring :=
  [ u16 "hi"; u16 "hello"; u16 "hey";
    [0x4F60; 0x597D]%N; [0x55E8]%N; [0x54C8; 0x56C9]%N;
    u16 "good morning"; u16 "good evening"; u16 "good night";
    [0x65E9; 0x5B89]%N; [0x5348; 0x5B89]%N; [0x665A; 0x5B89]%N;
    [0x65E9]%N; [0x665A]%N ].

Definition shouldPerformRag (query : jsstring) : bool :=
  let trimmed := toLowerCase (trim query) in
  if startsWith trimmed (u16 "/") then false
  else if len trimmed <? 5 then false
  else if bool_decide (trimmed ∈ greetings) then false
  else if emojiOnly trimmed then false
  else true.
End Gate.

End RagInjector.

(* ===================================================================== *)
(** ** Retrieval hook ([hooks/rag-inject/handler.js]) *)
(* ===================================================================== *)

Module RagHandler.
Import Js Chunk FaissStore.

Definition MAX_RETRIEVAL_TIME : Z := 300.
Definition MIN_QUERY_LENGTH : Z := 5.
Definition CACHE_TTL : Z := 5000.

(** The module-level cache: [lastQuery], [lastResult], [lastTimestamp]. *)
Record Cache := {
  lastQuery : option jsstring;
  lastResult : option jsstring;
  lastTimestamp : Z;
}.

Definition emptyCache : Cache :=
  {| lastQuery := None; lastResult := None; lastTimestamp := 0 |}.

(** [arr.join(sep)] *)
Fixpoint join (sep : jsstring) (parts : list jsstring) : jsstring :=
  match parts with
  | [] => []
  | [p] => p
  | p :: rest => p ++ sep ++ join sep rest
  end.

Definition isLineTerminator (c : N) : bool :=
  ((c =? 10) || (c =? 13) || (c =? 0x2028) || (c =? 0x2029))%N.

Definition workspaceDir : jsstring := u16 "/.openclaw/workspace/".

(** What is left of [s] behind the last occurrence of [workspaceDir] that
    has no line terminator in front of it. *)
Fixpoint afterWorkspace (s : jsstring) : option jsstring :=
  match s with
  | [] => None
  | c :: s' =>
      match (if isLineTerminator c then None else afterWorkspace s') with
      | Some r => Some r
      | None =>
          if startsWith s workspaceDir then Some (drop (length workspaceDir) s) else None
      end
  end.

(** [sourcePath.replace(/^.*\/\.openclaw\/workspace\//, '')] *)
Definition stripWorkspace (s : jsstring) : jsstring := default s (afterWorkspace s).

Section Handler.
(** [x.toFixed(2)] *)
Variable toFixed2 : Q -> jsstring.

(** The [filter] that drops a result whose key was seen before. *)
Fixpoint dedupe (seen : gset jsstring) (results : list SearchResult) : list SearchResult :=
  match results with
  | [] => []
  | r :: rest =>
      let textKey := substring0 (trim (text (chunk r))) 200 in
      if bool_decide (textKey ∈ seen) then dedupe seen rest
      else r :: dedupe ({[textKey]} ∪ seen) rest
  end.

Definition formatItem (idx : nat) (r : SearchResult) : jsstring :=
  let relevance := toFixed2 (1 - distance r)%Q in
  let source := stripWorkspace (sourcePath (chunk r)) in
  u16 "[" ++ Vectorizer.toString (Z.of_nat idx + 1) ++ u16 "] ("
    ++ [0x4F86; 0x6E90]%N ++ u16 ": " ++ source ++ u16 ", "
    ++ [0x76F8; 0x95DC; 0x5EA6]%N ++ u16 ": " ++ relevance ++ u16 ")"
    ++ [10%N] ++ trim (text (chunk r)).

Definition memoryHeading : jsstring :=
  [0x4EE5; 0x4E0B; 0x662F; 0x8207; 0x7576; 0x524D; 0x5C0D; 0x8A71; 0x76F8; 0x95DC;
   0x7684; 0x6B77; 0x53F2; 0x8A18; 0x61B6; 0x7247; 0x6BB5; 0xFF1A]%N.

Definition formatRagResultsXml (results : list SearchResult) : jsstring :=
  if bool_decide (results = []) then []
  else
    let dedupedResults := dedupe ∅ results in
    if bool_decide (dedupedResults = []) then []
    else
      let items := join [10; 10]%N (imap formatItem dedupedResults) in
      u16 "<historical_memory>" ++ [10%N] ++ memoryHeading ++ [10; 10]%N
        ++ items ++ [10%N] ++ u16 "</historical_memory>".

(** [msg.content]: missing, a string, or another value, of which the
    code looks at two things: whether it is truthy ([null], [false], [0]
    and [NaN] are not) and what [JSON.stringify] makes of it. *)
Inductive Content :=
| NoContent
| StringContent (s : jsstring)
| OtherContent (truthy : bool) (json : jsstring).

Record Message := {
  role : jsstring;
  content : Content;
}.

Record HookEvent := {
  messages : option (list Message);
}.

(** The loop of [extractUserQuery], over the messages last first. *)
Fixpoint lastUserContent (reversed : list Message) : option jsstring :=
  match reversed with
  | [] => None
  | msg :: rest =>
      if bool_decide (role msg = u16 "user") then
        match content msg with
        | StringContent ((_ :: _) as s) => Some s
        | OtherContent true json => Some json
        | _ => lastUserContent rest
        end
      else lastUserContent rest
  end.

Definition extractUserQuery (event : HookEvent) : option jsstring :=
  match messages event with
  | Some ms => lastUserContent (rev ms)
  | None => None
  end.

Definition ALLOWED_AGENTS : list jsstring := [u16 "main"; u16 "main-lite"].

(** How [await performRagRetrieval(query, config)] ends: with [null],
    with a result set, or by throwing.  Embedding the query and
    searching the store happen inside that call and nowhere else. *)
Inductive Retrieval :=
| NoMemory
| Retrieved (results : list SearchResult)
| Failed.

(** What one run of the hook gives back: the [prependContext] it
    returns, if any, the cache it leaves, and the queries it handed to
    [performRagRetrieval]. *)
Record Outcome := {
  prependContext : option jsstring;
  cacheAfter : Cache;
  retrievals : list jsstring;
}.

Definition skip (cache : Cache) : Outcome :=
  {| prependContext := None; cacheAfter := cache; retrievals := [] |}.

(** [handler(event, ctx)]; [now] is the [Date.now()] of the cache check,
    and the console output is left out. *)
Definition handler (performRagRetrieval : jsstring -> Retrieval) (now : Z)
    (cache : Cache) (event : HookEvent) (agentId : jsstring) : Outcome :=
  if negb (bool_decide (agentId ∈ ALLOWED_AGENTS)) then skip cache
  else
    match extractUserQuery event with
    | None => skip cache
    | Some userQuery =>
        if len userQuery <? MIN_QUERY_LENGTH then skip cache
        else if bool_decide (lastQuery cache = Some userQuery)
                && match lastResult cache with Some (_ :: _) => true | _ => false end
                && (now - lastTimestamp cache <? CACHE_TTL)
        then {| prependContext := lastResult cache; cacheAfter := cache;
                retrievals := [] |}
        else
          match performRagRetrieval userQuery with
          | Retrieved ((_ :: _) as results) =>
              let formattedContext := formatRagResultsXml results in
              {| prependContext := Some formattedContext;
                 cacheAfter := {| lastQuery := Some userQuery;
                                  lastResult := Some formattedContext;
                                  lastTimestamp := now |};
                 retrievals := [userQuery] |}
          | _ => {| prependContext := None; cacheAfter := cache;
                    retrievals := [userQuery] |}
          end
    end.
End Handler.

End RagHandler.

(* ===================================================================== *)
(** ** Vocabulary of the properties *)
(* ===================================================================== *)

Module ChunkSpec.
Import Js Chunk.

(** Options literal used by the examples. *)
Definition sized (s o : Z) : ChunkOptions :=
  {| chunkSize := Some s; chunkOverlap := Some o; optSourcePath := None;
     optSessionKey := None; optMetadata := None |}.

Definition env0 : Env := {| now := 0; uuid := fun _ => [] |}.

(** The non-overlap region of a chunk is the part of its text in front of
    the offset of the chunk that follows it; the last chunk counts whole. *)
Fixpoint nonOverlapRegions (cs : list TextChunk) : list jsstring :=
  match cs with
  | [] => []
  | c :: rest =>
      match rest with
      | [] => [text c]
      | c' :: _ =>
          take (Z.to_nat (offset c' - offset c)) (text c) :: nonOverlapRegions rest
      end
  end.

Definition reconstruct (cs : list TextChunk) : jsstring :=
  concat (nonOverlapRegions cs).

(** Code units on which some boundary pattern can start a match. *)
Definition boundaryUnits : list N :=
  [10; 0x3002; 0xFF01; 0xFF1F; 46; 33; 63; 0xFF0C; 44; 0xFF1B; 59]%N.

(** A code unit that is neither trimmed nor a natural boundary. *)
Definition plain (c : N) : Prop :=
  isWhiteSpace c = false /\ c ∉ boundaryUnits.

#[export] Instance plain_dec (c : N) : Decision (plain c) :=
  ltac:(unfold plain; apply _).

(** The window of the pass whose cursor is [off], as
    [adjustChunkBoundary] leaves it and before it is trimmed. *)
Definition window (t : jsstring) (options : ChunkOptions) (off : Z) : jsstring :=
  let endPos := off + windowSize options in
  let endPos := if len t <? endPos then len t else endPos in
  adjText (adjustChunkBoundary (slice t off endPos) t off endPos).

(** The window before [adjustChunkBoundary]: [chunkSize] code units from
    the cursor on, or what is left of the text. *)
Definition rawWindow (t : jsstring) (options : ChunkOptions) (off : Z) : jsstring :=
  take (Z.to_nat (Z.min (windowSize options) (len t - off))) (drop (Z.to_nat off) t).

Definition whiteSpace (s : jsstring) : Prop := Forall (fun c => isWhiteSpace c = true) s.

(** The cursor of a pass: a multiple of the step inside the text; a text
    that fits into one window has the one pass at 0. *)
Definition pass (t : jsstring) (options : ChunkOptions) (off : Z) : Prop :=
  0 <= off < len t /\ (step options | off)
  /\ (len t <= windowSize options -> off = 0).

(** A chunk that is the trimmed window of the pass at its offset. *)
Definition run_of (t : jsstring) (options : ChunkOptions) (c : TextChunk) : Prop :=
  pass t options (offset c)
  /\ text c = trim (window t options (offset c))
  /\ text c <> [].

(** The text of the chunk is a stretch of its window with nothing but
    white space around it, and the code unit at position [p] of the input
    lies in it. *)
Definition holds (t : jsstring) (options : ChunkOptions) (c : TextChunk) (p : nat) : Prop :=
  exists pre post,
    window t options (offset c) = pre ++ text c ++ post
    /\ whiteSpace pre /\ whiteSpace post
    /\ offset c + Z.of_nat (length pre) <= Z.of_nat p
        < offset c + Z.of_nat (length pre) + len (text c).

(** What the sliding-window loop keeps true of the chunks pushed so far
    when the cursor is at [off]. *)
Definition inv (t : jsstring) (options : ChunkOptions) (off : Z) (acc : list TextChunk) : Prop :=
  StronglySorted Z.lt (map offset acc)
  /\ Forall (fun c => offset c < off /\ run_of t options c) acc
  /\ (forall off', pass t options off' -> off' < off ->
        trim (window t options off') <> [] -> exists c, c ∈ acc /\ offset c = off').

(** An input with blanks whose windows end on letters. *)
Definition sentence : jsstring :=
  u16 "hello world this is a plain sentence without any stop".

End ChunkSpec.

Module StoreSpec.
Import Js JsNumber Chunk FaissStore FlatIndex.

(** The store after the else-branch of [initialize]. *)
Definition with_fresh_index {I} `{IndexFlatIP I} (st : FaissVectorStore I) : FaissVectorStore I :=
  {| index := Some (index_new DIMENSION);
     documents := documents st; nextId := nextId st;
     indexPath := indexPath st; metaPath := metaPath st; isDirty := isDirty st |}.

(** The store after a successful [load]. *)
Definition loaded {I} (st : FaissVectorStore I) (i : I) (next : option number)
    (docs : gmap number TextChunk) : FaissVectorStore I :=
  {| index := Some i;
     documents := docs;
     nextId := next;
     indexPath := indexPath st; metaPath := metaPath st; isDirty := false |}.

(** The two files can be read: the index blob can, the metadata is JSON
    and not [null], and [new Map] takes its field [documents]. *)
Definition well_formed {I} `{IndexFlatIP I} (JSON_parse : jsstring -> option Parsed)
    (blob content : jsstring) : Prop :=
  exists i m docs,
    index_read blob = Some i /\ JSON_parse content = Some (JsonValue m)
    /\ mapOf (meta_documents m) = Some docs.

(** An item whose embedding has the configured dimension. *)
Definition fits (item : TextChunk * vector) : Prop := length item.2 = DIMENSION.

(** The number the next id will be. *)
Definition counter {I} (st : FaissVectorStore I) : number := ToNumeric (nextId st).

(** The ids that [n] uses of [nextId++] hand out, and what the field
    holds after them. *)
Fixpoint idsFrom (v : option number) (n : nat) : list number :=
  match n with
  | O => []
  | S n' => (postIncrement v).1 :: idsFrom (postIncrement v).2 n'
  end.

Fixpoint advance (v : option number) (n : nat) : option number :=
  match n with
  | O => v
  | S n' => advance (postIncrement v).2 n'
  end.

(** The counter holds the number [k * 2^-1074], and the first [n] ids
    counted from it are doubles: adding 1 is exact up to the last of
    them. *)
Definition exact (v : option number) (k : Z) (n : nat) : Prop :=
  v = Some (Finite k)
  /\ forall j : nat, (j < n)%nat -> isDouble (k + Z.of_nat j * one) = true.

(** The operations of the id-counter claim and the ids a run of them
    hands out. *)
Inductive op :=
| Add (c : TextChunk) (embedding : vector)
| AddBatch (items : list (TextChunk * vector))
| DeleteDocument (id : number).

Section Runs.
Context {I : Type} `{IndexFlatIP I}.

Definition step_op (st : FaissVectorStore I) (o : op) : list number * FaissVectorStore I :=
  match o with
  | Add c e =>
      match add st c e with
      | (Ok id, st') => ([id], st')
      | (Throw _, st') => ([], st')
      end
  | AddBatch items =>
      match addBatch st items with
      | (Ok ids, st') => (ids, st')
      | (Throw _, st') => ([], st')
      end
  | DeleteDocument id => ([], (deleteDocument st id).2)
  end.

Fixpoint run (st : FaissVectorStore I) (ops : list op) : list number * FaissVectorStore I :=
  match ops with
  | [] => ([], st)
  | o :: ops' =>
      let '(ids, st') := step_op st o in
      let '(ids', st'') := run st' ops' in
      (ids ++ ids', st'')
  end.

(** Number of vectors of an operation that pass the dimension check. *)
Definition accepted (o : op) : nat :=
  match o with
  | Add _ e => if bool_decide (length e = DIMENSION) then 1 else 0
  | AddBatch items => length (filter fits items)
  | DeleteDocument _ => 0
  end.

End Runs.

(** *** Example stores *)

Definition ip : jsstring := u16 "vector.index".

Definition mp : jsstring := u16 "vector.meta.json".

Definition store0 : FaissVectorStore flat := construct ip mp.

(** Both files, well formed; and only the index blob. *)
Definition fs_pair : FileSystem := <[ip := [0x46; 3]%N]> (<[mp := [0x4D; 7]%N]> ∅).

Definition fs_index_only : FileSystem := <[ip := [0x46; 3]%N]> ∅.

Definition fs_meta_only : FileSystem := <[mp := [0x4D; 7]%N]> ∅.

(** Both files, the metadata cut short. *)
Definition fs_torn : FileSystem := <[ip := [0x46; 3]%N]> (<[mp := [0x7B]%N]> ∅).

(** Both files, the metadata the document [{}]. *)
Definition fs_bare : FileSystem := <[ip := [0x46; 3]%N]> (<[mp := u16 "{}"]> ∅).

(** Both files, the counter of the metadata at [2^53]. *)
Definition fs_full : FileSystem := <[ip := [0x46; 3]%N]> (<[mp := [0x50; 53]%N]> ∅).

Definition sample (s : string) : TextChunk :=
  {| id := u16 s; text := u16 s; sourcePath := u16 "memory/notes.md";
     offset := 0; timestamp := 0; sessionKey := None; metadata := None |}.

(** Unit vectors of the configured dimension, and one that is too short. *)
Definition axis (n : nat) : vector :=
  replicate n 0%Q ++ [1%Q] ++ replicate (DIMENSION - n - 1) 0%Q.

Definition short : vector := [1%Q; 0%Q; 0%Q].

Definition store1 : FaissVectorStore flat := with_fresh_index store0.

Definition batch5 : list (TextChunk * vector) :=
  [ (sample "a", axis 0); (sample "b", short); (sample "c", axis 1);
    (sample "d", short); (sample "e", axis 2) ].

Definition store2 : FaissVectorStore flat := (addBatch store1 batch5).2.

Definition ops6 : list op :=
  [ Add (sample "a") (axis 0); Add (sample "b") (axis 1); DeleteDocument (ofZ 1);
    Add (sample "c") (axis 2); AddBatch batch5; Add (sample "d") short ].

(** The stores that [initialize] makes of [{}] and of a counter at
    [2^53]. *)
Definition store_bare : FaissVectorStore flat := (initialize meta_read fs_bare store0).2.

Definition store_full : FaissVectorStore flat := (initialize meta_read fs_full store0).2.

End StoreSpec.

Module QueueSpec.
Import Js Vectorizer.

(** What can happen to a service between two observations. *)
Inductive event :=
| AddTask (task : TaskRequest) (tick : Tick)
| TakeBatch
| BatchDone
| StoreLoaded.

Definition apply_event (s : Service) (e : event) : Service :=
  match e with
  | AddTask task tick => (addTask s task tick).2
  | TakeBatch => (processTasks_take s).2
  | BatchDone => processTasks_done s
  | StoreLoaded => storeLoaded s
  end.

(** The tasks added by a history, in arrival order. *)
Definition arrivals (es : list event) : list IndexTask :=
  flat_map (fun e => match e with AddTask task tick => [fullTask task tick] | _ => [] end) es.

Definition has_priority (p : Z) (t : IndexTask) : Prop := priority (request t) = p.

#[export] Instance has_priority_dec (p : Z) (t : IndexTask) : Decision (has_priority p t) :=
  ltac:(unfold has_priority; apply _).

(** Highest priority first. *)
Definition descending (a b : IndexTask) : Prop :=
  priority (request b) <= priority (request a).

(** Example requests: a text task of priority [p], and the clock reading
    [n]. *)
Definition ask_for (name : string) (p : Z) : TaskRequest :=
  {| type := text_task; content := u16 name; taskSourcePath := u16 "chat";
     taskSessionKey := None; taskMetadata := None; priority := p |}.

Definition at_time (n : Z) : Tick :=
  {| idTime := n; random36 := u16 "k3x9qa"; createdTime := n |}.

End QueueSpec.

Module GateSpec.
Import Js RagInjector.

(** An ASCII digit or a white-space code unit. *)
Definition digitOrSpace (c : N) : bool :=
  ((0x30 <=? c) && (c <=? 0x39))%N || isWhiteSpace c.

End GateSpec.

Module HandlerSpec.
Import Js Chunk FaissStore RagHandler.

(** An example exchange. *)
Definition fixed2 (x : Q) : jsstring := u16 "0.50".

Definition hit : SearchResult :=
  {| sr_id := JsNumber.zero; distance := (1 # 2)%Q;
     chunk := {| id := u16 "c0"; text := u16 "We decided to use X for caching";
                 sourcePath := u16 "/home/u/.openclaw/workspace/memory/notes.md";
                 offset := 0; timestamp := 0; sessionKey := None;
                 metadata := None |} |}.

Definition found (q : jsstring) : Retrieval := Retrieved [hit].

Definition down (q : jsstring) : Retrieval := Failed.

Definition ask : HookEvent :=
  {| messages := Some [ {| role := u16 "user";
                          content := StringContent (u16 "what did we decide about X?") |} ] |}.

Definition ask_other : HookEvent :=
  {| messages := Some [ {| role := u16 "assistant";
                            content := StringContent (u16 "noted") |};
                        {| role := u16 "user";
                            content := StringContent (u16 "and about the index format?") |} ] |}.

End HandlerSpec.

(* ===================================================================== *)
(** ** Vocabulary of the further properties *)
(* ===================================================================== *)

Module ChunkShapeSpec.
Import Js Chunk.

(** What every chunk of a result looks like. *)
Definition shaped (env : Env) (t : jsstring) (options : ChunkOptions) (c : TextChunk) : Prop :=
  text c <> [] /\ trim (text c) = text c /\ len (text c) <= windowSize options
  /\ 0 <= offset c < len t /\ (step options | offset c)
  /\ timestamp c = now env
  /\ sourcePath c = default (u16 "unknown") (optSourcePath options)
  /\ sessionKey c = optSessionKey options
  /\ metadata c = optMetadata options.

End ChunkShapeSpec.

(* ===================================================================== *)
(** ** Markdown and conversation chunking ([src/utils/chunk.ts]) *)
(* ===================================================================== *)

Module Markdown.
Import Js Chunk.

(** [content.replace(/\n{3,}/g, '\n\n')]: of a run of line feeds the first
    two are kept; [run] is the number of line feeds just read. *)
Fixpoint collapse_aux (run : nat) (s : jsstring) : jsstring :=
  match s with
  | [] => []
  | c :: s' =>
      if (c =? 10)%N then
        if (run <? 2)%nat then c :: collapse_aux (S run) s'
        else collapse_aux (S run) s'
      else c :: collapse_aux 0 s'
  end.

Definition collapseBlankLines (content : jsstring) : jsstring :=
  collapse_aux 0 content.

(** What [.] does not match and what [^] and [$] look at with the [m]
    flag. *)
Definition lineTerminator (c : N) : bool :=
  ((c =? 10) || (c =? 13) || (c =? 0x2028) || (c =? 0x2029))%N.

(** [#]s at the head of [s]. *)
Fixpoint countHashes (s : jsstring) : nat :=
  match s with
  | c :: s' => if (c =? 35)%N then S (countHashes s') else 0
  | [] => 0
  end.

(** White space at the head of [s]. *)
Fixpoint leadingSpace (s : jsstring) : nat :=
  match s with
  | c :: s' => if isWhiteSpace c then S (leadingSpace s') else 0
  | [] => 0
  end.

(** The longest stretch at the head of [s] without a line terminator:
    what a greedy [.+] takes. *)
Fixpoint lineRun (s : jsstring) : jsstring :=
  match s with
  | c :: s' => if lineTerminator c then [] else c :: lineRun s'
  | [] => []
  end.

(** How much of the white space behind the hashes [\s+] keeps: it starts
    with all [w] units and gives back one at a time until [.+] finds a
    unit to start on. *)
Fixpoint pickSpace (r : jsstring) (w : nat) : option nat :=
  match w with
  | O => None
  | S k =>
      match r !! w with
      | Some c => if lineTerminator c then pickSpace r k else Some w
      | None => pickSpace r k
      end
  end.

(** The match of [/^(#{1,6})\s+(.+)$/m] at the head of [s], the head being
    the start of a line: its length and its second group. *)
Definition headerAt (s : jsstring) : option (nat * jsstring) :=
  let h := countHashes s in
  if ((1 <=? h) && (h <=? 6))%nat then
    let r := drop h s in
    match pickSpace r (leadingSpace r) with
    | Some w =>
        let title := lineRun (drop w r) in
        Some ((h + w + length title)%nat, title)
    | None => None
    end
  else None.

(** [[...content.matchAll(headerPattern)]] as (index, title) pairs; [i] is
    the index of the head of [s], [lineStart] tells whether a line starts
    there and [skip] counts the units still covered by the last match. *)
Fixpoint headerMatches_aux (s : jsstring) (i : nat) (lineStart : bool) (skip : nat)
  : list (nat * jsstring) :=
  match s with
  | [] => []
  | c :: s' =>
      match skip with
      | S k => headerMatches_aux s' (S i) (lineTerminator c) k
      | O =>
          match (if lineStart then headerAt s else None) with
          | Some (n, title) =>
              (i, title) :: headerMatches_aux s' (S i) (lineTerminator c) (Nat.pred n)
          | None => headerMatches_aux s' (S i) (lineTerminator c) 0
          end
      end
  end.

Definition headerMatches (content : jsstring) : list (nat * jsstring) :=
  headerMatches_aux content 0 true 0.

Record Section_ := {
  header : jsstring;
  body : jsstring;
}.

(** The [for] loop of [splitByHeaders]: a section from each match up to
    the next one, or to the end. *)
Fixpoint sectionsFrom (content : jsstring) (matches : list (nat * jsstring)) : list Section_ :=
  match matches with
  | [] => []
  | (startPos, title) :: rest =>
      let endPos := match rest with
                    | (nextPos, _) :: _ => Z.of_nat nextPos
                    | [] => len content
                    end in
      {| header := title; body := slice content (Z.of_nat startPos) endPos |}
        :: sectionsFrom content rest
  end.

Definition splitByHeaders (content : jsstring) : list Section_ :=
  match headerMatches content with
  | [] => [ {| header := []; body := content |} ]
  | ((first, _) :: _) as matches =>
      (if (0 <? first)%nat
       then [ {| header := []; body := slice content 0 (Z.of_nat first) |} ]
       else [])
      ++ sectionsFrom content matches
  end.

(** Assignment to a property of a record: the value is replaced where the
    key is, or the entry is added at the end. *)
Fixpoint setProp (key value : jsstring) (m : Metadata) : Metadata :=
  match m with
  | [] => [(key, value)]
  | (k, v) :: m' => if bool_decide (k = key) then (k, value) :: m'
                    else (k, v) :: setProp key value m'
  end.

Fixpoint getProp (key : jsstring) (m : Metadata) : option jsstring :=
  match m with
  | [] => None
  | (k, v) :: m' => if bool_decide (k = key) then Some v else getProp key m'
  end.

(** [{ ...options, metadata: { ...options.metadata, k1: v1, k2: v2 } }] *)
Definition withMetadata (options : ChunkOptions) (k1 v1 k2 v2 : jsstring) : ChunkOptions :=
  {| chunkSize := chunkSize options; chunkOverlap := chunkOverlap options;
     optSourcePath := optSourcePath options; optSessionKey := optSessionKey options;
     optMetadata := Some (setProp k2 v2 (setProp k1 v1 (default [] (optMetadata options)))) |}.

(** The loop of [chunkMarkdown] over the sections; [envs k] is what the
    [k]-th call of [chunkText] reads from its surroundings. *)
Fixpoint chunkSections (envs : nat -> Env) (fuel : nat) (options : ChunkOptions)
    (k : nat) (sections : list Section_) : option (list TextChunk) :=
  match sections with
  | [] => Some []
  | section :: rest =>
      if len (trim (body section)) =? 0 then chunkSections envs fuel options k rest
      else
        match chunkText (envs k) (body section)
                (withMetadata options (u16 "sectionHeader") (header section)
                   (u16 "type") (u16 "markdown")) fuel with
        | None => None
        | Some chunks =>
            match chunkSections envs fuel options (S k) rest with
            | None => None
            | Some more => Some (chunks ++ more)
            end
        end
  end.

Definition chunkMarkdown (envs : nat -> Env) (fuel : nat) (content : jsstring)
    (options : ChunkOptions) : option (list TextChunk) :=
  let cleaned := collapseBlankLines content in
  let sections := splitByHeaders cleaned in
  chunkSections envs fuel options 0 sections.

End Markdown.

Module MarkdownSpec.
Import Js Chunk Markdown.

(** Line feeds at the head of a text. *)
Fixpoint leadingFeeds (l : jsstring) : nat :=
  match l with
  | c :: l' => if (c =? 10)%N then S (leadingFeeds l') else 0
  | [] => 0
  end.

(** No three line feeds in a row. *)
Definition noTripleFeed (l : jsstring) : Prop :=
  forall i, ~ (l !! i = Some 10%N /\ l !! (S i) = Some 10%N /\ l !! (S (S i)) = Some 10%N).

(** [s] opens with a header line of [n] units whose title is [title]:
    one to six hashes, white space, the title up to the end of the line. *)
Definition headerLine (n : nat) (title s : jsstring) : Prop :=
  exists (h : nat) (ws rest : jsstring),
    (1 <= h <= 6)%nat /\ ws <> [] /\ Forall (fun c => isWhiteSpace c = true) ws
    /\ title <> [] /\ Forall (fun c => lineTerminator c = false) title
    /\ s = replicate h 35%N ++ ws ++ title ++ rest
    /\ match rest with [] => True | c :: _ => lineTerminator c = true end
    /\ n = (h + length ws + length title)%nat.

(** A section that opens with the header line it is named after. *)
Definition titled (s : Section_) : Prop := exists n, headerLine n (header s) (body s).

(** Matches that lie in the text, one behind the end of the other. *)
Fixpoint spaced (content : jsstring) (lo : nat) (ms : list (nat * jsstring)) : Prop :=
  match ms with
  | [] => True
  | m :: rest =>
      (lo <= m.1 < length content)%nat
      /\ exists n, headerAt (drop m.1 content) = Some (n, m.2)
           /\ spaced content (m.1 + n) rest
  end.

(** The options [chunkMarkdown] hands to [chunkText] for a section. *)
Definition sectionOptions (options : ChunkOptions) (sec : Section_) : ChunkOptions :=
  withMetadata options (u16 "sectionHeader") (header sec) (u16 "type") (u16 "markdown").

(** A chunk that carries the marks of a section: its type, the section's
    header, and whatever else the caller's metadata held. *)
Definition markdownChunk (options : ChunkOptions) (sec : Section_) (c : TextChunk) : Prop :=
  exists m, metadata c = Some m
    /\ getProp (u16 "type") m = Some (u16 "markdown")
    /\ getProp (u16 "sectionHeader") m = Some (header sec)
    /\ forall key, key <> u16 "type" -> key <> u16 "sectionHeader" ->
         getProp key m = getProp key (default [] (optMetadata options)).

End MarkdownSpec.

(* ===================================================================== *)
(** ** The vector store on disk ([utils/faiss-store.js]) *)
(* ===================================================================== *)

Module StoreIO.
Import Js JsNumber Chunk FaissStore.

(** [index.write(path)]: the blob it leaves at the path.  Like [add] it
    is taken as total. *)
Class IndexWrite (I : Type) := {
  index_write : I -> jsstring;
}.

(** The vectors an index holds, in the order they were added: faiss
    labels a vector by its position. *)
Class IndexContents (I : Type) := {
  index_vectors : I -> list vector;
}.

Section Persist.
Context {I : Type} `{IndexFlatIP I} `{IndexWrite I}.

Variable JSON_parse : jsstring -> option Parsed.

(** [JSON.stringify(metadata, null, 2)] *)
Variable JSON_stringify : MetaDoc -> jsstring.

(** [Array.from(this.documents.entries())]: each key once.  A [Map]
    lists its entries in the order they were first set; this model lists
    them by key, and [new Map] of either list is the same map. *)
Definition entries (docs : gmap number TextChunk) : list (number * TextChunk) :=
  map_to_list docs.

(** The object [{ nextId, documents }] that [save] writes. *)
Definition metadataOf (st : FaissVectorStore I) : MetaDoc :=
  {| meta_nextId := nextId st; meta_documents := Entries (entries (documents st)) |}.

(** [save()].  Creating the directory does not touch the two files and
    is left out; the index blob is written first. *)
Definition save (fs : FileSystem) (st : FaissVectorStore I)
  : result unit * FileSystem * FaissVectorStore I :=
  match index st with
  | None => (Throw NotInitialized, fs, st)
  | Some i =>
      let fs := <[indexPath st := index_write i]> fs in
      let metadata := metadataOf st in
      let fs := <[metaPath st := JSON_stringify metadata]> fs in
      (Ok (), fs,
       {| index := index st; documents := documents st; nextId := nextId st;
          indexPath := indexPath st; metaPath := metaPath st; isDirty := false |})
  end.

(** [flush()] *)
Definition flush (fs : FileSystem) (st : FaissVectorStore I)
  : result unit * FileSystem * FaissVectorStore I :=
  if isDirty st then save fs st else (Ok (), fs, st).

(** [getDocument(id)] *)
Definition getDocument (st : FaissVectorStore I) (id : number) : option TextChunk :=
  documents st !! id.

(** [options.indexPath || DEFAULT_INDEX_PATH]: an absent or empty path
    gives the default. *)
Definition orDefault (path : option jsstring) (dflt : jsstring) : jsstring :=
  match path with
  | Some ((_ :: _) as p) => p
  | _ => dflt
  end.

Variable DEFAULT_INDEX_PATH : jsstring.

Variable DEFAULT_META_PATH : jsstring.

(** [new FaissVectorStore(options)] *)
Definition newStore (options : option jsstring * option jsstring) : FaissVectorStore I :=
  construct (orDefault options.1 DEFAULT_INDEX_PATH) (orDefault options.2 DEFAULT_META_PATH).

(** [getVectorStore(options)] over the module variable [globalStore],
    which holds the one store object of the module once it is set. *)
Definition getVectorStore (fs : FileSystem) (globalStore : option (FaissVectorStore I))
    (options : option jsstring * option jsstring)
  : result unit * option (FaissVectorStore I) :=
  match globalStore with
  | Some _ => (Ok (), globalStore)
  | None =>
      let '(r, st) := initialize JSON_parse fs (newStore options) in
      (r, Some st)
  end.

(** [resetVectorStore()] *)
Definition resetVectorStore (globalStore : option (FaissVectorStore I))
  : option (FaissVectorStore I) := None.
End Persist.

End StoreIO.

Module StoreIOSpec.
Import Js JsNumber Chunk FaissStore FlatIndex StoreSpec StoreIO.

(** What the store relies on when it reads back what it wrote. *)
Class IndexWriteLaws (I : Type) `{IndexFlatIP I} `{IndexWrite I} : Prop := {
  index_read_write : forall i : I, index_read (index_write i) = Some i;
}.

(** What the store relies on when it takes a label for a document id:
    a new index is empty, [add] appends, and [search] labels each entry
    it found by the position of the vector it scored. *)
Class IndexContentsLaws (I : Type) `{IndexFlatIP I} `{IndexContents I} : Prop := {
  index_vectors_new : forall d, index_vectors (index_new d : I) = [];
  index_vectors_add : forall (i : I) v, index_vectors (index_add i v) = index_vectors i ++ [v];
  index_search_labels : forall (i : I) q k e, e ∈ index_search i q k ->
    e.1 < 0 \/ (0 <= e.1 /\ exists v, index_vectors i !! Z.to_nat e.1 = Some v
                                    /\ (e.2 == dot q v)%Q);
}.

(** The items of an operation that pass the dimension check. *)
Definition acceptedItems (o : op) : list (TextChunk * vector) :=
  match o with
  | Add c e => if bool_decide (length e = DIMENSION) then [(c, e)] else []
  | AddBatch items => filter fits items
  | DeleteDocument _ => []
  end.

(** All accepted items of a run, in order. *)
Definition journal (ops : list op) : list (TextChunk * vector) :=
  concat (acceptedItems <$> ops).

(** A store whose ids are the labels of its index: the counter is the
    number of vectors, and it has not passed [2^53]. *)
Definition aligned {I} `{IndexContents I} (st : FaissVectorStore I)
    (log : list (TextChunk * vector)) : Prop :=
  exists i, index st = Some i
    /\ index_vectors i = log.*2
    /\ nextId st = Some (ofZ (Z.of_nat (length log)))
    /\ Z.of_nat (length log) <= MAX_EXACT
    /\ forall id c, documents st !! id = Some c ->
         exists (j : nat) v, id = ofZ (Z.of_nat j) /\ log !! j = Some (c, v).

#[export] Instance flat_contents : IndexContents flat := {
  index_vectors := flat_xb;
}.

(** *** An index file and a metadata document for the examples *)

#[export] Instance Q_eq_dec : EqDecision Q.
Proof. solve_decision. Defined.

#[export] Instance Q_countable : Countable Q :=
  inj_countable' (fun q => (Qnum q, Qden q)) (fun p => Qmake p.1 p.2) (fun q => match q with Qmake _ _ => eq_refl end).

#[export] Instance flat_eq_dec : EqDecision flat.
Proof. solve_decision. Defined.

#[export] Instance flat_countable : Countable flat :=
  inj_countable' (fun i => (flat_d i, flat_xb i)) (fun p => {| flat_d := p.1; flat_xb := p.2 |})
    (fun i => match i with Build_flat _ _ => eq_refl end).

#[export] Instance TextChunk_eq_dec : EqDecision TextChunk.
Proof. solve_decision. Defined.

#[export] Instance TextChunk_countable : Countable TextChunk :=
  inj_countable'
    (fun c => (id c, text c, sourcePath c, offset c, timestamp c, sessionKey c, metadata c))
    (fun '(a, b, c, d, e, f, g) =>
       {| id := a; text := b; sourcePath := c; offset := d; timestamp := e;
          sessionKey := f; metadata := g |})
    (fun c => match c with Build_TextChunk _ _ _ _ _ _ _ => eq_refl end).

#[export] Instance DocumentsField_eq_dec : EqDecision DocumentsField.
Proof. solve_decision. Defined.

#[export] Instance DocumentsField_countable : Countable DocumentsField :=
  inj_countable'
    (fun d => match d with
              | NoDocuments => inl false
              | Entries l => inr l
              | NotEntries => inl true
              end)
    (fun s => match s with
              | inl false => NoDocuments
              | inr l => Entries l
              | inl true => NotEntries
              end)
    (fun d => match d with NoDocuments | Entries _ | NotEntries => eq_refl end).

#[export] Instance MetaDoc_eq_dec : EqDecision MetaDoc.
Proof. solve_decision. Defined.

#[export] Instance MetaDoc_countable : Countable MetaDoc :=
  inj_countable' (fun m => (meta_nextId m, meta_documents m))
    (fun p => {| meta_nextId := p.1; meta_documents := p.2 |})
    (fun m => match m with Build_MetaDoc _ _ => eq_refl end).

(** A flat index whose file holds all of it. *)
Record filed := {
  filed_flat : flat;
}.

Definition filed_read (blob : jsstring) : option filed :=
  match blob with
  | [Npos p] => Build_filed <$> decode p
  | _ => None
  end.

#[export] Instance filed_index : IndexFlatIP filed := {
  index_new d := {| filed_flat := index_new d |};
  index_add i v := {| filed_flat := index_add (filed_flat i) v |};
  index_search i := index_search (filed_flat i);
  index_read := filed_read;
}.

#[export] Instance filed_write : IndexWrite filed := {
  index_write i := [Npos (encode (filed_flat i))];
}.

(** A metadata document that is read back as written. *)
Definition meta_write (m : MetaDoc) : jsstring := [Npos (encode m)].

Definition meta_parse (content : jsstring) : option Parsed :=
  match content with
  | [Npos p] => JsonValue <$> decode p
  | _ => None
  end.

Definition store3 : FaissVectorStore filed :=
  (run (with_fresh_index (construct ip mp)) ops6).2.

(** Both files, the index blob not one that can be read. *)
Definition fs_unreadable : FileSystem := <[ip := [0x3F; 0x3F]%N]> (<[mp := [0x4D; 7]%N]> ∅).

End StoreIOSpec.

(* ===================================================================== *)
(** ** Embeddings ([utils/embeddings.js]) *)
(* ===================================================================== *)

Module Embeddings.
Import Js FaissStore.

(** The feature-extraction pipeline applied to one text with mean pooling
    and normalisation: the data of the tensor it answers with, or [None]
    when its promise rejects. *)
Definition Pipeline : Type := jsstring -> option vector.

(** How a call ends. *)
Inductive outcome (A : Type) :=
| Done (a : A)
| Rejected.
Arguments Done {A} a.
Arguments Rejected {A}.

(** [initEmbeddings()] over the module variable [embeddingPipeline];
    [loadModel] is what loading the model gives, [None] when it fails.
    One call at a time: the promise kept for calls that overlap is left
    out. *)
Definition initEmbeddings (loadModel : option Pipeline) (embeddingPipeline : option Pipeline)
  : outcome Pipeline * option Pipeline :=
  match embeddingPipeline with
  | Some p => (Done p, embeddingPipeline)
  | None =>
      match loadModel with
      | Some p => (Done p, Some p)
      | None => (Rejected, None)
      end
  end.

(** [embedText(text)] *)
Definition embedText (loadModel : option Pipeline) (embeddingPipeline : option Pipeline)
    (text : jsstring) : outcome vector * option Pipeline :=
  let '(r, embeddingPipeline) :=
    match embeddingPipeline with
    | None => initEmbeddings loadModel embeddingPipeline
    | Some p => (Done p, embeddingPipeline)
    end in
  match r, embeddingPipeline with
  | Done _, Some p =>
      match p text with
      | Some output => (Done output, embeddingPipeline)
      | None => (Rejected, embeddingPipeline)
      end
  | _, _ => (Rejected, embeddingPipeline)
  end.

Definition batchSize : nat := 32.

(** The [for (let i = 0; i < texts.length; i += batchSize)] loop of
    [embedTexts], which makes [passes] passes; [Promise.all] rejects when
    one text of the batch does. *)
Fixpoint embedBatches (p : Pipeline) (passes : nat) (texts : list jsstring) (i : nat)
    (embeddings : list vector) : outcome (list vector) :=
  match passes with
  | O => Done embeddings
  | S passes' =>
      let batch := take batchSize (drop i texts) in
      match mapM p batch with
      | Some batchResults =>
          embedBatches p passes' texts (i + batchSize) (embeddings ++ batchResults)
      | None => Rejected
      end
  end.

(** [embedTexts(texts)] *)
Definition embedTexts (loadModel : option Pipeline) (embeddingPipeline : option Pipeline)
    (texts : list jsstring) : outcome (list vector) * option Pipeline :=
  if bool_decide (texts = []) then (Done [], embeddingPipeline)
  else
    let '(r, embeddingPipeline) :=
      match embeddingPipeline with
      | None => initEmbeddings loadModel embeddingPipeline
      | Some p => (Done p, embeddingPipeline)
      end in
    match r, embeddingPipeline with
    | Done _, Some p =>
        (embedBatches p ((length texts + batchSize - 1) / batchSize) texts 0 [],
         embeddingPipeline)
    | _, _ => (Rejected, embeddingPipeline)
    end.

End Embeddings.

Module EmbeddingsSpec.
Import Js FaissStore Embeddings.

(** An example pipeline: it rejects the empty text and answers any other
    with its length. *)
Definition byLength : Pipeline :=
  fun t => if bool_decide (t = []) then None else Some [inject_Z (len t)].

End EmbeddingsSpec.

(* ===================================================================== *)
(** ** Task processing ([components/faiss-vectorizer.js]) *)
(* ===================================================================== *)

Module Indexer.
Import Js Chunk FaissStore Markdown Embeddings Vectorizer.

(** The fields of the configuration that task processing reads. *)
Record Config := {
  cfgChunkSize : option Z;
  cfgChunkOverlap : option Z;
}.

(** [s.endsWith(suffix)] *)
Definition endsWith (s suffix : jsstring) : bool := startsWith (rev s) (rev suffix).

Definition taskOptions (config : Config) (task : IndexTask) (md : option Metadata)
  : ChunkOptions :=
  {| chunkSize := cfgChunkSize config; chunkOverlap := cfgChunkOverlap config;
     optSourcePath := Some (taskSourcePath (request task));
     optSessionKey := taskSessionKey (request task);
     optMetadata := md |}.

(** The [switch (task.type)] of [processTask]; [envs k] is what the
    [k]-th call of [chunkText] reads from its surroundings. *)
Definition taskChunks (config : Config) (envs : nat -> Env) (fuel : nat) (task : IndexTask)
  : option (list TextChunk) :=
  let req := request task in
  match type req with
  | text_task =>
      chunkText (envs 0%nat) (content req) (taskOptions config task (taskMetadata req)) fuel
  | file_task =>
      if endsWith (taskSourcePath req) (u16 ".md") then
        chunkMarkdown envs fuel (content req) (taskOptions config task (taskMetadata req))
      else
        chunkText (envs 0%nat) (content req) (taskOptions config task (taskMetadata req)) fuel
  | conversation_task =>
      chunkText (envs 0%nat) (content req)
        (taskOptions config task
           (Some (setProp (u16 "type") (u16 "conversation")
                    (default [] (taskMetadata req))))) fuel
  end.

Section Process.
Context {I : Type} `{IndexFlatIP I}.

(** [processTask(task)] on a service that has its store: what it leaves
    of the pipeline variable and of the store.  Whatever is thrown on the
    way is caught and logged.  An item is a chunk with the embedding at
    its position; [embedTexts] answers with as many embeddings as there
    are texts. *)
Definition processTask (config : Config) (envs : nat -> Env) (fuel : nat)
    (loadModel : option Pipeline) (embeddingPipeline : option Pipeline)
    (store : FaissVectorStore I) (task : IndexTask)
  : option (option Pipeline * FaissVectorStore I) :=
  match taskChunks config envs fuel task with
  | None => None
  | Some [] => Some (embeddingPipeline, store)
  | Some chunks =>
      let texts := text <$> chunks in
      match embedTexts loadModel embeddingPipeline texts with
      | (Rejected, embeddingPipeline) => Some (embeddingPipeline, store)
      | (Done embeddings, embeddingPipeline) =>
          let items := zip chunks embeddings in
          match addBatch store items with
          | (Ok ids, store) => Some (embeddingPipeline, store)
          | (Throw _, store) => Some (embeddingPipeline, store)
          end
      end
  end.

Context `{!StoreIO.IndexWrite I}.

Variable JSON_stringify : MetaDoc -> jsstring.

End Process.

End Indexer.

Module IndexerSpec.
Import Js Chunk FaissStore StoreSpec Embeddings Vectorizer QueueSpec Indexer.

(** An example pipeline with embeddings of the dimension of the index. *)
Definition onAxis : Pipeline := fun t => Some (axis (length t mod DIMENSION)).

(** The step and the window of the chunker under a configuration. *)
Definition configSize (config : Config) : Z :=
  default DEFAULT_CHUNK_SIZE (cfgChunkSize config).

Definition configStep (config : Config) : Z :=
  configSize config - default DEFAULT_CHUNK_OVERLAP (cfgChunkOverlap config).

Definition config0 : Config := {| cfgChunkSize := Some 12; cfgChunkOverlap := Some 3 |}.

Definition task0 : IndexTask :=
  fullTask (ask_for "One. Two, three; four!  Five? six" 1) (at_time 5).


End IndexerSpec.

(* ===================================================================== *)
(** ** Escaping and queries ([components/rag-injector.js],
       [hooks/rag-inject/handler.js]) *)
(* ===================================================================== *)

Module RagXml.
Import Js.

(** [s.replace(/c/g, rep)] for a pattern of one code unit [c] and a
    replacement without [$]. *)
Definition replaceAll (c : N) (rep : jsstring) (s : jsstring) : jsstring :=
  flat_map (fun x => if (x =? c)%N then rep else [x]) s.

(** [escapeXml(text)] *)
Definition escapeXml (text : jsstring) : jsstring :=
  replaceAll 39 (u16 "&apos;")
    (replaceAll 34 (u16 "&quot;")
       (replaceAll 62 (u16 "&gt;")
          (replaceAll 60 (u16 "&lt;")
             (replaceAll 38 (u16 "&amp;") text)))).

(** [\w] *)
Definition isWordChar (c : N) : bool :=
  ((0x30 <=? c) && (c <=? 0x39) || (0x41 <=? c) && (c <=? 0x5A) || (c =? 0x5F)
   || (0x61 <=? c) && (c <=? 0x7A))%N.

(** [[一-龥]] *)
Definition isIdeograph (c : N) : bool := ((0x4E00 <=? c) && (c <=? 0x9FA5))%N.

(** What [replace(/[^\w\s一-龥]/g, ' ')] puts for a code unit. *)
Definition cleanUnit (c : N) : N :=
  if isWordChar c || isWhiteSpace c || isIdeograph c then c else 32%N.

(** [s.split(/\s+/)]: a run of white space is one separator, and a
    separator at either end leaves an empty piece there. *)
Fixpoint splitSpaces (s : jsstring) : list jsstring :=
  match s with
  | [] => [[]]
  | c :: s' =>
      if isWhiteSpace c then
        match s' with
        | c' :: _ => if isWhiteSpace c' then splitSpaces s' else [] :: splitSpaces s'
        | [] => [] :: splitSpaces s'
        end
      else
        match splitSpaces s' with
        | w :: ws => (c :: w) :: ws
        | [] => [[c]]
        end
  end.

Definition stopWords : list jsstring :=
  [ u16 "the"; u16 "a"; u16 "an"; u16 "is"; u16 "are"; u16 "was"; u16 "were";
    u16 "be"; u16 "been"; u16 "have"; u16 "has"; u16 "had"; u16 "do"; u16 "does";
    u16 "did"; u16 "will"; u16 "would"; u16 "could"; u16 "should"; u16 "may";
    u16 "might"; u16 "can"; u16 "must";
    [0x7684]%N; [0x4E86]%N; [0x662F]%N; [0x5728]%N; [0x6709]%N; [0x548C]%N;
    [0x8207]%N; [0x6216]%N; [0x4F46]%N; [0x9019]%N; [0x90A3]%N; [0x6211]%N;
    [0x4F60]%N; [0x4ED6]%N; [0x5979]%N; [0x5B83]%N; [0x5011]%N ].

Section Keywords.
(** The lower-case mapping beyond ASCII, as for [shouldPerformRag]. *)
Variable lower_table : N -> list N.

(** [extractQueryKeywords(query)], for a set of stop words. *)
Definition keywordsWithout (stops : list jsstring) (query : jsstring) : list jsstring :=
  let cleaned := map cleanUnit query in
  let words := filter (fun w => (1 < length w)%nat) (splitSpaces cleaned) in
  filter (fun w => RagInjector.toLowerCase lower_table w ∉ stops) words.

Definition extractQueryKeywords (query : jsstring) : list jsstring :=
  keywordsWithout stopWords query.
End Keywords.

End RagXml.

Module RagXmlSpec.
Import Js Chunk FaissStore RagHandler.

(** What stands for a code unit in escaped text. *)
Definition entity (c : N) : jsstring :=
  if (c =? 38)%N then u16 "&amp;"
  else if (c =? 60)%N then u16 "&lt;"
  else if (c =? 62)%N then u16 "&gt;"
  else if (c =? 34)%N then u16 "&quot;"
  else if (c =? 39)%N then u16 "&apos;"
  else [c].

(** The key [formatRagResultsXml] tells results apart by. *)
Definition textKey (r : SearchResult) : jsstring :=
  substring0 (trim (text (chunk r))) 200.

(** What a message answers the search for the user's query with. *)
Definition answer (msg : Message) : option jsstring :=
  if bool_decide (role msg = u16 "user") then
    match content msg with
    | StringContent [] => None
    | StringContent s => Some s
    | OtherContent true json => Some json
    | OtherContent false _ => None
    | NoContent => None
    end
  else None.

(** The stop words that are longer than one code unit. *)
Definition longStopWords : list jsstring :=
  filter (fun w => (1 < length w)%nat) RagXml.stopWords.

(** A code unit that stays in a keyword. *)
Definition keywordUnit (c : N) : bool := RagXml.isWordChar c || RagXml.isIdeograph c.

(** A lower-case table that has no entry: every code point is its own
    lower case. *)
Definition caseless (c : N) : list N := [c].

(** The greetings of five code units or more. *)
Definition longGreetings : list jsstring :=
  [ u16 "hello"; u16 "good morning"; u16 "good evening"; u16 "good night" ].

End RagXmlSpec.

(* ===================================================================== *)
(** ** The critical context and the bootstrap hook
       ([components/anti-amnesia-injector.js], [hooks/bootstrap-inject/handler.ts]) *)
(* ===================================================================== *)

Module AntiAmnesia.
Import Js FaissStore RagHandler RagXml.

Record DailyReport := {
  generatedAt : jsstring;
  reportSessionKey : jsstring;
  summary : jsstring;
  decisions : list jsstring;
  actionItems : list jsstring;
  messageCount : Z;
}.

Record CriticalContext := {
  dailyReport : option DailyReport;
  recentMessages : list jsstring;
  thinkingChains : list jsstring;
  timestamp : Z;
}.

(** [arr.slice(-n)] *)
Definition lastN {A} (n : nat) (l : list A) : list A := drop (length l - n) l.

(** [<tag>escaped text</tag>] behind an indent. *)
Definition element (indent tag text : jsstring) : jsstring :=
  indent ++ u16 "<" ++ tag ++ u16 ">" ++ escapeXml text ++ u16 "</" ++ tag ++ u16 ">".

(** A block of elements between an opening and a closing line, left out
    when there is no element. *)
Definition block (indent tag item : jsstring) (texts : list jsstring) : list jsstring :=
  match texts with
  | [] => []
  | _ =>
      [indent ++ u16 "<" ++ tag ++ u16 ">"]
        ++ map (element (indent ++ u16 "  ") item) texts
        ++ [indent ++ u16 "</" ++ tag ++ u16 ">"]
  end.

Section CriticalFile.
(** [new Date(t).toISOString()], [None] when it throws. *)
Variable toISOString : Z -> option jsstring.

(** [getCriticalContextPath(workspaceDir)] *)
Variable getCriticalContextPath : jsstring -> jsstring.

(** [JSON.parse] of the cache file: a context, or [None] when it throws
    or gives [null]. *)
Variable JSON_parse : jsstring -> option CriticalContext.

(** [require('fs').unlinkSync(path)]; [None] when that throws. *)
Variable unlinkSync : FileSystem -> jsstring -> option FileSystem.

(** [formatCriticalContextXml(context)]; [None] when it throws. *)
Definition formatCriticalContextXml (context : CriticalContext) : option jsstring :=
  match toISOString (timestamp context) with
  | None => None
  | Some iso =>
      let parts :=
        [ u16 "<critical_context>";
          u16 "  <generated_at>" ++ iso ++ u16 "</generated_at>" ] in
      let parts :=
        match dailyReport context with
        | Some report =>
            parts ++ [ u16 "  <daily_summary>";
                       element (u16 "    ") (u16 "summary") (summary report) ]
              ++ block (u16 "    ") (u16 "decisions") (u16 "decision") (decisions report)
              ++ block (u16 "    ") (u16 "action_items") (u16 "item") (actionItems report)
              ++ [ u16 "  </daily_summary>" ]
        | None => parts
        end in
      let parts :=
        parts ++ block (u16 "  ") (u16 "recent_conversation") (u16 "message")
                   (map (fun msg => slice msg 0 300) (lastN 10 (recentMessages context))) in
      let parts :=
        parts ++ block (u16 "  ") (u16 "reasoning_context") (u16 "thought")
                   (thinkingChains context) in
      Some (join [10%N] (parts ++ [ u16 "</critical_context>" ]))
  end.

(** [loadCriticalContext(workspaceDir)] *)
Definition loadCriticalContext (fs : FileSystem) (workspaceDir : jsstring)
  : option CriticalContext :=
  match fs !! getCriticalContextPath workspaceDir with
  | None => None
  | Some content => JSON_parse content
  end.

(** [clearCriticalContext(workspaceDir)]; [None] when it throws. *)
Definition clearCriticalContext (fs : FileSystem) (workspaceDir : jsstring)
  : option FileSystem :=
  let cachePath := getCriticalContextPath workspaceDir in
  if existsSync fs cachePath then unlinkSync fs cachePath else Some fs.
End CriticalFile.

End AntiAmnesia.

Module Bootstrap.
Import Js FaissStore AntiAmnesia.

Record BootstrapFile := {
  path : jsstring;
  fileContent : jsstring;
  filePriority : Z;
}.

Record HookEvent := {
  evType : jsstring;
  evAction : jsstring;
  evWorkspaceDir : option jsstring;
  evBootstrapFiles : option (list BootstrapFile);
  evSessionKey : option jsstring;
}.

(** A string that counts as true: one that is there and not empty. *)
Definition truthy (s : option jsstring) : option jsstring :=
  match s with
  | Some ((_ :: _) as t) => Some t
  | _ => None
  end.

(** The [for] loop over the recent messages, last first. *)
Fixpoint lastUserMessage (reversed : list jsstring) : option jsstring :=
  match reversed with
  | [] => None
  | msg :: rest =>
      if startsWith msg (u16 "[User]:")
      then Some (trim (drop (length (u16 "[User]:")) msg))
      else lastUserMessage rest
  end.

Definition contextFile (xml : jsstring) : BootstrapFile :=
  {| path := u16 "MEMORY_GUARDIAN_CONTEXT.md";
     fileContent :=
       u16 "<!-- Memory Guardian: Critical Context Injection -->" ++ [10%N]
         ++ u16 "<!-- This context was preserved during the last session reset -->"
         ++ [10; 10]%N ++ xml ++ [10%N];
     filePriority := -50 |}.

(** What a run of the hook leaves: the bootstrap files of the event,
    the files on disk, and the queries it handed to
    [createRagBootstrapFile]. *)
Record Outcome := {
  filesAfter : option (list BootstrapFile);
  fsAfter : FileSystem;
  ragQueries : list jsstring;
}.

Section Hook.
Variable lower_table : N -> list N.
Variable emoji_table : N -> bool.
Variable toISOString : Z -> option jsstring.
Variable getCriticalContextPath : jsstring -> jsstring.
Variable JSON_parse : jsstring -> option CriticalContext.
Variable unlinkSync : FileSystem -> jsstring -> option FileSystem.

(** How [await createRagBootstrapFile(query, DEFAULT_CONFIG)] ends: with a
    file, with [null], or by throwing ([None]). *)
Variable createRagBootstrapFile : jsstring -> option (option BootstrapFile).

Local Abbreviation load := (loadCriticalContext getCriticalContextPath JSON_parse).

(** The first [try] block: the critical context. *)
Definition injectContext (files : list BootstrapFile) (fs : FileSystem)
    (workspaceDir : jsstring) : list BootstrapFile * FileSystem :=
  match load fs workspaceDir with
  | Some criticalContext =>
      match formatCriticalContextXml toISOString criticalContext with
      | Some xml =>
          let files := files ++ [contextFile xml] in
          match clearCriticalContext getCriticalContextPath unlinkSync fs workspaceDir with
          | Some fs => (files, fs)
          | None => (files, fs)
          end
      | None => (files, fs)
      end
  | None => (files, fs)
  end.

(** The query of the second [try] block. *)
Definition ragQuery (fs : FileSystem) (workspaceDir : jsstring)
    (sessionKey : option jsstring) : option jsstring :=
  let userQuery :=
    match load fs workspaceDir with
    | Some criticalContext => lastUserMessage (rev (recentMessages criticalContext))
    | None => None
    end in
  match truthy userQuery, truthy sessionKey with
  | None, Some key => Some key
  | _, _ => userQuery
  end.

(** [handler(event)] of the bootstrap hook. *)
Definition handler (event : HookEvent) (fs : FileSystem) : Outcome :=
  if negb (bool_decide (evType event = u16 "agent"))
     || negb (bool_decide (evAction event = u16 "bootstrap"))
  then {| filesAfter := evBootstrapFiles event; fsAfter := fs; ragQueries := [] |}
  else
    match truthy (evWorkspaceDir event) with
    | None => {| filesAfter := evBootstrapFiles event; fsAfter := fs; ragQueries := [] |}
    | Some workspaceDir =>
        let bootstrapFiles := default [] (evBootstrapFiles event) in
        let '(bootstrapFiles, fs) := injectContext bootstrapFiles fs workspaceDir in
        match truthy (ragQuery fs workspaceDir (evSessionKey event)) with
        | Some userQuery =>
            if RagInjector.shouldPerformRag lower_table emoji_table userQuery then
              match createRagBootstrapFile userQuery with
              | Some (Some ragFile) =>
                  {| filesAfter := Some (bootstrapFiles ++ [ragFile]); fsAfter := fs;
                     ragQueries := [userQuery] |}
              | _ => {| filesAfter := Some bootstrapFiles; fsAfter := fs;
                        ragQueries := [userQuery] |}
              end
            else {| filesAfter := Some bootstrapFiles; fsAfter := fs; ragQueries := [] |}
        | None => {| filesAfter := Some bootstrapFiles; fsAfter := fs; ragQueries := [] |}
        end
    end.
End Hook.

End Bootstrap.

Module BootstrapSpec.
Import Js FaissStore AntiAmnesia Bootstrap.

(** An example: a cache file that holds one context, a clock that can
    print every date, and an [unlinkSync] that removes the file. *)
Definition context0 : CriticalContext :=
  {| dailyReport := None;
     recentMessages := [u16 "[User]: what did we decide about the index?";
                        u16 "[Assistant]: a flat one"];
     thinkingChains := []; timestamp := 0 |}.

Definition cacheOf (workspaceDir : jsstring) : jsstring :=
  workspaceDir ++ u16 "/.memory-guardian/critical_context.json".

Definition parse0 (content : jsstring) : option CriticalContext :=
  if bool_decide (content = [0x7B; 0x7D]%N) then Some context0 else None.

Definition iso0 (t : Z) : option jsstring := Some (u16 "1970-01-01T00:00:00.000Z").

Definition unlink0 (fs : FileSystem) (p : jsstring) : option FileSystem := Some (delete p fs).

Definition noRequire (fs : FileSystem) (p : jsstring) : option FileSystem := None.

Definition event0 : HookEvent :=
  {| evType := u16 "agent"; evAction := u16 "bootstrap";
     evWorkspaceDir := Some (u16 "/home/u/ws"); evBootstrapFiles := None;
     evSessionKey := Some (u16 "agent:main:1234") |}.

Definition disk0 : FileSystem := <[cacheOf (u16 "/home/u/ws") := [0x7B; 0x7D]%N]> ∅.

Definition noRag (q : jsstring) : option (option BootstrapFile) := Some None.

End BootstrapSpec.

(* ===================================================================== *)
(** ** Properties of the array sort *)
(* ===================================================================== *)

Module JsFacts.
Import Js.

Section SortFacts.
Context {A : Type} (cmp : A -> A -> Z).

(** The comparator never asks for both orders at once. *)
Hypothesis cmp_total : forall a b, 0 < cmp a b -> cmp b a <= 0.

Lemma sort_insert_perm (x : A) (l : list A) : sort_insert cmp x l ≡ₚ x :: l.
Proof.
  induction l as [| y l IH]; simpl; [done |].
  destruct (cmp x y <=? 0); [done |].
  rewrite IH. apply perm_swap.
Qed.

Lemma sort_perm (l : list A) : sort cmp l ≡ₚ l.
Proof.
  induction l as [| x l IH]; simpl; [done |].
  by rewrite sort_insert_perm, IH.
Qed.

Lemma sort_insert_sorted (x : A) (l : list A) :
  Sorted (before cmp) l -> Sorted (before cmp) (sort_insert cmp x l).
Proof.
  induction 1 as [| y l Hl IH Hy]; simpl.
  - by repeat constructor.
  - destruct (cmp x y <=? 0) eqn:E.
    + apply Z.leb_le in E. by repeat constructor.
    + apply Z.leb_gt in E. constructor; [done |].
      destruct l as [| z l]; simpl in *.
      * constructor. by apply cmp_total.
      * destruct (cmp x z <=? 0).
        -- constructor. by apply cmp_total.
        -- constructor. by inversion Hy.
Qed.

Lemma sort_sorted (l : list A) : Sorted (before cmp) (sort cmp l).
Proof.
  induction l as [| x l IH]; simpl; [constructor |].
  by apply sort_insert_sorted.
Qed.

(** Stability: a class of elements none of which asks to move in front
    of another keeps its order. *)
Lemma sort_insert_filter (P : A -> Prop) `{!forall a, Decision (P a)}
    (x : A) (l : list A) :
  (forall a b, P a -> P b -> cmp a b <= 0) ->
  filter P (sort_insert cmp x l) = filter P (x :: l).
Proof.
  intros Hclass. induction l as [| y l IH]; simpl; [done |].
  destruct (cmp x y <=? 0) eqn:E; [done |]. apply Z.leb_gt in E.
  rewrite (filter_cons _ y), IH, !(filter_cons _ x), (filter_cons _ y).
  destruct (decide (P x)) as [Hx |], (decide (P y)) as [Hy |]; try done.
  specialize (Hclass x y Hx Hy). lia.
Qed.

Lemma sort_filter (P : A -> Prop) `{!forall a, Decision (P a)} (l : list A) :
  (forall a b, P a -> P b -> cmp a b <= 0) ->
  filter P (sort cmp l) = filter P l.
Proof.
  intros Hclass. induction l as [| x l IH]; simpl; [done |].
  rewrite sort_insert_filter by done.
  by rewrite !(filter_cons _ x), IH.
Qed.
End SortFacts.

(** Two lists in descending key order whose elements of each key are the
    same, in the same order, are equal: the result of a stable sort by a
    key does not depend on the algorithm. *)
Lemma stable_sort_unique {A} (key : A -> Z) (l1 : list A) :
  forall l2 : list A,
  StronglySorted (fun a b => key b <= key a) l1 ->
  StronglySorted (fun a b => key b <= key a) l2 ->
  (forall k, filter (fun a => key a = k) l1 = filter (fun a => key a = k) l2) ->
  l1 = l2.
Proof.
  induction l1 as [| a l1 IH]; intros l2 Hs1 Hs2 Hsame.
  - destruct l2 as [| b l2]; [done |].
    specialize (Hsame (key b)). rewrite filter_nil, filter_cons_True in Hsame; done.
  - destruct l2 as [| b l2].
    { specialize (Hsame (key a)). rewrite filter_nil, filter_cons_True in Hsame; done. }
    apply StronglySorted_inv in Hs1 as [Hs1 Ha], Hs2 as [Hs2 Hb].
    assert (key a = key b) as Hkey.
    { assert (a ∈ b :: l2) as Hin2.
      { eapply (list_elem_of_filter (fun x => key x = key a)).
        rewrite <- Hsame, filter_cons_True by done. by apply list_elem_of_here. }
      assert (b ∈ a :: l1) as Hin1.
      { eapply (list_elem_of_filter (fun x => key x = key b)).
        rewrite Hsame, filter_cons_True by done. by apply list_elem_of_here. }
      rewrite Forall_forall in Ha, Hb.
      apply elem_of_cons in Hin2 as [-> | Hin2]; [done |].
      apply elem_of_cons in Hin1 as [-> | Hin1]; [done |].
      specialize (Ha b Hin1). specialize (Hb a Hin2). lia. }
    pose proof (Hsame (key a)) as Hhead.
    rewrite filter_cons_True, (filter_cons_True _ b) in Hhead by done.
    injection Hhead as <- Htail. f_equal. apply IH; [done | done |].
    intros k. destruct (decide (key a = k)) as [<- | Hne]; [done |].
    specialize (Hsame k). by rewrite !filter_cons_False in Hsame by done.
Qed.

Lemma Sorted_weaken {A} (R1 R2 : relation A) (l : list A) :
  (forall a b, R1 a b -> R2 a b) -> Sorted R1 l -> Sorted R2 l.
Proof.
  intros Himp. induction 1 as [| a l Hl IH Ha]; constructor; [done |].
  destruct Ha; constructor. by apply Himp.
Qed.

End JsFacts.

(* ===================================================================== *)
(** ** Properties of the chunker *)
(* ===================================================================== *)

Module ChunkFacts.
Import Js Chunk ChunkSpec.

Lemma len_nonneg (s : jsstring) : 0 <= len s.
Proof. unfold len. lia. Qed.

Lemma len_zero_nil (s : jsstring) : len s = 0 <-> s = [].
Proof.
  unfold len. destruct s; simpl; split; intros H; try done; lia.
Qed.

(** C9: an input no longer than the target size gives exactly one chunk,
    the trimmed input at offset 0, and an empty or whitespace-only input
    gives no chunk at all; the loop bound plays no part. *)
Theorem chunkText_short_input (env : Env) (t : jsstring) (options : ChunkOptions) (fuel : nat) :
  (t <> [] -> trim t <> [] -> len t <= windowSize options ->
   exists c, chunkText env t options fuel = Some [c]
             /\ text c = trim t /\ offset c = 0)
  /\ (t = [] \/ trim t = [] -> chunkText env t options fuel = Some []).
Proof.
  split.
  - intros Hne Htrim Hlen. exists (mkChunk env options 0 (trim t) 0).
    split; [| done]. unfold chunkText.
    rewrite bool_decide_eq_false_2 by done. simpl.
    destruct (len (trim t) =? 0) eqn:E.
    + apply Z.eqb_eq, len_zero_nil in E. done.
    + apply Z.leb_le in Hlen. by rewrite Hlen.
  - intros [-> | Htrim]; unfold chunkText.
    + done.
    + rewrite Htrim. simpl. by rewrite orb_true_r.
Qed.

Lemma chunkText_short_input_witness :
  (exists c, chunkText env0 (u16 "  hello ") (sized 16 2) 0 = Some [c]
             /\ text c = u16 "hello" /\ offset c = 0)
  /\ chunkText env0 (u16 "   ") (sized 16 2) 0 = Some [].
Proof.
  destruct (chunkText_short_input env0 (u16 "  hello ") (sized 16 2) 0) as [H1 _].
  destruct (chunkText_short_input env0 (u16 "   ") (sized 16 2) 0) as [_ H2].
  split.
  - apply H1; [done | done | vm_compute; discriminate].
  - apply H2. right. reflexivity.
Defined.

Section Loop.
Variable env : Env.
Variable t : jsstring.
Variable options : ChunkOptions.

Local Abbreviation body := (loop_body env t options).
Local Abbreviation loop := (while_loop env t options).
Local Abbreviation stp := (step options).

Lemma loop_body_cursor (st : loop_state) : (body st).1 = st.1 + stp.
Proof. by destruct st. Qed.

Lemma iter_cursor (k : nat) (st : loop_state) :
  (Nat.iter k body st).1 = st.1 + Z.of_nat k * stp.
Proof.
  induction k as [| k IH].
  - simpl. lia.
  - rewrite Nat.iter_succ, loop_body_cursor, IH. lia.
Qed.

(** The loop leaves after [n] passes when [n] is the first pass count
    whose cursor is at or past the end, whatever bound at least [n]. *)
Lemma while_loop_exact (n : nat) :
  forall st fuel, (n <= fuel)%nat ->
  (forall k, (k < n)%nat -> (Nat.iter k body st).1 < len t) ->
  len t <= (Nat.iter n body st).1 ->
  loop fuel st = Some (Nat.iter n body st).2.
Proof.
  induction n as [| n IH]; intros st fuel Hfuel Hbefore Hend.
  - simpl in Hend. apply Z.ltb_ge in Hend.
    destruct fuel; simpl; by rewrite Hend.
  - destruct fuel as [| fuel]; [lia |].
    pose proof (Hbefore 0%nat ltac:(lia)) as H0. simpl in H0.
    apply Z.ltb_lt in H0. simpl. rewrite H0.
    rewrite <- Nat.iter_succ, Nat.iter_succ_r.
    destruct (len t <=? (body st).1) eqn:E.
    + apply Z.leb_le in E. destruct n as [| n]; [done |].
      specialize (Hbefore 1%nat ltac:(lia)). simpl in Hbefore. lia.
    + apply IH; [lia | | by rewrite <- Nat.iter_succ_r].
      intros k Hk. rewrite <- Nat.iter_succ_r. apply Hbefore. lia.
Qed.

(** With a positive step the loop leaves after [n] passes, where [n] is
    the first pass count whose cursor is at or past the end. *)
Lemma while_loop_passes (Hstep : 0 < stp) (fuel : nat) :
  forall st, len t - st.1 <= Z.of_nat fuel ->
  exists n, (n <= fuel)%nat
    /\ loop fuel st = Some (Nat.iter n body st).2
    /\ len t <= (Nat.iter n body st).1
    /\ forall k, (k < n)%nat -> (Nat.iter k body st).1 < len t.
Proof.
  induction fuel as [| fuel IH]; intros st Hfuel.
  - exists 0%nat. simpl. rewrite (proj2 (Z.ltb_ge _ _)) by lia.
    repeat split; [lia | lia |]. intros k Hk. lia.
  - simpl. destruct (st.1 <? len t) eqn:E.
    + apply Z.ltb_lt in E.
      destruct (len t <=? (body st).1) eqn:E2.
      * apply Z.leb_le in E2. exists 1%nat. simpl.
        repeat split; [lia | done |]. intros k Hk.
        assert (k = 0%nat) as -> by lia. done.
      * apply Z.leb_gt in E2.
        destruct (IH (body st)) as (n & Hn & Hrun & Hend & Hbefore).
        { rewrite loop_body_cursor. lia. }
        exists (S n). rewrite !Nat.iter_succ_r.
        repeat split; [lia | done | done |].
        intros [| k] Hk; [done |].
        rewrite Nat.iter_succ_r. apply Hbefore. lia.
    + apply Z.ltb_ge in E. exists 0%nat. simpl.
      repeat split; [lia | lia |]. intros k Hk. lia.
Qed.
End Loop.

(** With a positive step [chunkText] returns, and returns the same chunks
    for every bound from the text length on. *)
Lemma chunkText_returns (env : Env) (t : jsstring) (options : ChunkOptions) :
  0 < step options ->
  exists chunks, forall fuel, (length t <= fuel)%nat ->
    chunkText env t options fuel = Some chunks.
Proof.
  intros Hstep.
  destruct (while_loop_passes env t options Hstep (length t) (0, []))
    as (n & Hn & _ & Hend & Hbefore).
  { simpl. unfold len. lia. }
  unfold chunkText.
  destruct (bool_decide (t = []) || (len (trim t) =? 0)); [by eexists |].
  destruct (len t <=? windowSize options); [by eexists |].
  eexists. intros fuel Hfuel.
  apply (while_loop_exact env t options n); [lia | done | done].
Qed.

(** C6: with a positive step every pass moves the cursor forward by
    exactly [step], the loop leaves after the first pass count [n] whose
    cursor [n * step] is at or past the end of the text, and [chunkText]
    returns the same chunks for every bound from the text length on. *)
Theorem chunkText_terminates (env : Env) (t : jsstring) (options : ChunkOptions) :
  0 < step options ->
  (forall st, (loop_body env t options st).1 = st.1 + step options)
  /\ (exists n, (n <= length t)%nat
        /\ (forall k, (k < n)%nat -> Z.of_nat k * step options < len t)
        /\ len t <= Z.of_nat n * step options
        /\ forall fuel, (n <= fuel)%nat ->
             while_loop env t options fuel (0, []) =
             Some (Nat.iter n (loop_body env t options) (0, [])).2)
  /\ (exists chunks, forall fuel, (length t <= fuel)%nat ->
        chunkText env t options fuel = Some chunks).
Proof.
  intros Hstep.
  destruct (while_loop_passes env t options Hstep (length t) (0, []))
    as (n & Hn & Hrun & Hend & Hbefore).
  { simpl. unfold len. lia. }
  split; [apply loop_body_cursor |]. split.
  - exists n. pose proof Hend as Hend'.
    rewrite iter_cursor in Hend'. simpl in Hend'.
    repeat split; [done | | lia |].
    + intros k Hk. pose proof (Hbefore k Hk) as Hk'.
      rewrite iter_cursor in Hk'. simpl in Hk'. lia.
    + intros fuel Hfuel. by apply while_loop_exact.
  - by apply chunkText_returns.
Qed.

Lemma chunkText_terminates_witness :
  exists chunks, forall fuel, (21 <= fuel)%nat ->
    chunkText env0 (u16 "abcdefghijkl.nopqrstu") (sized 16 2) fuel = Some chunks.
Proof.
  destruct (chunkText_terminates env0 (u16 "abcdefghijkl.nopqrstu") (sized 16 2))
    as (_ & _ & H); [reflexivity | exact H].
Defined.

(** Without a positive step there is no end: on a text longer than the
    window the cursor never gets past 0, whatever the bound. *)
Lemma chunkText_needs_positive_step (env : Env) (t : jsstring) (options : ChunkOptions)
    (fuel : nat) :
  step options <= 0 -> windowSize options < len t -> trim t <> [] ->
  chunkText env t options fuel = None.
Proof.
  intros Hstep Hlong Hblank. unfold chunkText.
  assert (0 < len t) as Hpos.
  { pose proof (len_nonneg t). destruct (decide (len t = 0)) as [E |]; [| lia].
    apply len_zero_nil in E. by subst t. }
  rewrite bool_decide_eq_false_2 by (intros ->; unfold len in Hpos; simpl in Hpos; lia).
  rewrite (proj2 (Z.eqb_neq _ _)) by (by rewrite len_zero_nil).
  rewrite (proj2 (Z.leb_gt _ _)) by lia. simpl.
  assert (forall n st, st.1 <= 0 -> while_loop env t options n st = None) as Hloop.
  { induction n as [| n IH]; intros st Hst; simpl;
      rewrite (proj2 (Z.ltb_lt _ _)) by lia; [done |].
    rewrite loop_body_cursor. rewrite (proj2 (Z.leb_gt _ _)) by lia.
    apply IH. rewrite loop_body_cursor. lia. }
  by apply Hloop.
Qed.

Lemma matchAll_aux_nil (r : regex) (s : jsstring) :
  Forall (fun c => forall s', match_at r (c :: s') = None) s ->
  forall i, matchAll_aux r s i 0 = [].
Proof.
  induction 1 as [| c s Hc _ IH]; intros i; simpl matchAll_aux; [done |].
  rewrite Hc. apply IH.
Qed.

(** Membership between literal lists of code units. *)
Ltac units_incl H :=
  apply list_elem_of_In; apply list_elem_of_In in H; simpl in *; tauto.

Lemma match_at_plain (r : regex) (c : N) (s' : jsstring) :
  r ∈ boundaryPatterns -> plain c -> match_at r (c :: s') = None.
Proof.
  intros Hr [_ Hc]. unfold boundaryPatterns in Hr.
  assert ((10 =? c)%N = false) as Hnl.
  { apply N.eqb_neq. intros <-. apply Hc. by apply list_elem_of_here. }
  apply list_elem_of_In in Hr. simpl in Hr.
  destruct Hr as [<- | [<- | [<- | [<- | [<- | []]]]]].
  - cbn [match_at startsWith]. by rewrite Hnl.
  - cbn [match_at startsWith]. by rewrite Hnl.
  - cbn [match_at]. rewrite bool_decide_eq_false_2; [done |].
    intros Hin. apply Hc. units_incl Hin.
  - cbn [match_at]. rewrite bool_decide_eq_false_2; [done |].
    intros Hin. apply Hc. units_incl Hin.
  - cbn [match_at]. rewrite bool_decide_eq_false_2; [done |].
    intros Hin. apply Hc. units_incl Hin.
Qed.

Lemma findBoundary_plain (ps : list regex) (region : jsstring) :
  ps ⊆ boundaryPatterns -> Forall plain region -> findBoundary ps region = None.
Proof.
  intros Hps Hplain. induction ps as [| p ps IH]; [done |].
  simpl. unfold matchAll. rewrite matchAll_aux_nil.
  - simpl. apply IH. intros q Hq. apply Hps. by apply list_elem_of_further.
  - eapply Forall_impl; [exact Hplain |]. intros c Hc s'.
    apply match_at_plain; [| done]. apply Hps. by apply list_elem_of_here.
Qed.

Lemma slice_plain (s : jsstring) (a b : Z) : Forall plain s -> Forall plain (slice s a b).
Proof. intros H. unfold slice. by apply Forall_take, Forall_drop. Qed.

Lemma adjust_plain (chunk full : jsstring) (a b : Z) :
  Forall plain chunk -> adjText (adjustChunkBoundary chunk full a b) = chunk.
Proof.
  intros H. unfold adjustChunkBoundary.
  destruct (len full <=? b); [done |].
  rewrite findBoundary_plain; [done | done |]. by apply slice_plain.
Qed.

Lemma trimStart_head (s : jsstring) :
  match s with [] => True | c :: _ => isWhiteSpace c = false end -> trimStart s = s.
Proof. destruct s as [| c s]; [done |]. simpl. by intros ->. Qed.

Lemma trim_plain (s : jsstring) : Forall plain s -> trim s = s.
Proof.
  intros H. unfold trim, trimEnd.
  rewrite (trimStart_head s).
  - rewrite trimStart_head; [apply rev_involutive |].
    apply List.Forall_rev in H. destruct (rev s); [done |].
    by apply Forall_cons in H as [[? _] _].
  - destruct s; [done |]. by apply Forall_cons in H as [[? _] _].
Qed.

(** *** Trimming *)

Lemma trimStart_split (s : jsstring) :
  exists k, s = k ++ trimStart s /\ Forall (fun c => isWhiteSpace c = true) k.
Proof.
  induction s as [| c s (k & Hk & Hws)]; [by exists [] |]. simpl.
  destruct (isWhiteSpace c) eqn:E.
  - exists (c :: k). split; [by rewrite <- app_comm_cons, <- Hk | by constructor].
  - by exists [].
Qed.

Lemma trimStart_head_clean (s : jsstring) :
  match trimStart s with [] => True | c :: _ => isWhiteSpace c = false end.
Proof.
  induction s as [| c s IH]; [done |]. simpl.
  destruct (isWhiteSpace c) eqn:E; [done |]. by rewrite E.
Qed.

Lemma trimStart_idem (s : jsstring) : trimStart (trimStart s) = trimStart s.
Proof. apply trimStart_head, trimStart_head_clean. Qed.

Lemma length_trimStart (s : jsstring) : (length (trimStart s) <= length s)%nat.
Proof.
  destruct (trimStart_split s) as (k & Hk & _).
  rewrite Hk at 2. rewrite length_app. lia.
Qed.

Lemma length_trim (s : jsstring) : (length (trim s) <= length s)%nat.
Proof.
  unfold trim, trimEnd. rewrite length_rev.
  etrans; [apply length_trimStart |]. rewrite length_rev. apply length_trimStart.
Qed.

(** A trimmed string is a stretch of the string it came from. *)
Lemma trim_split (s : jsstring) :
  exists k1 k2, s = k1 ++ trim s ++ k2
    /\ Forall (fun c => isWhiteSpace c = true) k1
    /\ Forall (fun c => isWhiteSpace c = true) k2.
Proof.
  destruct (trimStart_split s) as (k1 & Hk1 & Hws1).
  destruct (trimStart_split (rev (trimStart s))) as (k2 & Hk2 & Hws2).
  exists k1, (rev k2). split_and!; [| done | by apply List.Forall_rev].
  unfold trim, trimEnd. rewrite <- rev_app_distr, <- Hk2, rev_involutive. done.
Qed.

(** [trim] strips all there is to strip. *)
Lemma trim_idem (s : jsstring) : trim (trim s) = trim s.
Proof.
  unfold trim at 1. unfold trimEnd.
  assert (trimStart (trim s) = trim s) as ->.
  { apply trimStart_head. unfold trim, trimEnd.
    destruct (trimStart_split (rev (trimStart s))) as (k & Hk & _).
    pose proof (trimStart_head_clean s) as Hhead.
    apply (f_equal (@rev N)) in Hk. rewrite rev_involutive, rev_app_distr in Hk.
    destruct (rev (trimStart (rev (trimStart s)))) as [| c r]; [done |].
    rewrite Hk in Hhead. done. }
  unfold trim, trimEnd. by rewrite rev_involutive, trimStart_idem.
Qed.

Lemma slice_window (s : jsstring) (a b : Z) :
  0 <= a <= len s ->
  slice s a b = take (Z.to_nat (rel_index (len s) b - a)) (drop (Z.to_nat a) s).
Proof.
  intros Ha. unfold slice.
  replace (rel_index (len s) a) with a; [done |].
  unfold rel_index. destruct (a <? 0) eqn:E; [apply Z.ltb_lt in E |]; lia.
Qed.

Lemma StronglySorted_snoc (l : list Z) (x : Z) :
  StronglySorted Z.lt l -> Forall (fun y => y < x) l -> StronglySorted Z.lt (l ++ [x]).
Proof.
  induction 1 as [| y l Hl IH Hy]; intros Hx; simpl.
  - constructor; constructor.
  - apply Forall_cons in Hx as [Hyx Hx]. constructor; [by apply IH |].
    apply Forall_app. split; [done |]. by constructor.
Qed.

Lemma trim_whiteSpace (s : jsstring) : whiteSpace s <-> trim s = [].
Proof.
  split.
  - intros Hws. unfold trim, trimEnd.
    assert (forall l, whiteSpace l -> trimStart l = []) as Hall.
    { induction 1 as [| c l Hc _ IH]; [done |]. simpl. by rewrite Hc. }
    rewrite (Hall s Hws). done.
  - intros Hnil. destruct (trim_split s) as (k1 & k2 & Hs & H1 & H2).
    rewrite Hnil in Hs. rewrite Hs. by apply Forall_app.
Qed.

Section Regions.
Variable env : Env.
Variable t : jsstring.
Variable options : ChunkOptions.

Local Abbreviation body := (loop_body env t options).
Local Abbreviation loop := (while_loop env t options).
Local Abbreviation stp := (step options).
Local Abbreviation sz := (windowSize options).

(** A pass pushes the trimmed window at the cursor unless it is empty. *)
Lemma loop_body_window (off : Z) (acc : list TextChunk) :
  body (off, acc) =
  (off + stp,
   if 0 <? len (trim (window t options off))
   then acc ++ [mkChunk env options (length acc) (trim (window t options off)) off]
   else acc).
Proof. reflexivity. Qed.

(** The window is a stretch of the input that starts at the cursor; it
    does not reach past the end of the text, nor past a window size that
    is not negative. *)
Lemma window_prefix (off : Z) :
  0 <= off <= len t ->
  window t options off = take (length (window t options off)) (drop (Z.to_nat off) t)
  /\ len (window t options off) <= len t - off
  /\ (0 <= sz -> len (window t options off) <= sz).
Proof.
  intros Hoff. unfold window.
  set (endPos := if len t <? off + sz then len t else off + sz).
  assert (exists m : nat,
            slice t off endPos = take m (drop (Z.to_nat off) t)
            /\ (0 <= sz -> Z.of_nat m <= sz)) as (m & Hm & Hbound).
  { rewrite slice_window by done. eexists. split; [done |]. intros Hsz.
    subst endPos. unfold rel_index.
    destruct (len t <? off + sz) eqn:E; [apply Z.ltb_lt in E | apply Z.ltb_ge in E].
    - rewrite (proj2 (Z.ltb_ge (len t) 0)) by lia. lia.
    - rewrite (proj2 (Z.ltb_ge (off + sz) 0)) by lia. lia. }
  assert (exists m' : nat,
            adjText (adjustChunkBoundary (slice t off endPos) t off endPos)
            = take m' (drop (Z.to_nat off) t)
            /\ (0 <= sz -> Z.of_nat m' <= sz)) as (m' & -> & Hbound').
  { unfold adjustChunkBoundary. destruct (len t <=? endPos); [by exists m |].
    destruct (findBoundary _ _) as [[index mlen] |]; [| by exists m].
    cbn [adjText]. rewrite Hm.
    rewrite slice_window by (pose proof (len_nonneg (take m (drop (Z.to_nat off) t))); lia).
    rewrite drop_0, take_take.
    eexists. split; [done |]. intros Hsz. specialize (Hbound Hsz). lia. }
  split.
  - rewrite length_take. destruct (decide (m' <= length (drop (Z.to_nat off) t))%nat).
    + by rewrite Nat.min_l.
    + rewrite Nat.min_r by lia. by rewrite !take_ge by lia.
  - unfold len in *. rewrite length_take, length_drop. split; [lia |].
    intros Hsz. specialize (Hbound' Hsz). lia.
Qed.

(** A text that fits into the window is its own window. *)
Lemma window_short : len t <= sz -> window t options 0 = t.
Proof.
  intros Hshort. unfold window. cbv zeta. rewrite Z.add_0_l.
  assert ((if len t <? sz then len t else sz) = len t) as ->.
  { destruct (len t <? sz) eqn:E; [done |]. apply Z.ltb_ge in E. lia. }
  unfold adjustChunkBoundary. rewrite Z.leb_refl. cbn [adjText].
  rewrite slice_window by (pose proof (len_nonneg t); lia).
  unfold rel_index. pose proof (len_nonneg t).
  rewrite (proj2 (Z.ltb_ge (len t) 0)) by lia.
  rewrite drop_0. apply take_ge. unfold len. lia.
Qed.

(** What is not white space in a window is in its trimmed text. *)
Lemma window_holds (c : TextChunk) (p : nat) (u : N) :
  0 <= offset c <= len t ->
  text c = trim (window t options (offset c)) ->
  offset c <= Z.of_nat p < offset c + len (window t options (offset c)) ->
  t !! p = Some u -> isWhiteSpace u = false ->
  holds t options c p.
Proof.
  intros Hoff Htext Hp Hu Hws.
  destruct (window_prefix (offset c) Hoff) as (Hpre & _).
  destruct (trim_split (window t options (offset c))) as (k1 & k2 & Hsplit & H1 & H2).
  exists k1, k2. rewrite Htext. split_and!; [done | done | done | |].
  - destruct (decide (offset c + Z.of_nat (length k1) <= Z.of_nat p)); [done |].
    assert (k1 !! (p - Z.to_nat (offset c))%nat = Some u) as Hin.
    { rewrite <- (lookup_app_l k1 (trim (window t options (offset c)) ++ k2)) by lia.
      rewrite <- Hsplit, Hpre, lookup_take_lt, lookup_drop by (unfold len in Hp; lia).
      rewrite <- Hu. f_equal. lia. }
    apply list_elem_of_lookup_2 in Hin. unfold whiteSpace in H1.
    rewrite Forall_forall in H1. specialize (H1 u Hin). congruence.
  - destruct (decide (Z.of_nat p < offset c + Z.of_nat (length k1)
                      + len (trim (window t options (offset c))))); [done |].
    unfold len in *.
    assert (k2 !! (p - Z.to_nat (offset c) - length k1
                   - length (trim (window t options (offset c))))%nat = Some u) as Hin.
    { rewrite <- (lookup_app_r (trim (window t options (offset c))) k2) by lia.
      rewrite <- (lookup_app_r k1) by lia.
      rewrite <- Hsplit, Hpre, lookup_take_lt, lookup_drop by lia.
      rewrite <- Hu. f_equal. lia. }
    apply list_elem_of_lookup_2 in Hin. unfold whiteSpace in H2.
    rewrite Forall_forall in H2. specialize (H2 u Hin). congruence.
Qed.

Lemma trim_nonempty (s : jsstring) : (0 <? len (trim s)) = true <-> trim s <> [].
Proof.
  rewrite Z.ltb_lt. unfold len. destruct (trim s); simpl; split; (done || lia).
Qed.

Lemma while_loop_runs (Hstep : 0 < stp) (Hlong : sz < len t) (fuel : nat) :
  forall off acc cs, 0 <= off -> (stp | off) -> inv t options off acc ->
  loop fuel (off, acc) = Some cs ->
  StronglySorted Z.lt (map offset cs)
  /\ Forall (run_of t options) cs
  /\ (forall off', pass t options off' -> trim (window t options off') <> [] ->
        exists c, c ∈ cs /\ offset c = off').
Proof.
  assert (forall off acc, len t <= off -> inv t options off acc ->
            StronglySorted Z.lt (map offset acc)
            /\ Forall (run_of t options) acc
            /\ (forall off', pass t options off' -> trim (window t options off') <> [] ->
                  exists c, c ∈ acc /\ offset c = off')) as Hdone.
  { intros off acc Hend (Hs & Hf & Hc). split_and!; [done | |].
    - eapply Forall_impl; [exact Hf |]. by intros c [_ ?].
    - intros off' Hpass. apply Hc; [done |]. destruct Hpass as [? _]. lia. }
  assert (forall off acc, 0 <= off < len t -> (stp | off) -> inv t options off acc ->
            inv t options (off + stp) (body (off, acc)).2) as Hstepinv.
  { intros off acc Hoff Hdiv (Hs & Hf & Hc). rewrite loop_body_window. cbn [snd].
    assert (forall off', pass t options off' -> off' < off + stp -> off' < off \/ off' = off)
      as Hcursor.
    { intros off' (Hr & [k' ->] & _) Hlt. destruct Hdiv as [k ->].
      destruct (decide (k' * stp < k * stp)); [by left | right].
      assert (k <= k') by nia. assert (k' < k + 1) by nia.
      replace k' with k by lia. done. }
    destruct (0 <? len (trim (window t options off))) eqn:E.
    - apply trim_nonempty in E. split_and!.
      + rewrite map_app. simpl. apply StronglySorted_snoc; [done |].
        rewrite Forall_map. eapply Forall_impl; [exact Hf |].
        intros c' [? _]. simpl. lia.
      + apply Forall_app. split.
        * eapply Forall_impl; [exact Hf |]. intros c' [? ?]. split; [lia | done].
        * constructor; [| constructor]. split; [simpl; lia |].
          unfold run_of, pass. cbn [mkChunk offset text].
          split_and!; [lia | lia | done | lia | done | done].
      + intros off' Hpass Hlt Hne.
        destruct (Hcursor off' Hpass Hlt) as [Hbefore | ->].
        * destruct (Hc off' Hpass Hbefore Hne) as (c & Hin & Hc').
          exists c. split; [apply elem_of_app; by left | done].
        * eexists. split; [apply elem_of_app; right; apply list_elem_of_here | done].
    - split_and!; [done | |].
      + eapply Forall_impl; [exact Hf |]. intros c [? ?]. split; [lia | done].
      + intros off' Hpass Hlt Hne.
        destruct (Hcursor off' Hpass Hlt) as [Hbefore | ->]; [by apply Hc |].
        apply trim_nonempty in Hne. congruence. }
  induction fuel as [| fuel IH]; intros off acc cs Hoff Hdiv Hinv Hrun; simpl in Hrun.
  - destruct (off <? len t) eqn:E; [done |]. apply Z.ltb_ge in E.
    injection Hrun as <-. by eapply Hdone.
  - destruct (off <? len t) eqn:E.
    + apply Z.ltb_lt in E. specialize (Hstepinv off acc ltac:(lia) Hdiv Hinv).
      change ((body (off, acc)).1) with (off + stp) in Hrun.
      destruct (len t <=? off + stp) eqn:E2.
      * apply Z.leb_le in E2. injection Hrun as <-. by eapply Hdone.
      * eapply (IH (off + stp) (body (off, acc)).2); [lia | | done |].
        -- by apply Z.divide_add_r; [| apply Z.divide_refl].
        -- by destruct (body (off, acc)) eqn:Hb; inversion Hb.
    + apply Z.ltb_ge in E. injection Hrun as <-. by eapply Hdone.
Qed.

(** On plain text the window of a pass is the raw window, and trimming
    takes nothing off it. *)
Lemma window_plain (off : Z) :
  Forall plain t -> 0 < sz -> 0 <= off < len t ->
  trim (window t options off) = rawWindow t options off.
Proof.
  intros Hplain Hsz Hoff. unfold window, rawWindow.
  set (endPos := if len t <? off + sz then len t else off + sz).
  rewrite adjust_plain by (by apply slice_plain).
  rewrite trim_plain by (by apply slice_plain).
  rewrite slice_window by lia. f_equal. subst endPos. unfold rel_index.
  destruct (len t <? off + sz) eqn:E;
    [apply Z.ltb_lt in E | apply Z.ltb_ge in E].
  - rewrite (proj2 (Z.ltb_ge _ _)) by lia. lia.
  - destruct (off + sz <? 0) eqn:E2; [apply Z.ltb_lt in E2 | apply Z.ltb_ge in E2]; lia.
Qed.

(** From a cursor inside a text whose passes all push their raw window
    the loop appends chunks whose regions rebuild the rest of the
    text. *)
Lemma while_loop_whole (Hstep : 0 < stp <= sz) (Hlong : sz < len t)
    (Hwhole : forall off, pass t options off ->
                trim (window t options off) = rawWindow t options off) (fuel : nat) :
  forall off acc cs, 0 <= off < len t -> (stp | off) ->
  loop fuel (off, acc) = Some cs ->
  exists c rest, cs = acc ++ c :: rest /\ offset c = off
                 /\ reconstruct (c :: rest) = drop (Z.to_nat off) t.
Proof.
  induction fuel as [| fuel IH]; intros off acc cs Hoff Hdiv Hrun;
    cbn [while_loop fst snd] in Hrun;
    rewrite (proj2 (Z.ltb_lt off (len t))) in Hrun by lia; [done |].
  rewrite loop_body_window in Hrun.
  rewrite Hwhole in Hrun by (unfold pass; split_and!; [lia | lia | done | lia]).
  rewrite (proj2 (Z.ltb_lt 0 _)) in Hrun.
  2: { unfold rawWindow, len in *. rewrite length_take, length_drop. lia. }
  cbn [fst snd] in Hrun.
  set (c0 := mkChunk env options _ _ off) in Hrun.
  destruct (len t <=? off + stp) eqn:E;
    [apply Z.leb_le in E | apply Z.leb_gt in E].
  - injection Hrun as <-. exists c0, []. split; [done |]. split; [done |].
    unfold reconstruct. simpl. rewrite app_nil_r.
    apply take_ge. rewrite length_drop. unfold len in *. lia.
  - apply IH in Hrun as (c' & rest & -> & Hc' & Hrec);
      [| lia | by apply Z.divide_add_r; [| apply Z.divide_refl]].
    exists c0, (c' :: rest). split; [by rewrite <- app_assoc |]. split; [done |].
    unfold reconstruct in *.
    change (nonOverlapRegions (c0 :: c' :: rest))
      with (take (Z.to_nat (offset c' - offset c0)) (text c0)
            :: nonOverlapRegions (c' :: rest)).
    cbn [concat]. rewrite Hrec, Hc'. simpl offset. simpl text.
    transitivity (take (Z.to_nat stp) (drop (Z.to_nat off) t)
                  ++ drop (Z.to_nat stp) (drop (Z.to_nat off) t));
      [| apply take_drop].
    f_equal.
    + unfold rawWindow. rewrite take_take. f_equal. lia.
    + rewrite drop_drop. f_equal. lia.
Qed.
End Regions.

(** What holds of the chunks of any run that returns. *)
Lemma chunkText_run_regions (env : Env) (t : jsstring) (options : ChunkOptions)
    (fuel : nat) (cs : list TextChunk) :
  0 < step options ->
  chunkText env t options fuel = Some cs ->
  StronglySorted Z.lt (map offset cs)
  /\ Forall (run_of t options) cs
  /\ (forall off, pass t options off -> trim (window t options off) <> [] ->
        exists c, c ∈ cs /\ offset c = off)
  /\ (0 <= windowOverlap options ->
      (forall off, pass t options off ->
         trim (window t options off) = rawWindow t options off) ->
      reconstruct cs = t).
Proof.
  intros Hstep Hrun. unfold chunkText in Hrun.
  destruct (bool_decide (t = []) || (len (trim t) =? 0)) eqn:Eblank.
  { injection Hrun as <-.
    assert (whiteSpace t) as Hws.
    { apply orb_true_iff in Eblank as [E | E].
      - apply bool_decide_eq_true_1 in E. subst t. constructor.
      - apply Z.eqb_eq, len_zero_nil in E. by apply trim_whiteSpace. }
    split_and!; [constructor | constructor | |].
    - intros off (Hoff & _) Hne. destruct Hne. apply trim_whiteSpace.
      destruct (window_prefix t options off ltac:(lia)) as (-> & _).
      by apply Forall_take, Forall_drop.
    - intros Hov Hwhole. destruct t as [| u t']; [done |].
      assert (pass (u :: t') options 0) as Hpass.
      { split; [unfold len; simpl; lia |]. split; [apply Z.divide_0_r | done]. }
      specialize (Hwhole 0 Hpass).
      assert (trim (window (u :: t') options 0) = []) as Hnil.
      { apply trim_whiteSpace.
        destruct (window_prefix (u :: t') options 0 ltac:(unfold len; simpl; lia)) as (-> & _).
        by apply Forall_take, Forall_drop. }
      rewrite Hnil in Hwhole. unfold rawWindow, step in *.
      apply (f_equal (@length N)) in Hwhole.
      rewrite length_take, length_drop in Hwhole. unfold len in Hwhole.
      simpl in Hwhole. lia. }
  apply orb_false_iff in Eblank as [Hne Htrim]. apply bool_decide_eq_false_1 in Hne.
  assert (0 < len t) as Hpos.
  { pose proof (len_nonneg t). destruct (decide (len t = 0)) as [E |]; [| lia].
    by apply len_zero_nil in E. }
  destruct (len t <=? windowSize options) eqn:Eshort.
  { apply Z.leb_le in Eshort. injection Hrun as <-.
    pose proof (window_short t options Eshort) as Hwin.
    assert (pass t options 0) as Hpass.
    { split; [lia |]. split; [apply Z.divide_0_r | done]. }
    split_and!; [repeat constructor | | |].
    - constructor; [| constructor]. split_and!; [done | simpl; by rewrite Hwin |].
      simpl. apply Z.eqb_neq in Htrim. by rewrite len_zero_nil in Htrim.
    - intros off (_ & _ & Hzero) _. rewrite (Hzero Eshort).
      eexists. split; [apply list_elem_of_here | done].
    - intros _ Hwhole. unfold reconstruct. simpl. rewrite app_nil_r.
      rewrite <- Hwin at 1. rewrite (Hwhole 0 Hpass). unfold rawWindow.
      rewrite drop_0. apply take_ge. unfold len in *. lia. }
  apply Z.leb_gt in Eshort.
  destruct (while_loop_runs env t options Hstep Eshort fuel 0 [] cs) as (Hs & Hf & Hc);
    [lia | apply Z.divide_0_r | | done |].
  { split_and!; [constructor | constructor |]. intros off' (? & _) ?. lia. }
  split_and!; [done | done | done |]. intros Hov Hwhole.
  destruct (while_loop_whole env t options ltac:(unfold step in *; lia) Eshort Hwhole
              fuel 0 [] cs ltac:(lia) (Z.divide_0_r _) Hrun) as (c & rest & -> & _ & Hrec).
  exact Hrec.
Qed.

(** C2, as the code has it: with a positive step [chunkText] returns, the
    chunks come out in strictly increasing offset order, one for every
    pass whose window is not blank, and each is the trimmed window of its
    pass, a stretch of the input that starts at the offset of the chunk
    and is no longer than the window size, so nothing is reordered.
    Whatever is not white space in the window of a pass is in the chunk
    of that pass, at its place; hence, when no pass ends its window in
    front of the cursor of the next one, nothing but white space is lost.
    When the overlap is not negative and every pass pushes its window
    whole (none is shrunk, none starts or ends in white space), as on an
    input without white space and boundary punctuation, the non-overlap
    regions concatenate to the input. *)
Theorem chunkText_regions (env : Env) (t : jsstring) (options : ChunkOptions) :
  0 < step options ->
  exists cs,
    (forall fuel, (length t <= fuel)%nat -> chunkText env t options fuel = Some cs)
    /\ StronglySorted Z.lt (map offset cs)
    /\ Forall (run_of t options) cs
    /\ (forall off, 0 <= off <= len t ->
          window t options off
          = take (length (window t options off)) (drop (Z.to_nat off) t)
          /\ len (window t options off) <= len t - off
          /\ (0 <= windowSize options -> len (window t options off) <= windowSize options))
    /\ (forall off, pass t options off -> trim (window t options off) <> [] ->
          exists c, c ∈ cs /\ offset c = off)
    /\ (forall off (p : nat) u,
          pass t options off ->
          off <= Z.of_nat p < off + len (window t options off) ->
          t !! p = Some u -> isWhiteSpace u = false ->
          exists c, c ∈ cs /\ offset c = off /\ holds t options c p)
    /\ ((forall off, pass t options off ->
           Z.min (off + step options) (len t) <= off + len (window t options off)) ->
        forall (p : nat) u, t !! p = Some u -> isWhiteSpace u = false ->
          exists c, c ∈ cs /\ holds t options c p)
    /\ (0 <= windowOverlap options ->
        (forall off, pass t options off ->
           trim (window t options off) = rawWindow t options off) ->
        reconstruct cs = t)
    /\ (0 <= windowOverlap options -> Forall plain t -> reconstruct cs = t).
Proof.
  intros Hstep. destruct (chunkText_returns env t options Hstep) as [cs Hrun].
  exists cs. split; [done |].
  destruct (chunkText_run_regions env t options (length t) cs Hstep (Hrun _ (le_n _)))
    as (Hs & Hf & Hc & Hrec).
  assert (forall off (p : nat) u,
            pass t options off ->
            off <= Z.of_nat p < off + len (window t options off) ->
            t !! p = Some u -> isWhiteSpace u = false ->
            exists c, c ∈ cs /\ offset c = off /\ holds t options c p) as Hholds.
  { intros off p u Hpass Hp Hu Hws.
    assert (trim (window t options off) <> []) as Hne.
    { intros Hnil. apply trim_whiteSpace in Hnil.
      destruct (window_prefix t options off ltac:(destruct Hpass; lia)) as (Hpre & _).
      assert ((window t options off : list N) !! (p - Z.to_nat off)%nat = Some u) as Hin.
      { rewrite Hpre, lookup_take_lt, lookup_drop by (unfold len in Hp; lia).
        rewrite <- Hu. f_equal. destruct Hpass. lia. }
      apply list_elem_of_lookup_2 in Hin. unfold whiteSpace in Hnil.
      rewrite Forall_forall in Hnil. specialize (Hnil u Hin). congruence. }
    destruct (Hc off Hpass Hne) as (c & Hin & Hoff). exists c.
    split; [done |]. split; [done |].
    rewrite Forall_forall in Hf. destruct (Hf c Hin) as (_ & Htext & _).
    apply (window_holds t options c p u); rewrite ?Hoff; try done.
    - destruct Hpass. lia.
    - by rewrite <- Hoff. }
  split_and!; [done | done | by apply window_prefix | done | done | | done |].
  - intros Hreach p u Hu Hws.
    pose proof (lookup_lt_Some _ _ _ Hu) as Hp.
    set (off := if len t <=? windowSize options then 0
                else step options * (Z.of_nat p / step options)).
    assert (pass t options off /\ off <= Z.of_nat p
            /\ (windowSize options < len t -> Z.of_nat p < off + step options))
      as (Hpass & Hlow & Hup).
    { subst off. unfold len in *. destruct (Z.of_nat (length t) <=? windowSize options) eqn:E.
      - apply Z.leb_le in E. split_and!; [| lia | lia].
        split; [unfold len; lia |]. split; [apply Z.divide_0_r | done].
      - apply Z.leb_gt in E.
        pose proof (Z.mul_div_le (Z.of_nat p) (step options) Hstep).
        pose proof (Z.mul_succ_div_gt (Z.of_nat p) (step options) Hstep).
        pose proof (Z.div_pos (Z.of_nat p) (step options) ltac:(lia) Hstep).
        split_and!; [| lia | lia].
        split; [unfold len; nia |]. split; [by apply Z.divide_factor_l | unfold len; lia]. }
    destruct (Hholds off p u Hpass) as (c & Hin & _ & Hc'); [| done | done | by exists c].
    split; [done |].
    destruct (decide (len t <= windowSize options)) as [Hshort | Hlong].
    + assert (off = 0) as -> by (by destruct Hpass as (_ & _ & ->)).
      rewrite window_short by done. unfold len in *. lia.
    + specialize (Hreach off Hpass). unfold len in *. lia.
  - intros Hov Hplain. apply Hrec; [done |].
    intros off (Hoff & _). apply window_plain; [done | unfold step in Hstep; lia | done].
Qed.

Lemma chunkText_regions_witness :
  exists cs, chunkText env0 sentence (sized 16 2) 53 = Some cs
             /\ StronglySorted Z.lt (map offset cs)
             /\ map offset cs = [0; 14; 28; 42]
             /\ reconstruct cs = sentence.
Proof.
  destruct (chunkText_regions env0 sentence (sized 16 2) ltac:(reflexivity))
    as (cs & Hrun & Hs & _ & _ & _ & _ & _ & Hrec & _).
  exists cs. split; [apply Hrun; reflexivity |]. split; [exact Hs |].
  split.
  - assert (Some cs = chunkText env0 sentence (sized 16 2) 53) as Hcs.
    { symmetry. apply Hrun. reflexivity. }
    vm_compute in Hcs. injection Hcs as ->. reflexivity.
  - apply Hrec; [vm_compute; discriminate |].
    intros off ([Hlow Hup] & [k ->] & _).
    change (step (sized 16 2)) with 14 in *. change (len sentence) with 53 in *.
    assert (k = 0 \/ k = 1 \/ k = 2 \/ k = 3) as [-> | [-> | [-> | ->]]] by lia;
      vm_compute; reflexivity.
Defined.

(** C2, as the specification words it, fails: a window that is shrunk to a
    sentence end drops the text between that end and the next cursor
    position.  With windows of 16 and overlap 2 the first window of this
    input ends after the full stop at index 12 while the cursor moves on
    to 14, so the letter n at index 13 is in no chunk.  And trimming alone
    already loses the white space at the edge of a window: the two blanks
    of the second input are in no chunk either. *)
Lemma chunkText_loses_text :
  (exists cs, chunkText env0 (u16 "abcdefghijkl.nopqrstu") (sized 16 2) 21 = Some cs
     /\ map (fun c => (offset c, text c)) cs =
          [(0, u16 "abcdefghijkl."); (14, u16 "opqrstu")]
     /\ reconstruct cs <> u16 "abcdefghijkl.nopqrstu"
     /\ 110%N ∈ u16 "abcdefghijkl.nopqrstu"
     /\ Forall (fun c => 110%N ∉ text c) cs)
  /\ (exists cs, chunkText env0 (u16 "abcdefgh  ijklmnopqrstuv") (sized 8 0) 24 = Some cs
        /\ map (fun c => (offset c, text c)) cs =
             [(0, u16 "abcdefgh"); (8, u16 "ijklmn"); (16, u16 "opqrstuv")]
        /\ reconstruct cs = u16 "abcdefghijklmnopqrstuv").
Proof.
  split.
  - eexists. split; [reflexivity |]. split; [reflexivity |].
    split; [vm_compute; discriminate |].
    split; apply (bool_decide_unpack _); vm_compute; reflexivity.
  - eexists. split; [reflexivity |]. split; reflexivity.
Qed.

End ChunkFacts.

(* ===================================================================== *)
(** ** Properties of the reference index *)
(* ===================================================================== *)

Module FlatIndexFacts.
Import Js JsFacts FaissStore FlatIndex.

Lemma by_score_total (a b : Z * Q) : 0 < by_score a b -> by_score b a <= 0.
Proof.
  unfold by_score. rewrite <- (Qcompare_antisym a.2 b.2).
  destruct (a.2 ?= b.2)%Q; simpl; lia.
Qed.

Lemma by_score_before (a b : Z * Q) : before by_score a b <-> (b.2 <= a.2)%Q.
Proof.
  unfold before, by_score. rewrite Qle_alt, <- (Qcompare_antisym a.2 b.2).
  destruct (a.2 ?= b.2)%Q; simpl; split; (done || lia).
Qed.

#[local] Instance score_order_trans : Transitive (fun a b : Z * Q => (b.2 <= a.2)%Q).
Proof. intros a b c Hab Hbc. by eapply Qle_trans. Qed.

Lemma strongly_sorted_last (l : list (Z * Q)) (e : Z * Q) :
  StronglySorted (fun a b => (b.2 <= a.2)%Q) l -> last l = Some e ->
  Forall (fun a => (e.2 <= a.2)%Q) l.
Proof.
  induction 1 as [| a l Hl IH Ha]; intros Hlast; [done |].
  destruct l as [| b l].
  - injection Hlast as <-. repeat constructor. apply Qle_refl.
  - change (last (a :: b :: l)) with (last (b :: l)) in Hlast.
    specialize (IH Hlast). constructor; [| done].
    apply Forall_cons in Ha as [Hab _]. apply Forall_cons in IH as [Heb _].
    by eapply Qle_trans.
Qed.

Lemma pad_sorted (k : nat) (l : list (Z * Q)) :
  StronglySorted (fun a b => (b.2 <= a.2)%Q) l ->
  StronglySorted (fun a b => (b.2 <= a.2)%Q) (pad k l).
Proof.
  intros Hl. unfold pad. apply StronglySorted_app_2; [| done |].
  - intros a b Ha Hb. apply elem_of_replicate in Hb as [-> _]. simpl.
    destruct (last l) as [e |] eqn:E.
    + pose proof (strongly_sorted_last l e Hl E) as Hall.
      rewrite Forall_forall in Hall. by apply Hall.
    + apply last_None in E. subst l. by apply elem_of_nil in Ha.
  - generalize (k - length l)%nat. intros n. induction n as [| n IH]; simpl.
    + constructor.
    + constructor; [done |]. apply Forall_replicate. simpl. apply Qle_refl.
Qed.

Lemma take_strongly_sorted {A} (R : relation A) (n : nat) (l : list A) :
  StronglySorted R l -> StronglySorted R (take n l).
Proof.
  intros H. rewrite <- (take_drop n l) in H.
  by eapply StronglySorted_app_1_l.
Qed.

#[export] Instance flat_index_laws : IndexLaws flat.
Proof.
  split.
  - intros i q k. simpl. unfold flat_search, pad.
    rewrite length_app, length_replicate, length_take. lia.
  - intros i q k. simpl. unfold flat_search.
    apply StronglySorted_Sorted, pad_sorted, take_strongly_sorted.
    apply Sorted_StronglySorted; [apply _ |].
    eapply Sorted_weaken; [| apply (sort_sorted by_score by_score_total)].
    intros a b. apply by_score_before.
Qed.

End FlatIndexFacts.

(* ===================================================================== *)
(** ** Properties of JavaScript numbers *)
(* ===================================================================== *)

Module NumberFacts.
Import JsNumber.

Lemma one_pos : 0 < one.
Proof. unfold one. by apply Z.pow_pos_nonneg. Qed.

Lemma bits_pos (k : Z) : 1 <= bits k.
Proof. unfold bits. pose proof (Z.log2_nonneg (Z.abs k)). lia. Qed.

(** [2^(bits k - 1) <= |k| < 2^(bits k)] for a [k] other than zero. *)
Lemma bits_spec (k : Z) : k <> 0 -> 2 ^ (bits k - 1) <= Z.abs k < 2 ^ bits k.
Proof.
  intros Hk. unfold bits.
  replace (Z.log2 (Z.abs k) + 1 - 1) with (Z.log2 (Z.abs k)) by lia.
  replace (Z.log2 (Z.abs k) + 1) with (Z.succ (Z.log2 (Z.abs k))) by lia.
  apply Z.log2_spec. lia.
Qed.

Lemma bits_mono (a b : Z) : Z.abs a <= Z.abs b -> bits a <= bits b.
Proof. intros H. unfold bits. pose proof (Z.log2_le_mono _ _ H). lia. Qed.

Lemma pow2_divide (a b : Z) : 0 <= a <= b -> (2 ^ a | 2 ^ b).
Proof.
  intros H. exists (2 ^ (b - a)). rewrite <- Z.pow_add_r by lia. f_equal. lia.
Qed.

Lemma mod_pow2_zero (k a b : Z) : 0 <= a <= b -> k mod 2 ^ b = 0 -> k mod 2 ^ a = 0.
Proof.
  intros H Hb. apply Z.mod_divide in Hb; [| by apply Z.pow_nonzero; lia].
  apply Z.mod_divide; [by apply Z.pow_nonzero; lia |].
  etrans; [by apply pow2_divide | done].
Qed.

(** A double is its own rounding. *)
Lemma round_double (k : Z) : isDouble k = true -> round k = Finite k.
Proof.
  unfold isDouble, round. intros [Hsmall Hbits]%andb_true_iff.
  apply Z.ltb_lt in Hsmall.
  assert ((if bits k - 53 <=? 0 then k else nearest k (bits k - 53)) = k) as ->.
  { destruct (bits k - 53 <=? 0) eqn:E; [done |]. apply Z.leb_gt in E.
    apply orb_true_iff in Hbits as [Hb | Hm]; [apply Z.leb_le in Hb; lia |].
    apply Z.eqb_eq in Hm. unfold nearest. rewrite Hm.
    assert (0 < 2 ^ (bits k - 53)) as Hp by (apply Z.pow_pos_nonneg; lia).
    rewrite (proj2 (Z.ltb_lt _ _)) by lia.
    pose proof (Z.div_mod k (2 ^ (bits k - 53)) ltac:(lia)). lia. }
  by rewrite (proj2 (Z.leb_gt _ _)).
Qed.

Lemma bits_shift (z : Z) : z <> 0 -> bits (z * one) = bits z + 1074.
Proof.
  intros Hz. unfold bits, one. rewrite Z.abs_mul, (Z.abs_eq (2 ^ 1074)) by lia.
  rewrite Z.log2_mul_pow2 by lia. lia.
Qed.

(** The integers up to [2^53] are doubles. *)
Lemma integer_double (z : Z) : Z.abs z <= MAX_EXACT -> isDouble (z * one) = true.
Proof.
  intros Hz. unfold isDouble. apply andb_true_iff. split.
  - apply Z.ltb_lt. unfold huge. rewrite Z.abs_mul, (Z.abs_eq one) by (pose proof one_pos; lia).
    apply Z.mul_lt_mono_pos_r; [apply one_pos |]. unfold MAX_EXACT in Hz. lia.
  - destruct (decide (z = 0)) as [-> | Hne]; [done |].
    apply orb_true_iff. right. apply Z.eqb_eq.
    rewrite bits_shift by done.
    destruct (decide (Z.abs z = MAX_EXACT)) as [Hmax | Hlt].
    + assert (z = 2 ^ 53 \/ z = - 2 ^ 53) as [-> | ->] by (unfold MAX_EXACT in Hmax; lia);
        by vm_compute.
    + assert (bits z <= 53) as Hb.
      { unfold bits. assert (Z.log2 (Z.abs z) < 53); [| lia].
        apply Z.log2_lt_pow2; [lia |]. unfold MAX_EXACT in *. lia. }
      pose proof (bits_pos z).
      apply (mod_pow2_zero _ _ 1074); [lia |]. unfold one. apply Z_mod_mult.
Qed.

Lemma ofZ_exact (z : Z) : Z.abs z <= MAX_EXACT -> ofZ z = Finite (z * one).
Proof. intros Hz. by apply round_double, integer_double. Qed.

(** Adding 1 to an integer is exact as long as the sum does not pass
    [2^53]. *)
Lemma plusOne_ofZ (z : Z) : - MAX_EXACT <= z < MAX_EXACT -> plusOne (ofZ z) = ofZ (z + 1).
Proof.
  intros Hz. rewrite (ofZ_exact z) by lia. unfold plusOne.
  rewrite integer_double by lia. unfold ofZ. f_equal. lia.
Qed.

Lemma ofZ_inj (a b : Z) :
  Z.abs a <= MAX_EXACT -> Z.abs b <= MAX_EXACT -> ofZ a = ofZ b -> a = b.
Proof.
  intros Ha Hb. rewrite !ofZ_exact by done. intros [= E].
  pose proof one_pos. nia.
Qed.

Lemma lt_ofZ (a b : Z) :
  Z.abs a <= MAX_EXACT -> Z.abs b <= MAX_EXACT -> lt (ofZ a) (ofZ b) = (a <? b).
Proof.
  intros Ha Hb. rewrite !ofZ_exact by done. simpl.
  pose proof one_pos. destruct (a <? b) eqn:E.
  - apply Z.ltb_lt in E. apply Z.ltb_lt. nia.
  - apply Z.ltb_ge in E. apply Z.ltb_ge. nia.
Qed.

(** *** Rounding never passes a double *)

Lemma nearest_floor (k s : Z) : 0 <= s -> k / 2 ^ s * 2 ^ s <= nearest k s.
Proof.
  intros Hs. unfold nearest.
  assert (0 < 2 ^ s) by (apply Z.pow_pos_nonneg; lia).
  repeat case_match; lia.
Qed.

Lemma nearest_ceil (k s : Z) : 0 <= s -> nearest k s <= (k / 2 ^ s + 1) * 2 ^ s.
Proof.
  intros Hs. unfold nearest.
  assert (0 < 2 ^ s) by (apply Z.pow_pos_nonneg; lia).
  repeat case_match; lia.
Qed.

Lemma floor_multiple (k K p : Z) : 0 < p -> k mod p = 0 -> k <= K -> k <= K / p * p.
Proof.
  intros Hp Hm Hle. pose proof (Z.div_mod k p ltac:(lia)).
  pose proof (Z.div_le_mono k K p Hp Hle). nia.
Qed.

(** The rounding of a number that is not below a double is not below
    that double. *)
Lemma rounded_not_below (k K : Z) :
  isDouble k = true -> k <= K ->
  k <= (if bits K - 53 <=? 0 then K else nearest K (bits K - 53)).
Proof.
  intros [_ Hbits]%andb_true_iff Hle.
  destruct (bits K - 53 <=? 0) eqn:E; [done |]. apply Z.leb_gt in E.
  set (s := bits K - 53) in *.
  assert (0 < 2 ^ s) as Hp by (apply Z.pow_pos_nonneg; lia).
  etrans; [| apply nearest_floor; lia].
  assert (K <> 0) as HK.
  { intros ->. vm_compute in E. discriminate. }
  pose proof (bits_spec K HK) as HbK.
  assert (bits k <= 53 \/ k mod 2 ^ (bits k - 53) = 0) as Hk.
  { apply orb_true_iff in Hbits as [Hb | Hm]; [left; by apply Z.leb_le | right; by apply Z.eqb_eq]. }
  destruct (decide (0 <= K)) as [HposK | HnegK].
  - (* K is positive *)
    destruct (decide (bits K <= bits k)) as [Hsame | Hless].
    + apply floor_multiple; [done | | done].
      destruct Hk as [Hk | Hk]; [lia |].
      apply (mod_pow2_zero _ _ (bits k - 53)); [lia | done].
    + (* k has fewer digits: it is below the power of two under K *)
      assert (k < 2 ^ (bits K - 1)) as Hbelow.
      { destruct (decide (k <= 0)) as [Hk0 | Hk0].
        - assert (0 < 2 ^ (bits K - 1)); [apply Z.pow_pos_nonneg; lia | lia].
        - pose proof (bits_spec k ltac:(lia)) as [_ Hup].
          assert (2 ^ bits k <= 2 ^ (bits K - 1)); [apply Z.pow_le_mono_r; lia | lia]. }
      assert (2 ^ (bits K - 1) = 2 ^ 52 * 2 ^ s) as Hsplit.
      { rewrite <- Z.pow_add_r by lia. f_equal. lia. }
      assert (2 ^ 52 <= K / 2 ^ s).
      { apply Z.div_le_lower_bound; [done |]. lia. }
      nia.
  - (* K is negative, and so is k, which is at least as long *)
    apply floor_multiple; [done | | done].
    assert (bits K <= bits k) by (apply bits_mono; lia).
    destruct Hk as [Hk | Hk]; [lia |].
    apply (mod_pow2_zero _ _ (bits k - 53)); [lia | done].
Qed.

(** [x + 1] is never smaller than [x]. *)
Lemma plusOne_not_lt (x : number) : lt (plusOne x) x = false.
Proof.
  destruct x as [| [] | k]; try done. unfold plusOne.
  destruct (isDouble k) eqn:Hd; [| apply Z.ltb_irrefl].
  pose proof (rounded_not_below k (k + one) Hd ltac:(pose proof one_pos; lia)) as Hle.
  unfold round.
  set (r := if bits (k + one) - 53 <=? 0 then k + one else nearest (k + one) (bits (k + one) - 53)) in *.
  apply andb_true_iff in Hd as [Hsmall%Z.ltb_lt _].
  destruct (huge <=? Z.abs r) eqn:Eh; simpl.
  - apply Z.leb_le in Eh. apply Z.ltb_ge. lia.
  - apply Z.ltb_ge. lia.
Qed.

(** [lt] is a strict order on the numbers other than NaN, and [+ 1] keeps
    a number that is not below another one so. *)
Lemma plusOne_keeps_not_lt (x y : number) : lt y x = false -> lt (plusOne y) x = false.
Proof.
  intros Hyx. pose proof (plusOne_not_lt y) as Hy.
  destruct y as [| [] | b]; try done.
  destruct (plusOne (Finite b)) as [| c | b']; [done | |].
  - simpl in Hy. subst c. by destruct x as [| [] |].
  - destruct x as [| [] | a]; try done. simpl in *.
    apply Z.ltb_ge in Hyx, Hy. apply Z.ltb_ge. lia.
Qed.

(** The sign of an integer is the sign of its number. *)
Lemma lt_ofZ_zero (z : Z) : lt (ofZ z) zero = (z <? 0).
Proof.
  pose proof one_pos as Hone.
  unfold ofZ, round. set (K := z * one).
  set (r := if bits K - 53 <=? 0 then K else nearest K (bits K - 53)).
  assert ((r <? 0) = (z <? 0)) as Hsign.
  { subst r. destruct (bits K - 53 <=? 0) eqn:E.
    - subst K. destruct (z <? 0) eqn:Ez.
      + apply Z.ltb_lt in Ez. apply Z.ltb_lt. nia.
      + apply Z.ltb_ge in Ez. apply Z.ltb_ge. nia.
    - apply Z.leb_gt in E. set (s := bits K - 53) in *.
      assert (0 < 2 ^ s) as Hp by (apply Z.pow_pos_nonneg; lia).
      assert (K <> 0) as HK.
      { intros HK0. subst s. rewrite HK0 in E. vm_compute in E. discriminate. }
      pose proof (bits_spec K HK) as [Hlow _].
      assert (2 ^ (bits K - 1) = 2 ^ 52 * 2 ^ s) as Hsplit.
      { rewrite <- Z.pow_add_r by lia. f_equal. lia. }
      destruct (z <? 0) eqn:Ez.
      + apply Z.ltb_lt in Ez. apply Z.ltb_lt.
        assert (K < 0) by (subst K; nia).
        pose proof (nearest_ceil K s ltac:(lia)).
        assert (K / 2 ^ s < - 2 ^ 52 + 1); [| nia].
        apply Z.div_lt_upper_bound; [done |]. nia.
      + apply Z.ltb_ge in Ez. apply Z.ltb_ge.
        assert (0 <= K) by (subst K; nia).
        pose proof (nearest_floor K s ltac:(lia)).
        pose proof (Z.div_pos K (2 ^ s) ltac:(lia) Hp). nia. }
  destruct (huge <=? Z.abs r); simpl; [done |]. exact Hsign.
Qed.

End NumberFacts.

(* ===================================================================== *)
(** ** Properties of the vector store *)
(* ===================================================================== *)

Module StoreFacts.
Import Js JsNumber NumberFacts Chunk FaissStore FlatIndex FlatIndexFacts StoreSpec.

Lemma existsSync_true (fs : FileSystem) (p content : jsstring) :
  fs !! p = Some content -> existsSync fs p = true.
Proof. intros E. unfold existsSync. rewrite E. by apply bool_decide_eq_true_2. Qed.

Lemma existsSync_false (fs : FileSystem) (p : jsstring) :
  fs !! p = None -> existsSync fs p = false.
Proof.
  intros E. unfold existsSync. rewrite E.
  apply bool_decide_eq_false_2. by intros [? ?].
Qed.

(** C1, as the code has it: [initialize] loads when both files are there,
    and then it fails exactly when the load throws: the index blob cannot
    be read, the metadata is not JSON, it is the JSON value [null], or
    [new Map] does not take its field [documents]; a document without
    that field, or with [null] there, loads as a store without documents,
    and the field [nextId] is taken as it is, also when there is none.
    Whenever at least one file is missing, so also when exactly one is
    there, it creates a fresh empty index and does not fail. *)
Theorem initialize_outcome {I} `{IndexFlatIP I} (JSON_parse : jsstring -> option Parsed)
    (fs : FileSystem) (st : FaissVectorStore I) :
  (fs !! indexPath st = None \/ fs !! metaPath st = None ->
   initialize JSON_parse fs st = (Ok (), with_fresh_index st))
  /\ (forall blob content,
        fs !! indexPath st = Some blob -> fs !! metaPath st = Some content ->
        (forall i m docs,
           index_read blob = Some i -> JSON_parse content = Some (JsonValue m) ->
           mapOf (meta_documents m) = Some docs ->
           initialize JSON_parse fs st = (Ok (), loaded st i (meta_nextId m) docs))
        /\ (forall i m,
              index_read blob = Some i -> JSON_parse content = Some (JsonValue m) ->
              meta_documents m = NoDocuments ->
              initialize JSON_parse fs st = (Ok (), loaded st i (meta_nextId m) ∅))
        /\ ((exists e, (initialize JSON_parse fs st).1 = Throw e)
            <-> ~ well_formed JSON_parse blob content)
        /\ (~ well_formed JSON_parse blob content <->
            index_read blob = None \/ JSON_parse content = None
            \/ JSON_parse content = Some JsonNull
            \/ exists m, JSON_parse content = Some (JsonValue m)
                         /\ meta_documents m = NotEntries)
        /\ (forall e, (initialize JSON_parse fs st).1 = Throw e ->
              e ∈ [IndexReadFailure; MetaParseFailure; MetaShapeFailure])).
Proof.
  split.
  - intros Hmiss. unfold initialize.
    destruct Hmiss as [E | E]; rewrite (existsSync_false _ _ E);
      [| rewrite andb_false_r]; done.
  - intros blob content Ei Em. unfold initialize.
    rewrite (existsSync_true _ _ _ Ei), (existsSync_true _ _ _ Em). simpl.
    unfold load. rewrite Ei, Em. unfold well_formed.
    destruct (index_read blob) as [i |] eqn:Eread.
    2: { split_and!; try done.
         - split; [by intros _ (? & ? & ? & ? & _) | by exists IndexReadFailure].
         - split; [by left | by intros _ (? & ? & ? & ? & _)].
         - intros e [= <-]. apply list_elem_of_here. }
    destruct (JSON_parse content) as [[| m] |] eqn:Eparse.
    + split_and!; try done.
      * split; [by intros _ (? & ? & ? & _ & ? & _) | by exists MetaShapeFailure].
      * split; [by right; right; left | by intros _ (? & ? & ? & _ & ? & _)].
      * intros e [= <-]. apply list_elem_of_In. simpl. tauto.
    + destruct (mapOf (meta_documents m)) as [docs |] eqn:Emap.
      * split_and!.
        -- intros ? ? ? [= <-] [= <-] Hm. rewrite Emap in Hm. by injection Hm as <-.
        -- intros ? ? [= <-] [= <-] Hno. rewrite Hno in Emap. by injection Emap as <-.
        -- split; [by intros [e He] | intros []; by exists i, m, docs].
        -- split; [intros []; by exists i, m, docs |].
           intros [? | [? | [? | (m' & [= <-] & Hm')]]]; try done.
           by rewrite Hm' in Emap.
        -- by intros e He.
      * split_and!.
        -- intros ? ? ? [= <-] [= <-] Hm. by rewrite Emap in Hm.
        -- intros ? ? [= <-] [= <-] Hno. by rewrite Hno in Emap.
        -- split; [| by exists MetaShapeFailure].
           intros _ (? & ? & ? & _ & [= <-] & Hm'). by rewrite Emap in Hm'.
        -- split; [| intros _ (? & ? & ? & _ & [= <-] & Hm'); by rewrite Emap in Hm'].
           intros _. right; right; right. exists m. split; [done |].
           by destruct (meta_documents m).
        -- intros e [= <-]. apply list_elem_of_In. simpl. tauto.
    + split_and!; try done.
      * split; [by intros _ (? & ? & ? & _ & ? & _) | by exists MetaParseFailure].
      * split; [by right; left | by intros _ (? & ? & ? & _ & ? & _)].
      * intros e [= <-]. apply list_elem_of_In. simpl. tauto.
Qed.

Lemma initialize_outcome_witness :
  initialize meta_read fs_pair store0 =
    (Ok (), loaded store0 {| flat_d := 3; flat_xb := [] |} (Some (ofZ 7)) ∅)
  /\ initialize meta_read fs_bare store0 =
    (Ok (), loaded store0 {| flat_d := 3; flat_xb := [] |} None ∅)
  /\ initialize meta_read ∅ store0 = (Ok (), with_fresh_index store0)
  /\ (exists e, (initialize meta_read fs_torn store0).1 = Throw e).
Proof.
  destruct (initialize_outcome meta_read fs_pair store0) as [_ Hboth].
  destruct (initialize_outcome meta_read fs_bare store0) as [_ Hbare].
  destruct (initialize_outcome meta_read ∅ store0) as [Hnone _].
  destruct (initialize_outcome meta_read fs_torn store0) as [_ Htorn].
  split_and!.
  - destruct (Hboth [0x46; 3]%N [0x4D; 7]%N eq_refl eq_refl) as [Hload _].
    by apply (Hload _ {| meta_nextId := Some (ofZ 7); meta_documents := Entries [] |}).
  - destruct (Hbare [0x46; 3]%N (u16 "{}") eq_refl eq_refl) as (_ & Hload & _).
    by apply (Hload _ {| meta_nextId := None; meta_documents := NoDocuments |}).
  - apply Hnone. left. reflexivity.
  - destruct (Htorn [0x46; 3]%N [0x7B]%N eq_refl eq_refl) as (_ & _ & Hfail & _).
    apply Hfail. intros (i & m & docs & _ & Hparse & _). discriminate Hparse.
Defined.

(** C1, as the specification words it, fails: with exactly one of the two
    files on disk [initialize] does not fail; it answers normally with a
    fresh empty index, whichever file is the one present. *)
Lemma initialize_half_pair_succeeds :
  existsSync fs_index_only ip = true
  /\ existsSync fs_index_only mp = false
  /\ initialize FlatIndex.meta_read fs_index_only store0
     = (Ok (), with_fresh_index store0)
  /\ existsSync fs_meta_only ip = false
  /\ existsSync fs_meta_only mp = true
  /\ initialize FlatIndex.meta_read fs_meta_only store0
     = (Ok (), with_fresh_index store0).
Proof. repeat split; reflexivity. Qed.

(** *** The id counter *)

Lemma idsFrom_length (n : nat) : forall v, length (idsFrom v n) = n.
Proof. induction n as [| n IH]; intros v; simpl; [done | by rewrite IH]. Qed.

Lemma idsFrom_app (a b : nat) :
  forall v, idsFrom v (a + b) = idsFrom v a ++ idsFrom (advance v a) b.
Proof. induction a as [| a IH]; intros v; simpl; [done | by rewrite IH]. Qed.

Lemma advance_add (a b : nat) : forall v, advance v (a + b) = advance (advance v a) b.
Proof. induction a as [| a IH]; intros v; simpl; [done | by rewrite IH]. Qed.

Lemma lt_irrefl (x : number) : lt x x = false.
Proof. destruct x as [| [] | k]; try done. apply Z.ltb_irrefl. Qed.

(** No id lies below the counter it was taken from, and the counter is
    never set back. *)
Lemma ids_not_below (n : nat) :
  forall v x, lt (ToNumeric v) x = false ->
  Forall (fun id => lt id x = false) (idsFrom v n)
  /\ lt (ToNumeric (advance v n)) x = false.
Proof.
  induction n as [| n IH]; intros v x Hv; simpl; [by split |].
  destruct (IH (Some (plusOne (ToNumeric v))) x) as [Hids Hadv].
  { simpl. by apply plusOne_keeps_not_lt. }
  split; [by constructor | done].
Qed.

(** When adding 1 is exact, the ids are the successive sums. *)
Lemma exact_ids (n : nat) :
  forall v k, exact v k n ->
  idsFrom v n = (fun j : nat => Finite (k + Z.of_nat j * one)) <$> seq 0 n.
Proof.
  induction n as [| n IH]; intros v k [-> Hk]; [done |].
  cbn [idsFrom postIncrement ToNumeric fst snd].
  change (seq 0 (S n)) with (0%nat :: seq 1 n).
  rewrite fmap_cons. f_equal; [f_equal; lia |].
  destruct n as [| n]; [done |].
  rewrite <- fmap_S_seq, <- list_fmap_compose.
  rewrite (IH _ (k + one)).
  - apply list_fmap_ext. intros _ j _. simpl. f_equal. lia.
  - split.
    + f_equal. unfold plusOne.
      pose proof (Hk 0%nat ltac:(lia)) as H0. pose proof (Hk 1%nat ltac:(lia)) as H1.
      replace (k + Z.of_nat 0 * one) with k in H0 by lia.
      replace (k + Z.of_nat 1 * one) with (k + one) in H1 by lia.
      rewrite H0. by apply round_double.
    + intros j Hj. replace (k + one + Z.of_nat j * one) with (k + Z.of_nat (S j) * one) by lia.
      apply Hk. lia.
Qed.

Lemma steps_increasing (k : Z) (n : nat) :
  StronglySorted (fun a b => lt a b = true)
    ((fun j : nat => Finite (k + Z.of_nat j * one)) <$> seq 0 n)
  /\ NoDup ((fun j : nat => Finite (k + Z.of_nat j * one)) <$> seq 0 n).
Proof.
  pose proof one_pos as Hone. split.
  - generalize 0%nat. induction n as [| n IH]; intros m; simpl; constructor; [apply IH |].
    apply Forall_fmap, Forall_forall. intros j Hj. apply elem_of_seq in Hj. simpl.
    apply Z.ltb_lt. nia.
  - apply NoDup_fmap_2; [| apply NoDup_seq].
    intros a b [= E]. nia.
Qed.

(** The integers from [-2^53] on count exactly until they have reached
    [2^53]. *)
Lemma exact_integers (z : Z) (n : nat) :
  - MAX_EXACT <= z <= MAX_EXACT -> z + Z.of_nat n <= MAX_EXACT + 1 ->
  exact (Some (ofZ z)) (z * one) n.
Proof.
  intros Hz Hn. split; [f_equal; apply ofZ_exact; lia |].
  intros j Hj. replace (z * one + Z.of_nat j * one) with ((z + Z.of_nat j) * one) by lia.
  apply integer_double. lia.
Qed.

Lemma integer_ids (z : Z) (n : nat) :
  - MAX_EXACT <= z <= MAX_EXACT -> z + Z.of_nat n <= MAX_EXACT + 1 ->
  (fun j : nat => Finite (z * one + Z.of_nat j * one)) <$> seq 0 n
  = ofZ <$> seqZ z (Z.of_nat n).
Proof.
  intros Hz Hn. unfold seqZ. rewrite Nat2Z.id, <- list_fmap_compose.
  apply list_fmap_ext. intros i j Hj. apply lookup_seq in Hj as [-> Hj]. simpl.
  rewrite ofZ_exact by lia. f_equal. lia.
Qed.

Lemma advance_integers (n : nat) :
  forall z, - MAX_EXACT <= z <= MAX_EXACT -> z + Z.of_nat n <= MAX_EXACT + 1 ->
  advance (Some (ofZ z)) n = Some (ofZ (z + Z.of_nat n)).
Proof.
  induction n as [| n IH]; intros z Hlow Hup.
  - simpl. do 2 f_equal. lia.
  - cbn [advance postIncrement ToNumeric snd].
    destruct (decide (z = MAX_EXACT)) as [-> | Hne].
    + destruct n as [| n]; [by vm_compute | lia].
    + rewrite plusOne_ofZ by lia. rewrite IH by lia. do 2 f_equal. lia.
Qed.

(** *** addBatch *)

Section Batch.
Context {I : Type} `{IndexFlatIP I}.

Lemma addBatch_item_fits (b : batch_state) (item : TextChunk * vector) :
  fits item ->
  addBatch_item b item =
  {| b_index := index_add (b_index b) item.2;
     b_documents := <[(postIncrement (b_nextId b)).1 := item.1]> (b_documents b);
     b_nextId := (postIncrement (b_nextId b)).2;
     b_ids := b_ids b ++ [(postIncrement (b_nextId b)).1] |}.
Proof.
  destruct item as [c e]. unfold fits, addBatch_item. simpl. intros E.
  rewrite bool_decide_eq_false_2; [done | by intros []].
Qed.

Lemma addBatch_item_skip (b : batch_state) (item : TextChunk * vector) :
  ~ fits item -> addBatch_item b item = b.
Proof.
  destruct item as [c e]. unfold fits, addBatch_item. simpl. intros E.
  by rewrite bool_decide_eq_true_2.
Qed.

(** The loop of [addBatch], item by item. *)
Lemma addBatch_loop (items : list (TextChunk * vector)) :
  forall b : batch_state,
  let good := filter fits items in
  let ids := idsFrom (b_nextId b) (length good) in
  let b' := foldl addBatch_item b items in
  b_ids b' = b_ids b ++ ids
  /\ b_nextId b' = advance (b_nextId b) (length good)
  /\ b_index b' = foldl index_add (b_index b) good.*2
  /\ (forall y, y ∉ ids -> b_documents b' !! y = b_documents b !! y)
  /\ (NoDup ids ->
      forall j it id, good !! j = Some it -> ids !! j = Some id ->
        b_documents b' !! id = Some it.1).
Proof.
  induction items as [| item items IH]; intros b; simpl.
  { rewrite app_nil_r. by split_and!. }
  destruct (decide (fits item)) as [Hfit | Hfit].
  - rewrite filter_cons_True by done.
    rewrite addBatch_item_fits by done.
    destruct (IH {| b_index := index_add (b_index b) item.2;
                    b_documents := <[(postIncrement (b_nextId b)).1 := item.1]> (b_documents b);
                    b_nextId := (postIncrement (b_nextId b)).2;
                    b_ids := b_ids b ++ [(postIncrement (b_nextId b)).1] |})
      as (Hids & Hnext & Hidx & Hout & Hin).
    cbn [b_index b_documents b_nextId b_ids length idsFrom advance] in *.
    split_and!.
    + by rewrite Hids, <- app_assoc.
    + done.
    + done.
    + intros y Hy. apply not_elem_of_cons in Hy as [Hne Hy].
      rewrite Hout by done. by apply lookup_insert_ne.
    + intros Hnd j it id Hj Hid. apply NoDup_cons in Hnd as [Hfresh Hnd].
      destruct j as [| j]; simpl in Hj, Hid.
      * injection Hj as <-. injection Hid as <-.
        rewrite Hout by done. apply lookup_insert_eq.
      * by apply (Hin Hnd j).
  - rewrite filter_cons_False by done.
    rewrite addBatch_item_skip by done. apply IH.
Qed.

(** The loop on a store that counts in integers. *)
Lemma addBatch_loop_integers (items : list (TextChunk * vector)) (b : batch_state) (z : Z) :
  let good := filter fits items in
  let b' := foldl addBatch_item b items in
  b_nextId b = Some (ofZ z) ->
  - MAX_EXACT <= z <= MAX_EXACT -> z + Z.of_nat (length good) <= MAX_EXACT + 1 ->
  b_ids b' = b_ids b ++ (ofZ <$> seqZ z (Z.of_nat (length good)))
  /\ NoDup (ofZ <$> seqZ z (Z.of_nat (length good)))
  /\ b_nextId b' = Some (ofZ (z + Z.of_nat (length good)))
  /\ b_index b' = foldl index_add (b_index b) good.*2
  /\ (forall (j : nat) it, good !! j = Some it ->
        b_documents b' !! ofZ (z + Z.of_nat j) = Some it.1)
  /\ (forall y, y ∉ ofZ <$> seqZ z (Z.of_nat (length good)) ->
        b_documents b' !! y = b_documents b !! y).
Proof.
  intros good b' Hz Hlow Hup.
  destruct (addBatch_loop items b) as (Hids & Hnext & Hidx & Hout & Hin).
  fold good b' in Hids, Hnext, Hidx, Hout, Hin.
  pose proof (exact_ids (length good) _ _ (exact_integers z _ Hlow Hup)) as Heq.
  rewrite integer_ids in Heq by done. rewrite Hz in Hids, Hnext, Hout, Hin.
  rewrite Heq in Hids, Hout, Hin.
  assert (NoDup (ofZ <$> seqZ z (Z.of_nat (length good)))) as Hnd.
  { rewrite <- integer_ids by done. apply steps_increasing. }
  split_and!; [done | done | by rewrite Hnext, advance_integers | done | | done].
  intros j it Hj. apply (Hin Hnd j); [done |].
  pose proof (lookup_lt_Some _ _ _ Hj) as Hlt.
  rewrite list_lookup_fmap, lookup_seqZ_lt by lia. done.
Qed.
End Batch.

(** C3, as the code has it: on an initialised store [addBatch] does not
    throw; it hands out one id per item whose embedding has the
    configured dimension 384, in the order of the batch, by [nextId++],
    passes exactly those embeddings to the index and sets the chunks of
    those items under their ids, leaving every other id as it was; so a
    batch of five with two mismatched embeddings gives three ids.  When
    the counter holds a number and adding 1 to it is exact up to the last
    of these ids, as it is for an integer counter from [-2^53] on whose
    ids stay at or below [2^53], the ids are the successive sums, they
    differ from each other, and every accepted item is found under its
    id. *)
Theorem addBatch_partial {I} `{IndexFlatIP I} (st : FaissVectorStore I) (i : I)
    (items : list (TextChunk * vector)) :
  index st = Some i ->
  let good := filter fits items in
  let n := length good in
  exists ids st',
    addBatch st items = (Ok ids, st')
    /\ ids = idsFrom (nextId st) n
    /\ length ids = n
    /\ nextId st' = advance (nextId st) n
    /\ index st' = Some (foldl index_add i good.*2)
    /\ (forall y, y ∉ ids -> documents st' !! y = documents st !! y)
    /\ (length items = 5%nat ->
        length (filter (fun it => ~ fits it) items) = 2%nat -> length ids = 3%nat)
    /\ DIMENSION = 384%nat
    /\ (forall k, exact (nextId st) k n ->
          ids = (fun j : nat => Finite (k + Z.of_nat j * one)) <$> seq 0 n
          /\ NoDup ids
          /\ forall (j : nat) it, good !! j = Some it ->
               documents st' !! Finite (k + Z.of_nat j * one) = Some it.1)
    /\ (forall z, nextId st = Some (ofZ z) ->
          - MAX_EXACT <= z <= MAX_EXACT -> z + Z.of_nat n <= MAX_EXACT + 1 ->
          ids = ofZ <$> seqZ z (Z.of_nat n)
          /\ NoDup ids
          /\ forall (j : nat) it, good !! j = Some it ->
               documents st' !! ofZ (z + Z.of_nat j) = Some it.1).
Proof.
  intros Hinit good n. unfold addBatch. rewrite Hinit.
  destruct (addBatch_loop items
              {| b_index := i; b_documents := documents st;
                 b_nextId := nextId st; b_ids := [] |})
    as (Hids & Hnext & Hidx & Hout & Hin).
  cbn [b_index b_documents b_nextId b_ids app] in *.
  fold good in Hids, Hnext, Hidx, Hout, Hin. fold n in Hids, Hnext, Hout, Hin.
  eexists _, _. split; [reflexivity |]. cbn [index documents nextId].
  assert (forall k, exact (nextId st) k n ->
            idsFrom (nextId st) n = (fun j : nat => Finite (k + Z.of_nat j * one)) <$> seq 0 n
            /\ NoDup (idsFrom (nextId st) n)
            /\ forall (j : nat) it, good !! j = Some it ->
                 b_documents (foldl addBatch_item
                                {| b_index := i; b_documents := documents st;
                                   b_nextId := nextId st; b_ids := [] |} items)
                   !! Finite (k + Z.of_nat j * one) = Some it.1) as Hexact.
  { intros k Hk. pose proof (exact_ids n _ k Hk) as Heq.
    assert (NoDup (idsFrom (nextId st) n)) as Hnd.
    { rewrite Heq. apply steps_increasing. }
    split_and!; [done | done |].
    intros j it Hj. apply (Hin Hnd j); [done |].
    rewrite Heq, list_lookup_fmap, lookup_seq_lt; [done |].
    apply lookup_lt_Some in Hj. by subst n. }
  rewrite Hids. split_and!; try done.
  - apply idsFrom_length.
  - by rewrite Hidx.
  - intros Hfive Hbad. rewrite idsFrom_length.
    pose proof (filter_app_complement fits items) as Hperm.
    apply Permutation_length in Hperm. rewrite length_app in Hperm.
    subst n good. lia.
  - intros z Hz Hlow Hup.
    destruct (Hexact (z * one)) as (Heq & Hnd & Hdocs).
    { rewrite Hz. by apply exact_integers. }
    split_and!; [| done |].
    + rewrite Heq. by apply integer_ids.
    + intros j it Hj. pose proof (lookup_lt_Some _ _ _ Hj) as Hlt.
      rewrite ofZ_exact by (subst n; lia).
      replace ((z + Z.of_nat j) * one) with (z * one + Z.of_nat j * one) by lia.
      by apply Hdocs.
Qed.

Lemma addBatch_partial_witness :
  exists st', addBatch store1 batch5 = (Ok [ofZ 0; ofZ 1; ofZ 2], st')
              /\ nextId st' = Some (ofZ 3)
              /\ documents st' !! ofZ 1 = Some (sample "c").
Proof.
  destruct (addBatch_partial store1 _ batch5 eq_refl)
    as (ids & st' & Hrun & Hids & _ & Hnext & _ & _ & _ & _ & _ & Hint).
  destruct (Hint 0 eq_refl ltac:(by vm_compute) ltac:(by vm_compute)) as (Hseq & _ & Hin).
  exists st'. split; [rewrite Hrun, Hseq; reflexivity |].
  split; [rewrite Hnext; vm_compute; reflexivity |].
  exact (Hin 1%nat (sample "c", axis 1) eq_refl).
Defined.

(** C3, as the specification words it, fails on a store that
    [initialize] loaded from a metadata document without the field
    [nextId]: the three accepted items of the batch of five all get the
    id NaN, and the store holds one document afterwards, the last of
    them.  So it is for a counter that has reached [2^53]. *)
Lemma addBatch_overwrites :
  initialize meta_read fs_bare store0 = (Ok (), store_bare)
  /\ (addBatch store_bare batch5).1 = Ok [NaN; NaN; NaN]
  /\ getDocumentCount (addBatch store_bare batch5).2 = 1%nat
  /\ documents (addBatch store_bare batch5).2 !! NaN = Some (sample "e")
  /\ initialize meta_read fs_full store0 = (Ok (), store_full)
  /\ (addBatch store_full batch5).1 = Ok [ofZ (2 ^ 53); ofZ (2 ^ 53); ofZ (2 ^ 53)]
  /\ getDocumentCount (addBatch store_full batch5).2 = 1%nat.
Proof.
  split; [reflexivity |]. split; [vm_compute; reflexivity |].
  split; [vm_compute; reflexivity |]. split; [vm_compute; reflexivity |].
  split; [reflexivity |]. split; vm_compute; reflexivity.
Qed.

(** *** search *)

Lemma collect_length (docs : gmap number TextChunk) (results : list (Z * Q)) :
  (length (collect docs results) <= length results)%nat.
Proof.
  induction results as [| [id score] rest IH]; simpl; [done |].
  destruct (lt (ofZ id) zero); [lia |]. destruct (docs !! ofZ id); simpl; lia.
Qed.

Lemma collect_elem (docs : gmap number TextChunk) (results : list (Z * Q)) (r : SearchResult) :
  r ∈ collect docs results ->
  exists e, e ∈ results /\ distance r = (1 - e.2)%Q /\ sr_id r = ofZ e.1
            /\ 0 <= e.1 /\ docs !! ofZ e.1 = Some (chunk r).
Proof.
  induction results as [| [id score] rest IH]; simpl; intros Hr.
  { by apply elem_of_nil in Hr. }
  assert (r ∈ collect docs rest ->
          exists e, e ∈ (id, score) :: rest /\ distance r = (1 - e.2)%Q
                    /\ sr_id r = ofZ e.1 /\ 0 <= e.1
                    /\ docs !! ofZ e.1 = Some (chunk r)) as Hrest.
  { intros Hin. destruct (IH Hin) as (e & He & Hd). exists e.
    split; [by apply list_elem_of_further | done]. }
  rewrite lt_ofZ_zero in Hr.
  destruct (id <? 0) eqn:Esign; [by apply Hrest |]. apply Z.ltb_ge in Esign.
  destruct (docs !! ofZ id) as [c |] eqn:E; [| by apply Hrest].
  apply elem_of_cons in Hr as [-> | Hr]; [| by apply Hrest].
  exists (id, score). split; [by apply list_elem_of_here | done].
Qed.

Lemma collect_sorted (docs : gmap number TextChunk) (results : list (Z * Q)) :
  StronglySorted (fun a b => (b.2 <= a.2)%Q) results ->
  StronglySorted (fun a b => (distance a <= distance b)%Q) (collect docs results).
Proof.
  induction 1 as [| [id score] rest Hrest IH Hhead]; simpl; [constructor |].
  destruct (lt (ofZ id) zero); [done |]. destruct (docs !! ofZ id) as [c |]; [| done].
  constructor; [done |]. apply Forall_forall. intros r Hr. simpl.
  destruct (collect_elem _ _ _ Hr) as (e & He & -> & _).
  rewrite Forall_forall in Hhead. specialize (Hhead e He). simpl in Hhead. lra.
Qed.

(** C4: on an initialised store [search] returns at most
    [min(k, documentCount)] results, none at all when the store holds no
    document, and the results come in non-decreasing distance, the
    distance being 1 minus the inner product the index reports. *)
Theorem search_ranked {I} `{IndexFlatIP I} `{!IndexLaws I} (st : FaissVectorStore I) (i : I)
    (q : vector) (k : option nat) :
  index st = Some i ->
  exists rs,
    search st q k = Ok rs
    /\ (length rs <= Nat.min (default 5%nat k) (getDocumentCount st))%nat
    /\ (getDocumentCount st = 0%nat -> rs = [])
    /\ StronglySorted (fun a b => (distance a <= distance b)%Q) rs
    /\ Forall (fun r => exists e, e ∈ index_search i q
                                    (Nat.min (default 5%nat k) (getDocumentCount st))
                                  /\ distance r = (1 - e.2)%Q) rs.
Proof.
  intros Hinit. unfold search, getDocumentCount. rewrite Hinit.
  destruct (bool_decide (size (documents st) = 0%nat)) eqn:E.
  - exists []. split_and!; [done | simpl; lia | done | constructor | constructor].
  - apply bool_decide_eq_false_1 in E. eexists. split; [reflexivity |].
    split_and!.
    + etrans; [apply collect_length |]. by rewrite index_search_length.
    + done.
    + apply collect_sorted, Sorted_StronglySorted; [| apply index_search_ranked].
      intros a b c Hab Hbc. by eapply Qle_trans.
    + apply Forall_forall. intros r Hr.
      destruct (collect_elem _ _ _ Hr) as (e & He & Hd & _). by exists e.
Qed.

Lemma search_ranked_witness :
  exists rs, search store2 (axis 1) (Some 2%nat) = Ok rs
             /\ map sr_id rs = [ofZ 1; ofZ 0]
             /\ (length rs <= 2)%nat
             /\ StronglySorted (fun a b => (distance a <= distance b)%Q) rs.
Proof.
  destruct (search_ranked store2 {| flat_d := DIMENSION;
                                    flat_xb := [axis 0; axis 1; axis 2] |}
              (axis 1) (Some 2%nat) eq_refl)
    as (rs & Hrun & Hlen & _ & Hsorted & _).
  exists rs. split; [exact Hrun |]. split; [| split; [exact Hlen | exact Hsorted]].
  assert (Ok rs = search store2 (axis 1) (Some 2%nat)) as Hrs by (by rewrite Hrun).
  vm_compute in Hrs. injection Hrs as ->. by vm_compute.
Defined.

(** *** Runs of operations *)

Section RunFacts.
Context {I : Type} `{IndexFlatIP I}.

Lemma step_op_ids (st : FaissVectorStore I) (i : I) (o : op) :
  index st = Some i ->
  (step_op st o).1 = idsFrom (nextId st) (accepted o)
  /\ nextId (step_op st o).2 = advance (nextId st) (accepted o)
  /\ is_Some (index (step_op st o).2).
Proof.
  intros Hinit. destruct o as [c e | items | id]; simpl.
  - unfold add. rewrite Hinit.
    destruct (decide (length e = DIMENSION)) as [E | E].
    + rewrite bool_decide_eq_false_2 by (by intros []).
      rewrite bool_decide_eq_true_2 by done. simpl.
      split_and!; [done | done | by eexists].
    + rewrite bool_decide_eq_true_2 by done.
      rewrite bool_decide_eq_false_2 by done. simpl.
      split_and!; [done | done | by eexists].
  - unfold addBatch. rewrite Hinit. simpl.
    destruct (addBatch_loop items
                {| b_index := i; b_documents := documents st;
                   b_nextId := nextId st; b_ids := [] |})
      as (Hids & Hnext & _).
    simpl in *. split_and!; [done | done | by eexists].
  - unfold deleteDocument. destruct (bool_decide _); simpl;
      split_and!; try done; by eexists.
Qed.

Lemma run_ids (ops : list op) :
  forall (st : FaissVectorStore I) (i : I), index st = Some i ->
  (run st ops).1 = idsFrom (nextId st) (sum_list (accepted <$> ops))
  /\ nextId (run st ops).2 = advance (nextId st) (sum_list (accepted <$> ops)).
Proof.
  induction ops as [| o ops IH]; intros st i Hinit; simpl.
  { done. }
  destruct (step_op_ids st i o Hinit) as (Hids & Hnext & [i' Hinit']).
  destruct (step_op st o) as [ids st'] eqn:Estep. simpl in *.
  destruct (IH st' i' Hinit') as [Hids' Hnext'].
  destruct (run st' ops) as [ids' st''] eqn:Erun. simpl in *.
  change (list_fmap op nat accepted ops) with (accepted <$> ops).
  by rewrite idsFrom_app, advance_add, Hids, Hids', Hnext', Hnext.
Qed.
End RunFacts.

(** C5, as the code has it: over any sequence of [add], [addBatch] and
    [deleteDocument] on an initialised store the ids handed out are, in
    order, the successive values of the one counter [nextId], one per
    accepted vector; none of them lies below the counter the run started
    from, the counter is never set back, and no id collides with a
    document the store held before when those all lie below the counter.
    When the counter holds a number and adding 1 to it is exact up to the
    last of the ids, as it is for an integer counter from [-2^53] on
    whose ids stay at or below [2^53], the ids are strictly increasing
    and pairwise distinct, so no id comes back, also not after its
    document was deleted. *)
Theorem ids_never_reused {I} `{IndexFlatIP I} (st : FaissVectorStore I) (i : I)
    (ops : list op) :
  index st = Some i ->
  let n := sum_list (accepted <$> ops) in
  let ids := (run st ops).1 in
  ids = idsFrom (nextId st) n
  /\ nextId (run st ops).2 = advance (nextId st) n
  /\ Forall (fun id => lt id (counter st) = false) ids
  /\ lt (counter (run st ops).2) (counter st) = false
  /\ ((forall y, is_Some (documents st !! y) -> lt y (counter st) = true) ->
      forall id, id ∈ ids -> documents st !! id = None)
  /\ (forall k, exact (nextId st) k n ->
        ids = (fun j : nat => Finite (k + Z.of_nat j * one)) <$> seq 0 n
        /\ StronglySorted (fun a b => lt a b = true) ids
        /\ NoDup ids)
  /\ (forall z, nextId st = Some (ofZ z) ->
        - MAX_EXACT <= z <= MAX_EXACT -> z + Z.of_nat n <= MAX_EXACT + 1 ->
        ids = ofZ <$> seqZ z (Z.of_nat n)
        /\ nextId (run st ops).2 = Some (ofZ (z + Z.of_nat n))
        /\ StronglySorted (fun a b => lt a b = true) ids
        /\ NoDup ids).
Proof.
  intros Hinit n ids. destruct (run_ids ops st i Hinit) as [Hids Hnext].
  fold n in Hids, Hnext. fold ids in Hids.
  destruct (ids_not_below n (nextId st) (counter st) (lt_irrefl _)) as [Hlow Hadv].
  assert (forall k, exact (nextId st) k n ->
            ids = (fun j : nat => Finite (k + Z.of_nat j * one)) <$> seq 0 n
            /\ StronglySorted (fun a b => lt a b = true) ids
            /\ NoDup ids) as Hexact.
  { intros k Hk. rewrite Hids, (exact_ids n _ k Hk).
    split; [done |]. apply steps_increasing. }
  split_and!; [done | done | by rewrite Hids | by unfold counter; rewrite Hnext | | done |].
  - intros Hbelow id Hid. rewrite Hids in Hid.
    rewrite Forall_forall in Hlow. specialize (Hlow id Hid).
    destruct (documents st !! id) eqn:E; [| done].
    specialize (Hbelow id ltac:(by eexists)). congruence.
  - intros z Hz Hlow' Hup.
    destruct (Hexact (z * one)) as (Heq & Hsorted & Hnd).
    { rewrite Hz. by apply exact_integers. }
    split_and!; [| | done | done].
    + rewrite Heq. by apply integer_ids.
    + by rewrite Hnext, Hz, advance_integers.
Qed.

Lemma ids_never_reused_witness :
  (run store1 ops6).1 = [ofZ 0; ofZ 1; ofZ 2; ofZ 3; ofZ 4; ofZ 5]
  /\ NoDup (run store1 ops6).1
  /\ documents (run store1 ops6).2 !! ofZ 1 = None.
Proof.
  destruct (ids_never_reused store1 _ ops6 eq_refl) as (_ & _ & _ & _ & _ & _ & Hint).
  destruct (Hint 0 eq_refl ltac:(by vm_compute) ltac:(by vm_compute)) as (Hids & _ & _ & Hnodup).
  split; [exact Hids |]. split; [exact Hnodup | by vm_compute].
Defined.

(** C5, as the specification words it, fails on a store that
    [initialize] loaded from a metadata document without the field
    [nextId]: two documents added one after the other both get the id
    NaN, and the second takes the place of the first.  On a store whose
    counter has reached [2^53] both get the id [2^53]. *)
Lemma ids_reused :
  initialize meta_read fs_bare store0 = (Ok (), store_bare)
  /\ (run store_bare [Add (sample "a") (axis 0); Add (sample "b") (axis 1)]).1 = [NaN; NaN]
  /\ documents (run store_bare [Add (sample "a") (axis 0); Add (sample "b") (axis 1)]).2 !! NaN
     = Some (sample "b")
  /\ initialize meta_read fs_full store0 = (Ok (), store_full)
  /\ (run store_full [Add (sample "a") (axis 0); Add (sample "b") (axis 1)]).1
     = [ofZ (2 ^ 53); ofZ (2 ^ 53)]
  /\ ~ NoDup (run store_full [Add (sample "a") (axis 0); Add (sample "b") (axis 1)]).1.
Proof.
  split; [reflexivity |]. split; [vm_compute; reflexivity |].
  split; [vm_compute; reflexivity |]. split; [reflexivity |].
  assert ((run store_full [Add (sample "a") (axis 0); Add (sample "b") (axis 1)]).1
          = [ofZ (2 ^ 53); ofZ (2 ^ 53)]) as Hids by (vm_compute; reflexivity).
  split; [exact Hids |]. rewrite Hids.
  intros [Hin _]%NoDup_cons. apply Hin, list_elem_of_here.
Qed.

(** Outside the three operations of C5: [clear] sets the counter back to
    0, so the next document gets the id 0 again. *)
Remark clear_restarts_counter :
  (add (clear (run store1 ops6).2) (sample "z") (axis 0)).1 = Ok (ofZ 0).
Proof. by vm_compute. Qed.

End StoreFacts.

(* ===================================================================== *)
(** ** Properties of the task queue *)
(* ===================================================================== *)

Module QueueFacts.
Import Js JsFacts Vectorizer QueueSpec.

Lemma byPriority_total (a b : IndexTask) : 0 < byPriority a b -> byPriority b a <= 0.
Proof. unfold byPriority. lia. Qed.

#[local] Instance descending_trans : Transitive descending.
Proof. unfold descending. intros a b c. lia. Qed.

Lemma sort_descending (q : list IndexTask) : StronglySorted descending (sort byPriority q).
Proof.
  apply Sorted_StronglySorted; [apply _ |].
  eapply Sorted_weaken; [| apply (sort_sorted byPriority byPriority_total)].
  intros a b. unfold before, byPriority, descending. lia.
Qed.

Lemma sort_keeps_class (p : Z) (q : list IndexTask) :
  filter (has_priority p) (sort byPriority q) = filter (has_priority p) q.
Proof.
  apply sort_filter. unfold has_priority, byPriority. intros a b -> ->. lia.
Qed.

(** Along any history the tasks of one priority that are still queued are
    the latest arrivals of that priority, in arrival order. *)
Lemma queue_class_suffix (p : Z) (es : list event) :
  filter (has_priority p) (taskQueue (foldl apply_event newService es))
  `suffix_of` filter (has_priority p) (arrivals es).
Proof.
  induction es as [| e es IH] using rev_ind; [done |].
  rewrite foldl_snoc. unfold arrivals in *. rewrite flat_map_app, filter_app. simpl.
  set (s := foldl apply_event newService es) in *.
  destruct e as [task tick | | |]; simpl.
  - rewrite sort_keeps_class, filter_app. by apply suffix_app.
  - rewrite filter_nil, app_nil_r. unfold processTasks_take.
    destruct (isProcessing s || bool_decide (taskQueue s = []) || negb (storeReady s));
      [done |]. simpl.
    etrans; [| exact IH].
    rewrite <- (take_drop 10 (taskQueue s)) at 2. rewrite filter_app.
    by apply suffix_app_r.
  - by rewrite filter_nil, app_nil_r.
  - by rewrite filter_nil, app_nil_r.
Qed.

(** C7: after every [addTask], whatever came before, the queue is in
    descending order of priority; it holds the tasks of the old queue and
    the new one; tasks of equal priority keep their order with the new
    task behind them; and from a new service on, the queued tasks of any
    one priority stand in their arrival order. *)
Theorem addTask_sorted_stable (es : list event) (task : TaskRequest) (tick : Tick) :
  let s := foldl apply_event newService es in
  let s' := (addTask s task tick).2 in
  StronglySorted descending (taskQueue s')
  /\ taskQueue s' ≡ₚ taskQueue s ++ [fullTask task tick]
  /\ (forall p, filter (has_priority p) (taskQueue s') =
                filter (has_priority p) (taskQueue s ++ [fullTask task tick]))
  /\ (forall p, filter (has_priority p) (taskQueue s')
                `suffix_of` filter (has_priority p) (arrivals (es ++ [AddTask task tick]))).
Proof.
  intros s s'. split_and!.
  - apply sort_descending.
  - apply sort_perm.
  - intros p. apply sort_keeps_class.
  - intros p. pose proof (queue_class_suffix p (es ++ [AddTask task tick])) as Hsuf.
    by rewrite foldl_snoc in Hsuf.
Qed.

(** The queue after [addTask] is the only list in descending priority
    order that keeps every priority class of the old queue in order with
    the new task behind it; no sorting algorithm can order it otherwise. *)
Lemma addTask_queue_determined (s : Service) (task : TaskRequest) (tick : Tick)
    (q : list IndexTask) :
  StronglySorted descending q ->
  (forall p, filter (has_priority p) q =
             filter (has_priority p) (taskQueue s ++ [fullTask task tick])) ->
  q = taskQueue (addTask s task tick).2.
Proof.
  intros Hsorted Hclass.
  apply (stable_sort_unique (fun t => priority (request t))); [done | |].
  - apply sort_descending.
  - intros p. etrans; [apply (Hclass p) |]. symmetry. apply sort_keeps_class.
Qed.

(** Three tasks of priorities 1, 5, 1: the urgent one moves to the front
    and the other two keep their arrival order; taking a batch empties the
    queue once the store is there. *)
Remark queue_example :
  let s := foldl apply_event newService
             [ StoreLoaded; AddTask (ask_for "a" 1) (at_time 100);
               AddTask (ask_for "b" 5) (at_time 101);
               AddTask (ask_for "c" 1) (at_time 102) ] in
  map (fun t => content (request t)) (taskQueue s) = [u16 "b"; u16 "a"; u16 "c"]
  /\ map taskId (taskQueue s)
     = [u16 "task-101-k3x9qa"; u16 "task-100-k3x9qa"; u16 "task-102-k3x9qa"]
  /\ taskQueue (apply_event s TakeBatch) = [].
Proof. repeat split; reflexivity. Qed.

End QueueFacts.

(* ===================================================================== *)
(** ** Properties of the retrieval gate *)
(* ===================================================================== *)

Module GateFacts.
Import Js RagInjector GateSpec.

Lemma digitOrSpace_cases (c : N) :
  digitOrSpace c = true ->
  (0x30 <= c <= 0x39)%N \/ isWhiteSpace c = true.
Proof.
  unfold digitOrSpace. intros H. apply orb_true_iff in H as [H | H]; [| by right].
  apply andb_true_iff in H as [H1 H2].
  apply N.leb_le in H1, H2. left. lia.
Qed.

Lemma whitespace_cases (c : N) :
  isWhiteSpace c = true ->
  (9 <= c <= 13 \/ c = 32 \/ c = 160 \/ c = 0x1680 \/ 0x2000 <= c <= 0x200A
   \/ c = 0x2028 \/ c = 0x2029 \/ c = 0x202F \/ c = 0x205F \/ c = 0x3000
   \/ c = 0xFEFF)%N.
Proof.
  unfold isWhiteSpace. intros H.
  repeat (apply orb_true_iff in H as [H | H]);
    repeat match goal with
      | H : (_ && _) = true |- _ => apply andb_true_iff in H as [? ?]
      | H : (_ <=? _)%N = true |- _ => apply N.leb_le in H
      | H : (_ =? _)%N = true |- _ => apply N.eqb_eq in H
      end; lia.
Qed.

Section DigitFacts.
Variable lower_table : N -> list N.
Variable emoji_table : N -> bool.

Local Abbreviation lower := (toLowerCase lower_table).
Local Abbreviation gate := (shouldPerformRag lower_table emoji_table).

Lemma digitOrSpace_not_surrogate (c : N) :
  digitOrSpace c = true -> isHighSurrogate c = false /\ (c <? 0x10000)%N = true.
Proof.
  intros H. unfold isHighSurrogate.
  assert (c < 0xD800 \/ 0xDBFF < c < 0x10000)%N as Hc.
  { apply digitOrSpace_cases in H as [H | H]; [| apply whitespace_cases in H]; lia. }
  split; [| apply N.ltb_lt; lia].
  apply andb_false_iff. destruct Hc; [left | right]; apply N.leb_gt; lia.
Qed.

Lemma digitOrSpace_lower (c : N) : digitOrSpace c = true -> lowerCodePoint lower_table c = [c].
Proof.
  intros H. unfold lowerCodePoint.
  apply digitOrSpace_cases in H as [H | H].
  - rewrite (proj2 (andb_false_iff _ _)) by (left; apply N.leb_gt; lia).
    by rewrite (proj2 (N.ltb_lt _ _)) by lia.
  - rewrite H. pose proof (whitespace_cases c H) as Hc.
    rewrite (proj2 (andb_false_iff _ _))
      by (destruct (decide (c < 0x41)%N);
          [left; apply N.leb_gt | right; apply N.leb_gt]; lia).
    by destruct (c <? 128)%N.
Qed.

Lemma digitOrSpace_emoji (c : N) :
  digitOrSpace c = true -> isEmoji emoji_table c || isWhiteSpace c = true.
Proof.
  intros H. apply digitOrSpace_cases in H as [H | H].
  - unfold isEmoji. rewrite (proj2 (N.ltb_lt _ _)) by lia.
    rewrite (proj2 (N.leb_le 0x30 c)), (proj2 (N.leb_le c 0x39)) by lia.
    simpl. by rewrite !orb_true_r.
  - rewrite H. apply orb_true_r.
Qed.

Lemma codePoints_plain (s : jsstring) :
  forallb digitOrSpace s = true -> codePoints s = s.
Proof.
  induction s as [| h s IH]; [done |]. intros H.
  apply andb_true_iff in H as [Hh Hs]. specialize (IH Hs).
  destruct (digitOrSpace_not_surrogate h Hh) as [Hhigh _].
  cbn [codePoints]. destruct s as [| l s]; [done |].
  rewrite Hhigh. simpl andb. cbv iota. by rewrite IH.
Qed.

Lemma toLowerCase_plain (s : jsstring) :
  forallb digitOrSpace s = true -> lower s = s.
Proof.
  intros H. unfold toLowerCase. rewrite codePoints_plain by done.
  induction s as [| c s IH]; [done |].
  apply andb_true_iff in H as [Hc Hs]. cbn [flat_map].
  rewrite digitOrSpace_lower by done. cbn [flat_map]. rewrite app_nil_r.
  unfold encodeCodePoint at 1.
  destruct (digitOrSpace_not_surrogate c Hc) as [_ ->]. simpl. by rewrite IH.
Qed.

Lemma emojiOnly_plain (s : jsstring) :
  s <> [] -> forallb digitOrSpace s = true -> emojiOnly emoji_table s = true.
Proof.
  intros Hne H. unfold emojiOnly. rewrite codePoints_plain by done.
  destruct s as [| c s]; [done |].
  apply forallb_forall. intros x Hx. apply digitOrSpace_emoji.
  rewrite forallb_forall in H. by apply H.
Qed.

(** C10: a query whose trimmed text is made of ASCII digits and white
    space only is turned away; when it has five code units or more it
    is not taken for a command, nor for a short query, nor for a
    greeting: lower-casing leaves it as it is and the emoji-only
    pattern matches it, digits being [Emoji] code points. *)
Theorem shouldPerformRag_rejects_digits (query : jsstring) :
  forallb digitOrSpace (trim query) = true ->
  gate query = false
  /\ (5 <= len (trim query) ->
      lower (trim query) = trim query
      /\ startsWith (trim query) (u16 "/") = false
      /\ (trim query ∉ greetings)
      /\ emojiOnly emoji_table (trim query) = true).
Proof.
  intros H. unfold shouldPerformRag. rewrite (toLowerCase_plain _ H).
  assert (5 <= len (trim query) -> emojiOnly emoji_table (trim query) = true) as Hemoji.
  { intros Hlen. apply emojiOnly_plain; [| done].
    intros E. rewrite E in Hlen. unfold len in Hlen. simpl in Hlen. lia. }
  split.
  - destruct (startsWith _ _); [done |].
    destruct (len (trim query) <? 5) eqn:E; [done |]. apply Z.ltb_ge in E.
    destruct (bool_decide _); [done |]. by rewrite Hemoji.
  - intros Hlen. split_and!; [done | | | by apply Hemoji].
    + destruct (trim query) as [| c s]; [done |].
      apply andb_true_iff in H as [Hc _]. cbn [startsWith u16].
      destruct (N.eqb_spec (N_of_ascii "/") c) as [<- |]; [by vm_compute in Hc | done].
    + intros Hin. unfold greetings in Hin.
      apply list_elem_of_In in Hin. simpl in Hin.
      repeat (destruct Hin as [E | Hin]; [rewrite <- E in H; by vm_compute in H |]).
      done.
Qed.
End DigitFacts.

Lemma shouldPerformRag_rejects_digits_witness :
  shouldPerformRag (fun c => [c]) (fun _ => false) (u16 " 12345 ") = false
  /\ emojiOnly (fun _ => false) (u16 "12345") = true.
Proof.
  destruct (shouldPerformRag_rejects_digits (fun c => [c]) (fun _ => false)
              (u16 " 12345 ") eq_refl) as [Hgate Hwhy].
  split; [exact Hgate |].
  destruct Hwhy as (_ & _ & _ & Hemoji); [vm_compute; discriminate | exact Hemoji].
Defined.

(** The gate on the inputs of the specification's test list, whatever the
    Unicode tables: a greeting, a command and a three-letter query are
    turned away, a question of fifty characters goes through. *)
Remark shouldPerformRag_examples (lower_table : N -> list N) (emoji_table : N -> bool) :
  shouldPerformRag lower_table emoji_table (u16 "hi") = false
  /\ shouldPerformRag lower_table emoji_table (u16 "/reset") = false
  /\ shouldPerformRag lower_table emoji_table (u16 "abc") = false
  /\ shouldPerformRag lower_table emoji_table
       (u16 "What did we decide about the caching layer for X?") = true
  /\ shouldPerformRag lower_table emoji_table (u16 "#*#*#") = false.
Proof. repeat split; reflexivity. Qed.

End GateFacts.

(* ===================================================================== *)
(** ** Properties of the retrieval hook *)
(* ===================================================================== *)

Module HandlerFacts.
Import Js Chunk FaissStore RagHandler HandlerSpec.

Section CacheFacts.
Variable toFixed2 : Q -> jsstring.

Local Abbreviation format := (formatRagResultsXml toFixed2).
Local Abbreviation run := (handler toFixed2).

Lemma dedupe_keeps_first (r : SearchResult) (rest : list SearchResult) :
  exists rest', dedupe ∅ (r :: rest) = r :: rest'.
Proof.
  simpl. rewrite bool_decide_eq_false_2 by apply not_elem_of_empty. by eexists.
Qed.

(** A non-empty result set formats to a non-empty text. *)
Lemma format_nonempty (r : SearchResult) (rest : list SearchResult) :
  exists c s, format (r :: rest) = c :: s.
Proof.
  unfold formatRagResultsXml.
  destruct (dedupe_keeps_first r rest) as [rest' ->].
  rewrite !bool_decide_eq_false_2 by done. by eexists _, _.
Qed.

(** What a run that came back with a text from a retrieval leaves in
    the cache. *)
Lemma retrieval_fills_cache (world : jsstring -> Retrieval) (now : Z) (cache : Cache)
    (event : HookEvent) (agentId q txt : jsstring) :
  retrievals (run world now cache event agentId) = [q] ->
  prependContext (run world now cache event agentId) = Some txt ->
  cacheAfter (run world now cache event agentId) =
    {| lastQuery := Some q; lastResult := Some txt; lastTimestamp := now |}
  /\ MIN_QUERY_LENGTH <= len q
  /\ (exists c s, txt = c :: s)
  /\ (exists r rest, world q = Retrieved (r :: rest) /\ txt = format (r :: rest)).
Proof.
  unfold handler.
  destruct (negb (bool_decide (agentId ∈ ALLOWED_AGENTS))); [done |].
  destruct (extractUserQuery event) as [userQuery |]; [| done].
  destruct (len userQuery <? MIN_QUERY_LENGTH) eqn:Elen; [done |].
  apply Z.ltb_ge in Elen.
  destruct (_ && _ && _); [done |].
  destruct (world userQuery) as [| [| r rest] |] eqn:Eworld; try done.
  simpl. intros [= <-] [= <-]. split_and!; [done | done | apply format_nonempty |].
  by exists r, rest.
Qed.

(** C8: when a run of the hook for the query [q] went through the
    retrieval and came back with the text [txt], a further run for the
    same string [q], from an agent the hook serves and less than
    [CACHE_TTL] = 5000 ms after the first run read the clock, returns
    [txt] again, hands nothing to [performRagRetrieval] and leaves the
    cache as it is. *)
Theorem cache_hit_skips_retrieval
    (world1 world2 : jsstring -> Retrieval) (now1 now2 : Z) (cache : Cache)
    (event1 event2 : HookEvent) (agent1 agent2 q txt : jsstring) :
  let first := run world1 now1 cache event1 agent1 in
  retrievals first = [q] ->
  prependContext first = Some txt ->
  agent2 ∈ ALLOWED_AGENTS ->
  extractUserQuery event2 = Some q ->
  now2 - now1 < CACHE_TTL ->
  let second := run world2 now2 (cacheAfter first) event2 agent2 in
  prependContext second = Some txt
  /\ retrievals second = []
  /\ cacheAfter second = cacheAfter first
  /\ CACHE_TTL = 5000.
Proof.
  intros first Hcalls Htxt Hagent Hquery Httl second. subst first second.
  destruct (retrieval_fills_cache _ _ _ _ _ _ _ Hcalls Htxt)
    as (-> & Hlen & (c & s & ->) & _).
  unfold handler. rewrite bool_decide_eq_true_2 by done. simpl negb. cbv iota.
  rewrite Hquery. rewrite (proj2 (Z.ltb_ge _ _) Hlen). simpl.
  rewrite bool_decide_eq_true_2 by done.
  by rewrite (proj2 (Z.ltb_lt _ _) Httl).
Qed.

(** Only a retrieval that comes back with results writes the cache. *)
Lemma handler_keeps_cache (world : jsstring -> Retrieval) (now : Z) (cache : Cache)
    (event : HookEvent) (agentId : jsstring) :
  let out := run world now cache event agentId in
  prependContext out = None \/ retrievals out = [] -> cacheAfter out = cache.
Proof.
  unfold handler.
  destruct (negb (bool_decide (agentId ∈ ALLOWED_AGENTS))); [done |].
  destruct (extractUserQuery event) as [userQuery |]; [| done].
  destruct (len userQuery <? MIN_QUERY_LENGTH); [done |].
  destruct (_ && _ && _); [done |].
  destruct (world userQuery) as [| [| r rest] |]; try done.
  simpl. by intros [? | ?].
Qed.

(** Past the time-to-live the same query is retrieved again. *)
Lemma cache_expires
    (world1 world2 : jsstring -> Retrieval) (now1 now2 : Z) (cache : Cache)
    (event1 event2 : HookEvent) (agent1 agent2 q txt : jsstring) :
  let first := run world1 now1 cache event1 agent1 in
  retrievals first = [q] ->
  prependContext first = Some txt ->
  agent2 ∈ ALLOWED_AGENTS ->
  extractUserQuery event2 = Some q ->
  CACHE_TTL <= now2 - now1 ->
  retrievals (run world2 now2 (cacheAfter first) event2 agent2) = [q].
Proof.
  intros first Hcalls Htxt Hagent Hquery Httl. subst first.
  destruct (retrieval_fills_cache _ _ _ _ _ _ _ Hcalls Htxt)
    as (-> & Hlen & (c & s & ->) & _).
  unfold handler. rewrite bool_decide_eq_true_2 by done. simpl negb. cbv iota.
  rewrite Hquery. rewrite (proj2 (Z.ltb_ge _ _) Hlen). simpl.
  rewrite (proj2 (Z.ltb_ge _ _) Httl), andb_false_r.
  by destruct (world2 q) as [| [| ? ?] |].
Qed.
End CacheFacts.

Lemma cache_hit_skips_retrieval_witness :
  let first := handler fixed2 found 1000 emptyCache ask (u16 "main") in
  let second := handler fixed2 down 5999 (cacheAfter first) ask (u16 "main-lite") in
  retrievals first = [u16 "what did we decide about X?"]
  /\ prependContext second = prependContext first
  /\ retrievals second = [].
Proof.
  intros first second.
  destruct (cache_hit_skips_retrieval fixed2 found down 1000 5999 emptyCache ask ask
              (u16 "main") (u16 "main-lite") (u16 "what did we decide about X?")
              (formatRagResultsXml fixed2 [hit]))
    as (Hsame & Hnone & _); [reflexivity | reflexivity | | reflexivity | reflexivity |].
  - apply (bool_decide_unpack _). reflexivity.
  - split; [reflexivity |]. split; [exact Hsame | exact Hnone].
Defined.

(** The cache has one slot: a retrieval for another query in between
    takes it, and the first query is retrieved anew. *)
Remark cache_single_slot :
  let first := handler fixed2 found 1000 emptyCache ask (u16 "main") in
  let other := handler fixed2 found 1200 (cacheAfter first) ask_other (u16 "main") in
  let again := handler fixed2 found 1400 (cacheAfter other) ask (u16 "main") in
  retrievals other = [u16 "and about the index format?"]
  /\ retrievals again = [u16 "what did we decide about X?"].
Proof. split; reflexivity. Qed.

(** What the example run hands back. *)
Remark handler_example :
  stripWorkspace (sourcePath (chunk hit)) = u16 "memory/notes.md"
  /\ formatRagResultsXml fixed2 [hit; hit] =
       u16 "<historical_memory>" ++ [10%N] ++ memoryHeading ++ [10; 10]%N
       ++ u16 "[1] (" ++ [0x4F86; 0x6E90]%N ++ u16 ": memory/notes.md, "
       ++ [0x76F8; 0x95DC; 0x5EA6]%N ++ u16 ": 0.50)" ++ [10%N]
       ++ u16 "We decided to use X for caching" ++ [10%N]
       ++ u16 "</historical_memory>".
Proof. split; reflexivity. Qed.

End HandlerFacts.

(* ===================================================================== *)
(** ** Further properties of the chunker *)
(* ===================================================================== *)

Module ChunkShape.
Import Js Chunk ChunkSpec ChunkFacts ChunkShapeSpec.

Lemma nonempty_len (s : jsstring) : (0 <? len s) = true -> s <> [].
Proof. intros H ->. done. Qed.

(** *** Shape of the chunks *)

Section Shape.
Variable env : Env.
Variable t : jsstring.
Variable options : ChunkOptions.

Local Abbreviation body := (loop_body env t options).
Local Abbreviation loop := (while_loop env t options).
Local Abbreviation stp := (step options).
Local Abbreviation sz := (windowSize options).

Lemma slice_length_bound (a b : Z) :
  0 <= a <= len t -> 0 <= b -> len (slice t a b) <= Z.max 0 (b - a).
Proof.
  intros Ha Hb. rewrite slice_window by done. unfold len, rel_index.
  rewrite (proj2 (Z.ltb_ge b 0)) by lia. rewrite length_take, length_drop.
  fold (len t). lia.
Qed.

Lemma adjust_length (chunk : jsstring) (a b : Z) :
  len (adjText (adjustChunkBoundary chunk t a b)) <= len chunk.
Proof.
  unfold adjustChunkBoundary. destruct (len t <=? b); [simpl; lia |].
  destruct (findBoundary _ _) as [[index mlen] |]; [| simpl; lia].
  simpl. unfold slice, len. rewrite length_take, length_drop. lia.
Qed.

Lemma loop_body_shaped (off : Z) (acc : list TextChunk) :
  0 <= sz -> 0 <= off < len t -> (stp | off) -> Forall (shaped env t options) acc ->
  Forall (shaped env t options) (body (off, acc)).2.
Proof.
  intros Hsz Hoff Hdiv Hacc. unfold loop_body.
  set (endPos := if len t <? off + sz then len t else off + sz).
  set (adj := adjustChunkBoundary _ _ _ _).
  destruct (0 <? len (trim (adjText adj))) eqn:E; [| done]. simpl.
  apply Forall_app. split; [done |]. constructor; [| constructor].
  unfold shaped. simpl. split_and!; try done; try lia.
  - by apply nonempty_len.
  - apply trim_idem.
  - pose proof (length_trim (adjText adj)) as Htrim.
    pose proof (adjust_length (slice t off endPos) off endPos) as Hadj.
    fold adj in Hadj.
    pose proof (slice_length_bound off endPos ltac:(lia)) as Hslice.
    assert (0 <= endPos /\ endPos - off <= sz) as [? ?].
    { subst endPos. destruct (len t <? off + sz) eqn:El;
        [apply Z.ltb_lt in El | apply Z.ltb_ge in El]; lia. }
    unfold len in *. lia.
Qed.

Lemma while_loop_shaped (Hstep : 0 < stp) (Hsz : 0 <= sz) (fuel : nat) :
  forall off acc cs, 0 <= off -> (stp | off) -> Forall (shaped env t options) acc ->
  loop fuel (off, acc) = Some cs -> Forall (shaped env t options) cs.
Proof.
  induction fuel as [| fuel IH]; intros off acc cs Hoff Hdiv Hacc Hrun;
    cbn [while_loop fst snd] in Hrun.
  - destruct (off <? len t); [done |]. by injection Hrun as <-.
  - destruct (off <? len t) eqn:E; [| by injection Hrun as <-].
    apply Z.ltb_lt in E.
    pose proof (loop_body_shaped off acc Hsz ltac:(lia) Hdiv Hacc) as Hnext.
    rewrite loop_body_cursor in Hrun. cbn [fst] in Hrun.
    destruct (len t <=? off + stp); [by injection Hrun as <- |].
    apply (IH (off + stp) (body (off, acc)).2); [lia | | done |].
    + by apply Z.divide_add_r; [| apply Z.divide_refl].
    + by destruct (body (off, acc)) as [o a] eqn:Eb;
        pose proof (loop_body_cursor env t options (off, acc)) as Hc;
        rewrite Eb in Hc; simpl in Hc; subst o.
Qed.

Lemma iter_chunks_length (n : nat) (st : loop_state) :
  (length (Nat.iter n body st).2 <= length st.2 + n)%nat.
Proof.
  induction n as [| n IH]; [simpl; lia |].
  rewrite Nat.iter_succ. destruct (Nat.iter n body st) as [off acc]. simpl in *.
  destruct (0 <? _); [rewrite length_app; simpl |]; lia.
Qed.
End Shape.

Lemma chunkText_run_shaped (env : Env) (t : jsstring) (options : ChunkOptions)
    (fuel : nat) (cs : list TextChunk) :
  0 < step options -> 0 <= windowSize options ->
  chunkText env t options fuel = Some cs -> Forall (shaped env t options) cs.
Proof.
  intros Hstep Hsz Hrun. unfold chunkText in Hrun.
  destruct (bool_decide (t = []) || (len (trim t) =? 0)) eqn:Eblank.
  { injection Hrun as <-. constructor. }
  apply orb_false_iff in Eblank as [Hne Htrim].
  apply bool_decide_eq_false_1 in Hne. apply Z.eqb_neq in Htrim.
  assert (0 < len t) as Hpos.
  { pose proof (len_nonneg t). destruct (decide (len t = 0)) as [E |]; [| lia].
    by apply len_zero_nil in E. }
  destruct (len t <=? windowSize options) eqn:Eshort.
  - injection Hrun as <-. apply Z.leb_le in Eshort.
    constructor; [| constructor]. unfold shaped. simpl.
    pose proof (length_trim t). unfold len in *.
    split_and!; try done; try lia.
    + intros E. by rewrite E in Htrim.
    + apply trim_idem.
    + apply Z.divide_0_r.
  - eapply (while_loop_shaped env t options Hstep Hsz); [| | | exact Hrun];
      [lia | apply Z.divide_0_r | constructor].
Qed.

(** X1: With a positive step and a window size that is not negative, every
    chunk [chunkText] returns has a text that is not empty, carries no
    white space at either end and is no longer than the window; its offset
    lies inside the input and is a multiple of the step; and all chunks of
    a call share the call's timestamp and source path. *)
Theorem chunkText_chunks_shaped (env : Env) (t : jsstring) (options : ChunkOptions) :
  0 < step options -> 0 <= windowSize options ->
  exists cs,
    (forall fuel, (length t <= fuel)%nat -> chunkText env t options fuel = Some cs)
    /\ Forall (shaped env t options) cs.
Proof.
  intros Hstep Hsz. destruct (chunkText_returns env t options Hstep) as [cs Hrun].
  exists cs. split; [done |].
  by apply (chunkText_run_shaped env t options (length t)), Hrun.
Qed.

Lemma chunkText_chunks_shaped_witness :
  exists cs, chunkText env0 (u16 "One. Two, three; four!  Five? six") (sized 12 3) 40 = Some cs
    /\ Forall (fun c => text c <> [] /\ len (text c) <= 12 /\ (9 | offset c)) cs.
Proof.
  destruct (chunkText_chunks_shaped env0 (u16 "One. Two, three; four!  Five? six")
              (sized 12 3) ltac:(reflexivity) ltac:(vm_compute; discriminate))
    as (cs & Hrun & Hshape).
  exists cs. split; [apply Hrun; vm_compute; lia |].
  eapply Forall_impl; [exact Hshape |].
  intros c (Hne & _ & Hlen & _ & Hdiv & _). done.
Defined.

(** X2: With a positive step [chunkText] returns at most one chunk per step
    of the input: the chunks but the last account for a stretch shorter
    than the text. *)
Theorem chunkText_count (env : Env) (t : jsstring) (options : ChunkOptions) :
  0 < step options ->
  exists cs,
    (forall fuel, (length t <= fuel)%nat -> chunkText env t options fuel = Some cs)
    /\ (cs = [] \/ (Z.of_nat (length cs) - 1) * step options < len t)
    /\ (length cs <= length t)%nat.
Proof.
  intros Hstep. destruct (chunkText_returns env t options Hstep) as [cs Hrun].
  exists cs. split; [done |]. specialize (Hrun (length t) ltac:(lia)).
  unfold chunkText in Hrun.
  destruct (bool_decide (t = []) || (len (trim t) =? 0)) eqn:Eblank.
  { injection Hrun as <-. split; [by left | simpl; lia]. }
  apply orb_false_iff in Eblank as [Hne _]. apply bool_decide_eq_false_1 in Hne.
  assert (0 < len t) as Hpos.
  { pose proof (len_nonneg t). destruct (decide (len t = 0)) as [E |]; [| lia].
    by apply len_zero_nil in E. }
  destruct (len t <=? windowSize options).
  { injection Hrun as <-. simpl. unfold len in *. split; [right |]; lia. }
  destruct (while_loop_passes env t options Hstep (length t) (0, []))
    as (n & Hn & Hloop & _ & Hbefore); [simpl; unfold len; lia |].
  rewrite Hloop in Hrun. injection Hrun as <-.
  pose proof (iter_chunks_length env t options n (0, [])) as Hlen. simpl in Hlen.
  split; [| lia]. destruct n as [| n]; [by left |]. right.
  specialize (Hbefore n ltac:(lia)). rewrite iter_cursor in Hbefore.
  simpl in Hbefore. nia.
Qed.

Lemma chunkText_count_witness :
  exists cs, chunkText env0 (u16 "One. Two, three; four!  Five? six") (sized 12 3) 40 = Some cs
    /\ (length cs <= 4)%nat.
Proof.
  destruct (chunkText_count env0 (u16 "One. Two, three; four!  Five? six")
              (sized 12 3) ltac:(reflexivity)) as (cs & Hrun & Hcount & _).
  exists cs. split; [apply Hrun; vm_compute; lia |].
  destruct Hcount as [-> | Hcount]; [simpl; lia |].
  change (step (sized 12 3)) with 9 in Hcount.
  change (len (u16 "One. Two, three; four!  Five? six")) with 33 in Hcount. lia.
Defined.

(** X3: On a text that is not blank and longer than the window, [chunkText]
    returns if and only if the step is positive; it then returns the same
    chunks for every bound from the text length on, and with a step of
    zero or less no bound on the passes is enough. *)
Theorem chunkText_returns_iff (env : Env) (t : jsstring) (options : ChunkOptions) :
  trim t <> [] -> windowSize options < len t ->
  ((exists fuel cs, chunkText env t options fuel = Some cs) <-> 0 < step options)
  /\ (0 < step options ->
      exists cs, forall fuel, (length t <= fuel)%nat ->
        chunkText env t options fuel = Some cs)
  /\ (step options <= 0 -> forall fuel, chunkText env t options fuel = None).
Proof.
  intros Hblank Hlong. split_and!.
  - split.
    + intros (fuel & cs & Hrun). destruct (decide (0 < step options)) as [| Hstep]; [done |].
      rewrite chunkText_needs_positive_step in Hrun by (done || lia). done.
    + intros Hstep. destruct (chunkText_returns env t options Hstep) as [cs Hrun].
      exists (length t), cs. by apply Hrun.
  - apply chunkText_returns.
  - intros Hstep fuel. by apply chunkText_needs_positive_step.
Qed.

Lemma chunkText_returns_iff_witness :
  (forall fuel, chunkText env0 (u16 "abcdefghi") (sized 8 8) fuel = None)
  /\ exists fuel cs, chunkText env0 (u16 "abcdefghi") (sized 8 7) fuel = Some cs.
Proof.
  destruct (chunkText_returns_iff env0 (u16 "abcdefghi") (sized 8 8)) as (_ & _ & Hnone);
    [vm_compute; discriminate | reflexivity |].
  destruct (chunkText_returns_iff env0 (u16 "abcdefghi") (sized 8 7)) as (Hiff & _ & _);
    [vm_compute; discriminate | reflexivity |].
  split; [apply Hnone; vm_compute; discriminate | by apply Hiff].
Defined.

End ChunkShape.

(* ===================================================================== *)
(** ** Properties of the markdown chunker *)
(* ===================================================================== *)

Module MarkdownFacts.
Import Js Chunk ChunkSpec ChunkFacts ChunkShapeSpec ChunkShape Markdown MarkdownSpec.

(** *** Blank lines *)

Lemma leadingFeeds_two (l : jsstring) :
  l !! 0%nat = Some 10%N -> l !! 1%nat = Some 10%N -> (2 <= leadingFeeds l)%nat.
Proof.
  destruct l as [| a [| b l]]; try done. simpl. intros [= ->] [= ->]. simpl. lia.
Qed.

Lemma leadingFeeds_three (l : jsstring) :
  (2 < leadingFeeds l)%nat ->
  l !! 0%nat = Some 10%N /\ l !! 1%nat = Some 10%N /\ l !! 2%nat = Some 10%N.
Proof.
  destruct l as [| a l]; simpl; [lia |].
  destruct (N.eqb_spec a 10) as [-> |]; [| lia].
  destruct l as [| b l]; simpl; [lia |].
  destruct (N.eqb_spec b 10) as [-> |]; [| lia].
  destruct l as [| d l]; simpl; [lia |].
  destruct (N.eqb_spec d 10) as [-> |]; [done | lia].
Qed.

Lemma collapse_aux_spec (s : jsstring) :
  forall run,
  (leadingFeeds (collapse_aux run s) + Nat.min run 2 <= 2)%nat
  /\ noTripleFeed (collapse_aux run s).
Proof.
  induction s as [| c s IH]; intros run; simpl.
  { split; [lia |]. by intros i (H & _). }
  destruct (N.eqb_spec c 10) as [-> | Hc].
  - destruct (Nat.ltb_spec run 2) as [Hrun | Hrun].
    + destruct (IH (S run)) as [Hlead Hno]. split; [simpl; lia |].
      intros [| i] (H0 & H1 & H2); simpl in *.
      * pose proof (leadingFeeds_two _ H1 H2). lia.
      * by apply (Hno i).
    + destruct (IH (S run)) as [Hlead Hno]. split; [lia | done].
  - destruct (IH 0%nat) as [Hlead Hno]. split.
    + simpl. rewrite (proj2 (N.eqb_neq c 10)) by done. lia.
    + intros [| i] (H0 & H1 & H2); simpl in *; [by injection H0 |].
      by apply (Hno i).
Qed.

Lemma collapse_aux_other (s : list N) :
  forall run,
  filter (fun c => c <> 10%N) (collapse_aux run s) = filter (fun c => c <> 10%N) s
  /\ (length (collapse_aux run s) <= length s)%nat.
Proof.
  unfold jsstring.
  induction s as [| c s IH]; intros run; cbn [collapse_aux]; [done |].
  destruct (N.eqb_spec c 10) as [-> | Hc].
  - destruct (run <? 2)%nat; destruct (IH (S run)) as [Hf Hl].
    + rewrite !filter_cons_False by (intros H; by apply H).
      split; [done | simpl; lia].
    + rewrite filter_cons_False by (intros H; by apply H). split; [done | simpl; lia].
  - destruct (IH 0%nat) as [Hf Hl].
    rewrite !filter_cons_True by done. split; [f_equal; exact Hf | simpl; lia].
Qed.

Lemma collapse_aux_id (s : jsstring) :
  forall run, (leadingFeeds s + run <= 2)%nat -> noTripleFeed s ->
  collapse_aux run s = s.
Proof.
  induction s as [| c s IH]; intros run Hlead Hno; simpl; [done |].
  assert (noTripleFeed s) as Hno'.
  { intros i Hi. apply (Hno (S i)). by simpl. }
  simpl in Hlead. destruct (N.eqb_spec c 10) as [-> | Hc].
  - rewrite (proj2 (Nat.ltb_lt run 2)) by lia. f_equal. apply IH; [lia | done].
  - f_equal. apply IH; [| done].
    destruct (Nat.le_gt_cases (leadingFeeds s) 2) as [| Hmany]; [lia |].
    exfalso. by apply (Hno' 0%nat), leadingFeeds_three.
Qed.

(** X4: [chunkMarkdown]'s clean-up leaves no three line feeds in a row, keeps
    every other code unit in place and order, never makes the text
    longer, and changes nothing in a text that had no such run. *)
Theorem collapseBlankLines_spec (content : jsstring) :
  noTripleFeed (collapseBlankLines content)
  /\ filter (fun c => c <> 10%N) (collapseBlankLines content)
     = filter (fun c => c <> 10%N) content
  /\ (length (collapseBlankLines content) <= length content)%nat
  /\ (noTripleFeed content -> collapseBlankLines content = content).
Proof.
  unfold collapseBlankLines.
  destruct (collapse_aux_spec content 0) as [_ Hno].
  destruct (collapse_aux_other content 0) as [Hf Hl].
  split_and!; [done | done | done |].
  intros Hclean. destruct (Nat.le_gt_cases (leadingFeeds content) 2) as [Hle | Hmany].
  - apply collapse_aux_id; [lia | done].
  - exfalso. by apply (Hclean 0%nat), leadingFeeds_three.
Qed.

Lemma collapseBlankLines_spec_witness :
  collapseBlankLines [97; 10; 10; 98; 10; 99]%N = [97; 10; 10; 98; 10; 99]%N.
Proof.
  destruct (collapseBlankLines_spec [97; 10; 10; 98; 10; 99]%N) as (_ & _ & _ & Hid).
  apply Hid. intros i (H0 & H1 & H2).
  do 6 (destruct i as [| i]; [by vm_compute in H0, H1, H2 |]). done.
Defined.

(** *** Headers *)

Lemma slice_nat (s : jsstring) (a b : nat) :
  (a <= b <= length s)%nat ->
  slice s (Z.of_nat a) (Z.of_nat b) = take (b - a) (drop a s).
Proof.
  intros H. rewrite slice_window by (unfold len; lia).
  unfold rel_index. rewrite (proj2 (Z.ltb_ge (Z.of_nat b) 0)) by lia.
  rewrite Nat2Z.id. f_equal. unfold len. lia.
Qed.

Lemma countHashes_split (s : jsstring) :
  s = replicate (countHashes s) 35%N ++ drop (countHashes s) s.
Proof.
  induction s as [| c s IH]; [done |]. simpl.
  destruct (N.eqb_spec c 35) as [-> |]; [| done]. simpl. by f_equal.
Qed.

Lemma leadingSpace_take (s : jsstring) (w : nat) :
  (w <= leadingSpace s)%nat -> Forall (fun c => isWhiteSpace c = true) (take w s).
Proof.
  revert w. induction s as [| c s IH]; intros w Hw; [by rewrite take_nil |].
  destruct w as [| w]; [constructor |]. simpl in *.
  destruct (isWhiteSpace c) eqn:E; [| lia]. constructor; [done |]. apply IH. lia.
Qed.

Lemma pickSpace_spec (r : jsstring) (w0 w : nat) :
  pickSpace r w0 = Some w ->
  (1 <= w <= w0)%nat /\ exists c, r !! w = Some c /\ lineTerminator c = false.
Proof.
  induction w0 as [| k IH]; [done |]. cbn [pickSpace].
  destruct (r !! S k) as [c |] eqn:E.
  - destruct (lineTerminator c) eqn:El.
    + intros H. destruct (IH H) as [? ?]. split; [lia | done].
    + intros [= <-]. split; [lia |]. by exists c.
  - intros H. destruct (IH H) as [? ?]. split; [lia | done].
Qed.

Lemma lineRun_split (s : jsstring) :
  exists rest, s = lineRun s ++ rest
    /\ Forall (fun c => lineTerminator c = false) (lineRun s)
    /\ match rest with [] => True | c :: _ => lineTerminator c = true end.
Proof.
  induction s as [| c s (rest & Hs & Hrun & Hrest)]; [by exists [] |]. simpl.
  destruct (lineTerminator c) eqn:E.
  - by exists (c :: s).
  - exists rest. split_and!; [by rewrite <- app_comm_cons, <- Hs | by constructor | done].
Qed.

(** A match of the header pattern is a header line. *)
Lemma headerAt_spec (s : jsstring) (n : nat) (title : jsstring) :
  headerAt s = Some (n, title) -> headerLine n title s.
Proof.
  unfold headerAt. set (h := countHashes s). set (r := drop h s).
  destruct ((1 <=? h)%nat && (h <=? 6)%nat) eqn:Eh; [| done].
  apply andb_true_iff in Eh as [H1 H6].
  apply Nat.leb_le in H1. apply Nat.leb_le in H6.
  destruct (pickSpace r (leadingSpace r)) as [w |] eqn:Ew; [| done].
  intros [= <- <-].
  destruct (pickSpace_spec _ _ _ Ew) as (Hw & c & Hc & Hterm).
  pose proof (lookup_lt_Some _ _ _ Hc) as Hlt.
  destruct (lineRun_split (drop w r)) as (rest & Hsplit & Hrun & Hrest).
  exists h, (take w r), rest. split_and!; try done.
  - intros E. apply (f_equal length) in E. rewrite length_take in E. simpl in E. lia.
  - apply leadingSpace_take. lia.
  - rewrite (drop_S _ _ _ Hc). simpl. by rewrite Hterm.
  - rewrite <- Hsplit, take_drop. apply countHashes_split.
  - rewrite length_take. lia.
Qed.

Lemma headerLine_length (n : nat) (title s : jsstring) :
  headerLine n title s -> (1 <= n <= length s)%nat.
Proof.
  intros (h & ws & rest & Hh & _ & _ & _ & _ & -> & _ & ->).
  rewrite !length_app, length_replicate. lia.
Qed.

Lemma headerLine_take (n : nat) (title s : jsstring) (k : nat) :
  headerLine n title s -> (n <= k)%nat -> headerLine n title (take k s).
Proof.
  intros (h & ws & rest & Hh & Hws & Hsp & Ht & Hterm & -> & Hrest & ->) Hk.
  exists h, ws, (take (k - (h + length ws + length title)) rest).
  split_and!; try done; try lia.
  - rewrite !app_assoc. rewrite take_app_ge; rewrite !length_app, length_replicate.
    + done.
    + lia.
  - destruct rest as [| c rest]; [by rewrite take_nil |].
    by destruct (k - _)%nat.
Qed.

Lemma spaced_weaken (content : jsstring) (lo lo' : nat) (ms : list (nat * jsstring)) :
  (lo' <= lo)%nat -> spaced content lo ms -> spaced content lo' ms.
Proof.
  destruct ms as [| m rest]; [done |]. simpl.
  intros Hlo (Hm & n & Hn & Hrest). split; [lia |]. by exists n.
Qed.

Lemma headerMatches_aux_spaced (s : jsstring) :
  forall pre lineStart skip,
  spaced (pre ++ s) (length pre + skip) (headerMatches_aux s (length pre) lineStart skip).
Proof.
  induction s as [| c s IH]; intros pre lineStart skip; [done |].
  assert (forall b k, spaced (pre ++ c :: s) (S (length pre) + k)
            (headerMatches_aux s (S (length pre)) b k)) as Hnext.
  { intros b k. specialize (IH (pre ++ [c]) b k).
    rewrite <- app_assoc, length_app in IH. simpl in IH.
    by rewrite Nat.add_1_r in IH. }
  cbn [headerMatches_aux]. destruct skip as [| k].
  - destruct (if lineStart then headerAt (c :: s) else None) as [[n title] |] eqn:E.
    + destruct lineStart; [| done].
      pose proof (headerLine_length _ _ _ (headerAt_spec _ _ _ E)) as Hn.
      cbn [spaced fst snd]. split; [rewrite length_app; simpl; lia |].
      exists n. split; [by rewrite drop_app_length |].
      eapply spaced_weaken; [| apply Hnext]. lia.
    + eapply spaced_weaken; [| apply Hnext]. lia.
  - eapply spaced_weaken; [| apply Hnext]. lia.
Qed.

Lemma headerMatches_spaced (content : jsstring) :
  spaced content 0 (headerMatches content).
Proof. apply (headerMatches_aux_spaced content [] true 0%nat). Qed.

Lemma sectionsFrom_spec (content : jsstring) (ms : list (nat * jsstring)) :
  forall lo, spaced content lo ms ->
  Forall titled (sectionsFrom content ms)
  /\ concat (body <$> sectionsFrom content ms)
     = match ms with [] => [] | m :: _ => drop m.1 content end.
Proof.
  induction ms as [| [a t] rest IH]; intros lo Hsp; [by split |].
  destruct Hsp as (Ha & n & Hn & Hrest). cbn [fst snd] in *.
  apply headerAt_spec in Hn. pose proof (headerLine_length _ _ _ Hn) as Hlen.
  rewrite length_drop in Hlen.
  destruct (IH _ Hrest) as [Htitled Hconcat].
  cbn [sectionsFrom]. rewrite fmap_cons. cbn [concat body].
  rewrite Hconcat. destruct rest as [| [b t'] rest].
  - change (len content) with (Z.of_nat (length content)).
    rewrite slice_nat by lia. rewrite take_ge by (rewrite length_drop; lia).
    split; [| by rewrite app_nil_r].
    constructor; [| done]. by exists n.
  - destruct Hrest as (Hb & _). cbn [fst snd] in *.
    rewrite slice_nat by lia. split.
    + constructor; [| done]. exists n. simpl.
      apply headerLine_take; [done | lia].
    + replace (drop b content) with (drop (b - a) (drop a content)).
      * apply take_drop.
      * rewrite drop_drop. f_equal. lia.
Qed.

Lemma splitByHeaders_sections (content : jsstring) :
  match headerMatches content with
  | [] => True
  | (first, _) :: _ =>
      (first < length content)%nat
      /\ Forall titled (sectionsFrom content (headerMatches content))
      /\ concat (body <$> sectionsFrom content (headerMatches content))
         = drop first content
  end.
Proof.
  pose proof (headerMatches_spaced content) as Hsp.
  destruct (headerMatches content) as [| [first t] rest]; [done |].
  destruct (sectionsFrom_spec _ _ _ Hsp) as [Htitled Hconcat].
  destruct Hsp as (Hfirst & _). cbn [fst] in *. split; [lia | done].
Qed.

Lemma slice_head (s : jsstring) (n : nat) :
  (n <= length s)%nat -> slice s 0 (Z.of_nat n) = take n s.
Proof.
  intros Hn. change 0 with (Z.of_nat 0). rewrite slice_nat by lia.
  by rewrite drop_0, Nat.sub_0_r.
Qed.

Lemma splitByHeaders_concat (content : jsstring) :
  concat (body <$> splitByHeaders content) = content.
Proof.
  unfold splitByHeaders. pose proof (splitByHeaders_sections content) as H.
  destruct (headerMatches content) as [| [first t] rest]; [apply app_nil_r |].
  destruct H as (Hfirst & _ & Hconcat).
  rewrite fmap_app, concat_app, Hconcat.
  destruct (Nat.ltb_spec 0 first) as [Hpos | Hzero].
  - cbn [fmap list_fmap concat body]. rewrite app_nil_r, slice_head by lia.
    apply take_drop.
  - replace first with 0%nat by lia. done.
Qed.

(** X5: The sections [splitByHeaders] returns are the text cut in pieces:
    joined in order they give the text back; every section but a leading
    one without header opens with the header line it is named after (one
    to six hashes, white space, then the title, which is not empty and
    runs to the end of the line); and no section of a text that is not
    empty is empty. *)
Theorem splitByHeaders_partition (content : jsstring) :
  concat (body <$> splitByHeaders content) = content
  /\ (forall k s, splitByHeaders content !! k = Some s ->
        titled s \/ (k = 0%nat /\ header s = []))
  /\ (content <> [] -> Forall (fun s => body s <> []) (splitByHeaders content)).
Proof.
  split; [apply splitByHeaders_concat |].
  unfold splitByHeaders. pose proof (splitByHeaders_sections content) as H.
  destruct (headerMatches content) as [| [first t] rest].
  { split.
    - intros [| k] s; [intros [= <-]; by right | done].
    - intros Hne. by constructor. }
  destruct H as (Hfirst & Htitled & _).
  assert (Forall (fun s => body s <> []) (sectionsFrom content ((first, t) :: rest)))
    as Hfull.
  { eapply Forall_impl; [exact Htitled |]. intros s (n & Hn) Hnil.
    apply headerLine_length in Hn. rewrite Hnil in Hn. simpl in Hn. lia. }
  destruct (Nat.ltb_spec 0 first) as [Hpos | Hzero]; split.
  - intros [| k] s.
    + intros [= <-]. by right.
    + intros Hk. left. by apply (Forall_lookup_1 _ _ _ _ Htitled Hk).
  - intros _. constructor; [| done]. simpl. rewrite slice_head by lia.
    intros Hnil. apply (f_equal length) in Hnil. rewrite length_take in Hnil.
    simpl in Hnil. lia.
  - intros k s Hk. left. by apply (Forall_lookup_1 _ _ _ _ Htitled Hk).
  - done.
Qed.



(** *** Chunks of a markdown text *)

Lemma getProp_setProp (key key' value : jsstring) (m : Metadata) :
  getProp key (setProp key' value m)
  = if bool_decide (key' = key) then Some value else getProp key m.
Proof.
  induction m as [| [k v] m IH]; simpl; [done |].
  repeat case_bool_decide; simplify_eq; simpl;
    repeat case_bool_decide; simplify_eq; done.
Qed.

Lemma sectionOptions_tags (options : ChunkOptions) (sec : Section_) (c : TextChunk) :
  metadata c = optMetadata (sectionOptions options sec) -> markdownChunk options sec c.
Proof.
  intros Hm. eexists. split; [exact Hm |].
  assert (u16 "type" <> u16 "sectionHeader") as Hne by (by vm_compute).
  split_and!.
  - rewrite getProp_setProp. by rewrite bool_decide_eq_true_2.
  - rewrite !getProp_setProp. rewrite bool_decide_eq_false_2 by done.
    by rewrite bool_decide_eq_true_2.
  - intros key H1 H2. rewrite !getProp_setProp.
    by rewrite !bool_decide_eq_false_2.
Qed.

Lemma length_concat_elem (s : jsstring) (l : list jsstring) :
  s ∈ l -> (length s <= length (concat l))%nat.
Proof. induction 1; simpl; rewrite length_app; lia. Qed.

Lemma chunkSections_returns (envs : nat -> Env) (options : ChunkOptions) :
  0 < step options -> 0 <= windowSize options ->
  forall sections k, exists cs,
    (forall fuel, Forall (fun s => (length (body s) <= fuel)%nat) sections ->
       chunkSections envs fuel options k sections = Some cs)
    /\ Forall (fun c => exists sec env, sec ∈ sections
                 /\ shaped env (body sec) (sectionOptions options sec) c) cs.
Proof.
  intros Hstep Hsz. induction sections as [| sec rest IH]; intros k.
  { exists []. split; [done | constructor]. }
  cbn [chunkSections]. destruct (len (trim (body sec)) =? 0).
  - destruct (IH k) as (cs & Hrun & Hshape). exists cs. split.
    + intros fuel Hfuel. apply Forall_cons in Hfuel as [_ Hfuel]. by apply Hrun.
    + eapply Forall_impl; [exact Hshape |]. intros c (s & env & Hin & Hc).
      exists s, env. split; [by apply list_elem_of_further | done].
  - destruct (chunkText_returns (envs k) (body sec) (sectionOptions options sec) Hstep)
      as [chunks Hchunks].
    destruct (IH (S k)) as (more & Hmore & Hshape).
    exists (chunks ++ more). split.
    + intros fuel Hfuel. apply Forall_cons in Hfuel as [Hsec Hfuel].
      fold (sectionOptions options sec).
      by rewrite (Hchunks fuel Hsec), (Hmore fuel Hfuel).
    + apply Forall_app. split.
      * pose proof (chunkText_run_shaped (envs k) (body sec) (sectionOptions options sec)
                      (length (body sec)) chunks Hstep Hsz (Hchunks _ (le_n _))) as Hsh.
        eapply Forall_impl; [exact Hsh |]. intros c Hc.
        exists sec, (envs k). split; [apply list_elem_of_here | done].
      * eapply Forall_impl; [exact Hshape |]. intros c (s & env & Hin & Hc).
        exists s, env. split; [by apply list_elem_of_further | done].
Qed.

Lemma chunkMarkdown_runs (envs : nat -> Env) (content : jsstring) (options : ChunkOptions) :
  0 < step options -> 0 <= windowSize options ->
  exists cs,
    (forall fuel, (length content <= fuel)%nat ->
       chunkMarkdown envs fuel content options = Some cs)
    /\ Forall (fun c => exists sec env,
                 sec ∈ splitByHeaders (collapseBlankLines content)
                 /\ shaped env (body sec) (sectionOptions options sec) c) cs.
Proof.
  intros Hstep Hsz. unfold chunkMarkdown.
  set (cleaned := collapseBlankLines content).
  destruct (chunkSections_returns envs options Hstep Hsz (splitByHeaders cleaned) 0)
    as (cs & Hrun & Hshape).
  exists cs. split; [| done].
  intros fuel Hfuel. apply Hrun. apply Forall_forall. intros sec Hsec.
  pose proof (splitByHeaders_concat cleaned) as Hcat.
  assert (body sec ∈ body <$> splitByHeaders cleaned) as Hin
    by (by apply list_elem_of_fmap_2).
  apply length_concat_elem in Hin. rewrite Hcat in Hin.
  destruct (collapse_aux_other content 0) as [_ Hlen].
  fold (collapseBlankLines content) in Hlen. fold cleaned in Hlen. lia.
Qed.

(** X6: With a positive step and a window size that is not negative
    [chunkMarkdown] returns, and each chunk comes from one section of the
    cleaned text: its metadata has type [markdown] and that section's
    header, whatever the caller's metadata said under these two keys, and
    keeps the caller's other entries; its text is not empty, is trimmed
    and fits the window; its offset counts from the start of the section,
    not of the text. *)
Theorem chunkMarkdown_chunks (envs : nat -> Env) (content : jsstring)
    (options : ChunkOptions) :
  0 < step options -> 0 <= windowSize options ->
  exists cs,
    (forall fuel, (length content <= fuel)%nat ->
       chunkMarkdown envs fuel content options = Some cs)
    /\ Forall (fun c => exists sec,
                 sec ∈ splitByHeaders (collapseBlankLines content)
                 /\ markdownChunk options sec c
                 /\ text c <> [] /\ trim (text c) = text c
                 /\ len (text c) <= windowSize options
                 /\ 0 <= offset c < len (body sec)) cs.
Proof.
  intros Hstep Hsz.
  destruct (chunkMarkdown_runs envs content options Hstep Hsz) as (cs & Hrun & Hshape).
  exists cs. split; [done |].
  eapply Forall_impl; [exact Hshape |].
  intros c (sec & env & Hin & Hne & Htrim & Hlen & Hoff & _ & _ & _ & _ & Hmeta).
  exists sec. split_and!; try done; try lia.
  by apply sectionOptions_tags.
Qed.

Lemma chunkMarkdown_chunks_witness :
  exists cs,
    chunkMarkdown (fun _ => env0) 40
      (u16 "intro" ++ [10; 10; 10; 10]%N ++ u16 "# One" ++ [10]%N ++ u16 "first, second; third")
      (sized 12 3) = Some cs
    /\ Forall (fun c => text c <> [] /\ len (text c) <= 12) cs.
Proof.
  destruct (chunkMarkdown_chunks (fun _ => env0)
              (u16 "intro" ++ [10; 10; 10; 10]%N ++ u16 "# One" ++ [10]%N
                 ++ u16 "first, second; third")
              (sized 12 3) ltac:(reflexivity) ltac:(vm_compute; discriminate))
    as (cs & Hrun & Hshape).
  exists cs. split; [apply Hrun; vm_compute; lia |].
  eapply Forall_impl; [exact Hshape |].
  intros c (sec & _ & _ & Hne & _ & Hlen & _). done.
Defined.

End MarkdownFacts.

(* ===================================================================== *)
(** ** Further properties of the vector store *)
(* ===================================================================== *)

Module StoreIOFacts.
Import Js JsNumber NumberFacts Chunk FaissStore FlatIndex JsFacts FlatIndexFacts.
Import StoreSpec StoreFacts StoreIO StoreIOSpec.

(** *** Writing and reading back *)

Lemma new_Map_snoc (l : list (number * TextChunk)) (e : number * TextChunk) :
  new_Map (l ++ [e]) = <[e.1 := e.2]> (new_Map l).
Proof. unfold new_Map. by rewrite foldl_app. Qed.

Lemma new_Map_rev (l : list (number * TextChunk)) : new_Map l = list_to_map (reverse l).
Proof.
  induction l as [| e l IH] using rev_ind; [done |].
  by rewrite new_Map_snoc, reverse_snoc, IH.
Qed.

(** [new Map] of the entries of a map is that map. *)
Lemma new_Map_entries (docs : gmap number TextChunk) : new_Map (entries docs) = docs.
Proof.
  unfold entries. rewrite new_Map_rev.
  rewrite <- (list_to_map_to_list docs) at 2.
  apply list_to_map_proper; [| apply reverse_Permutation].
  rewrite fmap_reverse, reverse_Permutation. apply NoDup_fst_map_to_list.
Qed.

Section PersistFacts.
Context {I : Type} `{IndexFlatIP I} `{!IndexWrite I} `{!IndexWriteLaws I}.
Variable JSON_stringify : MetaDoc -> jsstring.

Lemma save_files (fs : FileSystem) (st : FaissVectorStore I) (i : I) :
  index st = Some i -> indexPath st <> metaPath st ->
  exists fs',
    save JSON_stringify fs st
    = (Ok (), fs',
       {| index := Some i; documents := documents st; nextId := nextId st;
          indexPath := indexPath st; metaPath := metaPath st; isDirty := false |})
    /\ fs' !! indexPath st = Some (index_write i)
    /\ fs' !! metaPath st = Some (JSON_stringify (metadataOf st))
    /\ (forall p, p <> indexPath st -> p <> metaPath st -> fs' !! p = fs !! p).
Proof.
  intros Hi Hpaths. unfold save. rewrite Hi. eexists. split; [reflexivity |].
  split_and!.
  - rewrite lookup_insert_ne by done. apply lookup_insert_eq.
  - apply lookup_insert_eq.
  - intros p H1 H2. by rewrite !lookup_insert_ne.
Qed.

End PersistFacts.

#[export] Instance filed_write_laws : IndexWriteLaws filed.
Proof.
  split. intros [i]. simpl. unfold filed_read. by rewrite decode_encode.
Qed.

Lemma meta_round_trip (m : MetaDoc) : meta_parse (meta_write m) = Some (JsonValue m).
Proof. unfold meta_parse, meta_write. by rewrite decode_encode. Qed.

(** X7: A store with unsaved changes, an index and two distinct paths, when
    flushed, writes both files and nothing else and is clean afterwards;
    when [JSON.parse] reads the metadata back as [JSON.stringify] wrote
    it, a new store on the same paths that is initialised from these
    files is the very store that was flushed, with its documents, its id
    counter and its index; and another flush writes nothing. *)
Theorem flush_round_trip {I} `{IndexFlatIP I} `{!IndexWrite I} `{!IndexWriteLaws I}
    (JSON_parse : jsstring -> option Parsed) (JSON_stringify : MetaDoc -> jsstring)
    (fs : FileSystem) (st : FaissVectorStore I) (i : I) :
  JSON_parse (JSON_stringify (metadataOf st)) = Some (JsonValue (metadataOf st)) ->
  index st = Some i -> indexPath st <> metaPath st -> isDirty st = true ->
  exists fs' st',
    flush JSON_stringify fs st = (Ok (), fs', st')
    /\ index st' = Some i /\ documents st' = documents st /\ nextId st' = nextId st
    /\ isDirty st' = false
    /\ initialize JSON_parse fs' (construct (indexPath st) (metaPath st)) = (Ok (), st')
    /\ flush JSON_stringify fs' st' = (Ok (), fs', st')
    /\ (forall p, p <> indexPath st -> p <> metaPath st -> fs' !! p = fs !! p).
Proof.
  intros Hjson Hi Hpaths Hdirty.
  destruct (save_files JSON_stringify fs st i Hi Hpaths) as (fs' & Hsave & Hib & Hmb & Hrest).
  unfold flush at 1. rewrite Hdirty, Hsave. eexists _, _. split; [reflexivity |].
  split_and!; try done.
  unfold initialize. cbn [construct indexPath metaPath].
  rewrite (existsSync_true _ _ _ Hib), (existsSync_true _ _ _ Hmb). simpl.
  unfold load. cbn [construct indexPath metaPath]. rewrite Hib, Hmb, index_read_write, Hjson.
  cbn [metadataOf meta_documents meta_nextId mapOf]. by rewrite new_Map_entries.
Qed.

Lemma flush_round_trip_witness :
  exists fs' st',
    flush meta_write ∅ store3 = (Ok (), fs', st')
    /\ initialize meta_parse fs' (construct ip mp) = (Ok (), st')
    /\ nextId st' = Some (ofZ 6)
    /\ documents st' !! ofZ 0 = Some (sample "a") /\ documents st' !! ofZ 1 = None.
Proof.
  destruct (flush_round_trip meta_parse meta_write ∅ store3
              {| filed_flat := {| flat_d := DIMENSION;
                                  flat_xb := [axis 0; axis 1; axis 2; axis 0; axis 1; axis 2] |} |}
              (meta_round_trip _) ltac:(reflexivity) ltac:(by vm_compute) ltac:(reflexivity))
    as (fs' & st' & Hflush & _ & Hdocs & Hnext & _ & Hinit & _).
  exists fs', st'. rewrite Hdocs, Hnext.
  split; [exact Hflush |]. split; [exact Hinit |].
  split; [vm_compute; reflexivity |]. split; vm_compute; reflexivity.
Defined.

(** *** Ids and labels *)

Section Alignment.
Context {I : Type} `{IndexFlatIP I} `{!IndexContents I} `{!IndexContentsLaws I}.

Lemma index_vectors_foldl (vs : list vector) :
  forall i : I, index_vectors (foldl index_add i vs) = index_vectors i ++ vs.
Proof.
  induction vs as [| v vs IH]; intros i; simpl; [by rewrite app_nil_r |].
  by rewrite IH, index_vectors_add, <- app_assoc.
Qed.

Lemma aligned_fresh (ipath mpath : jsstring) :
  aligned (with_fresh_index (construct ipath mpath : FaissVectorStore I)) [].
Proof.
  exists (index_new DIMENSION).
  split_and!; [done | apply index_vectors_new | by vm_compute | by vm_compute |].
  intros id c Hc. cbn [with_fresh_index construct documents] in Hc.
  by rewrite lookup_empty in Hc.
Qed.

Lemma aligned_grow (st : FaissVectorStore I) (log more : list (TextChunk * vector))
    (i : I) (docs : gmap number TextChunk) (dirty : bool) :
  aligned st log ->
  Z.of_nat (length (log ++ more)) <= MAX_EXACT ->
  index_vectors i = (log ++ more).*2 ->
  (forall (j : nat) it, more !! j = Some it ->
     docs !! ofZ (Z.of_nat (length log) + Z.of_nat j) = Some it.1) ->
  (forall y, y ∉ ofZ <$> seqZ (Z.of_nat (length log)) (Z.of_nat (length more)) ->
     docs !! y = documents st !! y) ->
  aligned {| index := Some i; documents := docs;
             nextId := Some (ofZ (Z.of_nat (length log) + Z.of_nat (length more)));
             indexPath := indexPath st; metaPath := metaPath st; isDirty := dirty |}
          (log ++ more).
Proof.
  intros (i0 & Hi0 & Hvec & Hnext & Hmax & Hdocs) Hroom Hi Hin Hout.
  exists i. cbn [index documents nextId]. split_and!; [done | done | | done |].
  { rewrite length_app. do 2 f_equal. lia. }
  intros id c Hc.
  destruct (decide (id ∈ ofZ <$> seqZ (Z.of_nat (length log)) (Z.of_nat (length more))))
    as [Hnew | Hold].
  - apply list_elem_of_fmap_1 in Hnew as (z & -> & Hz). apply elem_of_seqZ in Hz.
    set (j := Z.to_nat (z - Z.of_nat (length log))).
    destruct (lookup_lt_is_Some_2 more j ltac:(lia)) as [[c' v] Hj].
    specialize (Hin j _ Hj).
    replace (Z.of_nat (length log) + Z.of_nat j) with z in Hin by lia.
    rewrite Hc in Hin. injection Hin as ->. exists (length log + j)%nat, v.
    split; [f_equal; lia |]. rewrite lookup_app_r by lia. rewrite <- Hj. f_equal. lia.
  - rewrite Hout in Hc by done. destruct (Hdocs id c Hc) as (j & v & -> & Hv).
    exists j, v. split; [done |]. by apply lookup_app_l_Some.
Qed.

Lemma aligned_step (st : FaissVectorStore I) (log : list (TextChunk * vector)) (o : op) :
  aligned st log -> Z.of_nat (length (log ++ acceptedItems o)) <= MAX_EXACT ->
  aligned (step_op st o).2 (log ++ acceptedItems o).
Proof.
  intros Hal Hroom. pose proof Hal as (i & Hi & Hvec & Hnext & Hmax & Hdocs).
  assert (0 <= MAX_EXACT) as Hpos by done.
  destruct o as [c e | items | id]; simpl in *.
  - unfold add. rewrite Hi. destruct (decide (length e = DIMENSION)) as [E | E].
    + rewrite bool_decide_eq_false_2 by (intros Hne; by apply Hne).
      rewrite bool_decide_eq_true_2 in Hroom |- * by done.
      rewrite length_app in Hroom. simpl in Hroom.
      rewrite Hnext. cbn [postIncrement ToNumeric fst snd].
      rewrite plusOne_ofZ by lia.
      pose proof (aligned_grow st log [(c, e)] (index_add i e)
                    (<[ofZ (Z.of_nat (length log)) := c]> (documents st)) true Hal) as Hgrow.
      simpl in Hgrow. apply Hgrow.
      * rewrite length_app. simpl. lia.
      * by rewrite index_vectors_add, Hvec, fmap_app.
      * intros [| j] it Hj; [| done]. injection Hj as <-.
        rewrite Z.add_0_r. apply lookup_insert_eq.
      * intros y Hy. apply lookup_insert_ne. intros <-. apply Hy.
        replace (Z.of_nat 0 + Z.of_nat (length log)) with (Z.of_nat (length log)) by lia.
        apply list_elem_of_here.
    + rewrite bool_decide_eq_true_2 by done.
      rewrite bool_decide_eq_false_2 by done. simpl. by rewrite app_nil_r.
  - unfold addBatch. rewrite Hi. simpl.
    rewrite length_app in Hroom.
    destruct (addBatch_loop_integers items
                {| b_index := i; b_documents := documents st;
                   b_nextId := nextId st; b_ids := [] |} (Z.of_nat (length log)))
      as (_ & _ & Hn & Hidx & Hin & Hout); [done | lia | lia |].
    simpl in Hn, Hidx, Hin, Hout. rewrite Hn.
    apply aligned_grow; [done | rewrite length_app; lia | | done | done].
    by rewrite Hidx, index_vectors_foldl, Hvec, fmap_app.
  - rewrite app_nil_r. unfold deleteDocument. case_bool_decide; [| done]. simpl.
    exists i. split_and!; [done | done | done | done |].
    intros k c Hc. cbn [documents] in Hc.
    apply lookup_delete_Some in Hc as [_ Hc]. by apply Hdocs.
Qed.

Lemma run_snd_cons (st : FaissVectorStore I) (o : op) (ops : list op) :
  (run st (o :: ops)).2 = (run (step_op st o).2 ops).2.
Proof.
  simpl. destruct (step_op st o) as [ids st']. simpl.
  by destruct (run st' ops).
Qed.

Lemma run_aligned (ops : list op) :
  forall (st : FaissVectorStore I) log,
  aligned st log -> Z.of_nat (length (log ++ journal ops)) <= MAX_EXACT ->
  aligned (run st ops).2 (log ++ journal ops).
Proof.
  induction ops as [| o ops IH]; intros st log Hal Hroom.
  { simpl. by rewrite app_nil_r. }
  rewrite run_snd_cons. unfold journal in *. rewrite fmap_cons in *. cbn [concat] in *.
  rewrite app_assoc in *. apply IH; [| done]. apply aligned_step; [done |].
  rewrite length_app in Hroom. lia.
Qed.

Lemma search_aligned (st : FaissVectorStore I) (log : list (TextChunk * vector))
    (q : vector) (k : option nat) :
  aligned st log ->
  exists rs, search st q k = Ok rs
    /\ Forall (fun r => exists j : nat,
                 sr_id r = ofZ (Z.of_nat j)
                 /\ lt (sr_id r) zero = false /\ lt (sr_id r) (counter st) = true
                 /\ documents st !! sr_id r = Some (chunk r)
                 /\ exists v, log !! j = Some (chunk r, v)
                              /\ (distance r == 1 - dot q v)%Q) rs.
Proof.
  intros (i & Hi & Hvec & Hnext & Hmax & Hdocs). unfold search. rewrite Hi.
  case_bool_decide; [by exists [] |]. eexists. split; [reflexivity |].
  apply Forall_forall. intros r Hr.
  destruct (collect_elem _ _ _ Hr) as (e & He & Hdist & Hid & Hsign & Hdoc).
  destruct (Hdocs _ _ Hdoc) as (j & v & Hj & Hv).
  pose proof (lookup_lt_Some _ _ _ Hv) as Hlt.
  destruct (index_search_labels _ _ _ _ He) as [Hneg | (_ & v' & Hv' & Hscore)]; [lia |].
  rewrite Hvec, list_lookup_fmap in Hv'.
  assert (Z.to_nat e.1 < length log)%nat as Hlabel.
  { destruct (log !! Z.to_nat e.1) eqn:E; [by apply lookup_lt_Some in E | done]. }
  assert (e.1 = Z.of_nat j) as Hsame.
  { apply ofZ_inj; [lia | lia | done]. }
  rewrite Hsame, Nat2Z.id, Hv in Hv'. injection Hv' as <-.
  exists j. rewrite Hid, Hsame. unfold counter. rewrite Hnext. cbn [ToNumeric].
  split_and!; [done | | | by rewrite <- Hsame | ].
  - rewrite lt_ofZ_zero. apply Z.ltb_ge. lia.
  - rewrite lt_ofZ by lia. apply Z.ltb_lt. lia.
  - exists v. split; [done |]. by rewrite Hdist, Hscore.
Qed.

End Alignment.

#[export] Instance flat_contents_laws : IndexContentsLaws flat.
Proof.
  split; [done | done |].
  intros i q k e He. simpl in He. unfold flat_search, pad in He.
  apply elem_of_app in He as [He | He].
  - apply elem_of_take in He as (j & Hj & _).
    apply list_elem_of_lookup_2 in Hj. rewrite (sort_perm by_score) in Hj.
    apply elem_of_lookup_imap_1 in Hj as (n & v & -> & Hv).
    right. simpl. split; [lia |]. exists v. rewrite Nat2Z.id. by split.
  - apply elem_of_replicate in He as [-> _]. left. simpl. lia.
Qed.

Lemma run_index {I} `{IndexFlatIP I} (ops : list op) :
  forall (st : FaissVectorStore I) (i : I), index st = Some i ->
  is_Some (index (run st ops).2).
Proof.
  induction ops as [| o ops IH]; intros st i Hinit; simpl.
  { by eexists. }
  destruct (step_op_ids st i o Hinit) as (_ & _ & [i' Hinit']).
  destruct (step_op st o) as [ids st'] eqn:Estep. simpl in *.
  specialize (IH st' i' Hinit').
  by destruct (run st' ops) as [ids' st''] eqn:Erun.
Qed.

Lemma search_held {I} `{IndexFlatIP I} (st : FaissVectorStore I) (i : I)
    (q : vector) (k : option nat) :
  index st = Some i ->
  exists rs, search st q k = Ok rs
    /\ Forall (fun r => lt (sr_id r) zero = false
                        /\ documents st !! sr_id r = Some (chunk r)) rs.
Proof.
  intros Hi. unfold search. rewrite Hi.
  case_bool_decide; [by exists [] |]. eexists. split; [reflexivity |].
  apply Forall_forall. intros r Hr.
  destruct (collect_elem _ _ _ Hr) as (e & _ & _ & Hid & Hsign & Hdoc).
  rewrite Hid. split; [| done]. rewrite lt_ofZ_zero. apply Z.ltb_ge. lia.
Qed.

(** X8: On a store that started with a new index and then saw any sequence
    of [add], [addBatch] and [deleteDocument], [search] answers, and
    every hit names a document the store holds, under an id that is not
    negative, and gives the chunk stored under that id.  When the
    sequence took no more than [2^53] vectors, so that the counter has
    counted exactly, the id lies below the counter and the distance of
    the hit is that of the embedding the chunk was added with: ids and
    index labels stay in step, also after deletions and skipped items. *)
Theorem search_returns_stored {I} `{IndexFlatIP I} `{!IndexContents I}
    `{!IndexContentsLaws I} (ipath mpath : jsstring) (ops : list op)
    (q : vector) (k : option nat) :
  let st : FaissVectorStore I := (run (with_fresh_index (construct ipath mpath)) ops).2 in
  exists rs, search st q k = Ok rs
    /\ Forall (fun r => lt (sr_id r) zero = false
                        /\ documents st !! sr_id r = Some (chunk r)) rs
    /\ (Z.of_nat (length (journal ops)) <= MAX_EXACT ->
        Forall (fun r => exists j : nat,
                  sr_id r = ofZ (Z.of_nat j)
                  /\ lt (sr_id r) zero = false /\ lt (sr_id r) (counter st) = true
                  /\ documents st !! sr_id r = Some (chunk r)
                  /\ exists v, journal ops !! j = Some (chunk r, v)
                               /\ (distance r == 1 - dot q v)%Q) rs).
Proof.
  intros st.
  destruct (run_index ops (with_fresh_index (construct ipath mpath : FaissVectorStore I))
              (index_new DIMENSION) eq_refl) as [i Hi].
  destruct (search_held st i q k Hi) as (rs & Hrun & Hheld).
  exists rs. split; [done |]. split; [done |]. intros Hroom.
  destruct (search_aligned st (journal ops) q k) as (rs' & Hrun' & Hall).
  { apply (run_aligned ops _ [] (aligned_fresh ipath mpath) Hroom). }
  rewrite Hrun in Hrun'. by injection Hrun' as <-.
Qed.

Lemma search_returns_stored_witness :
  exists rs, search (run store1 ops6).2 (axis 2) (Some 3%nat) = Ok rs
    /\ Forall (fun r => exists (j : nat) v, sr_id r = ofZ (Z.of_nat j)
                          /\ journal ops6 !! j = Some (chunk r, v)
                          /\ (distance r == 1 - dot (axis 2) v)%Q) rs.
Proof.
  destruct (search_returns_stored (I := flat) ip mp ops6 (axis 2) (Some 3%nat))
    as (rs & Hrun & _ & Hall).
  exists rs. split; [exact Hrun |].
  eapply Forall_impl; [apply Hall; by vm_compute |].
  intros r (j & Hid & _ & _ & _ & v & Hv). exists j, v. exact (conj Hid Hv).
Defined.

(** *** Deleting *)

(** X9: [deleteDocument] answers whether the store held the document; after
    it the id is gone, the other documents, the id counter and the index
    are as before, the count is one less when there was a document, and
    no search returns the id, though its vector stays in the index. *)
Theorem deleteDocument_hides {I} `{IndexFlatIP I} (st : FaissVectorStore I) (id : number) :
  let found := (deleteDocument st id).1 in
  let st' := (deleteDocument st id).2 in
  (found = true <-> is_Some (getDocument st id))
  /\ getDocument st' id = None
  /\ (forall k, k <> id -> getDocument st' k = getDocument st k)
  /\ index st' = index st /\ nextId st' = nextId st
  /\ getDocumentCount st = ((if found then 1 else 0) + getDocumentCount st')%nat
  /\ (forall q k rs, search st' q k = Ok rs -> id ∉ sr_id <$> rs).
Proof.
  unfold deleteDocument, getDocument, getDocumentCount.
  assert (forall (st' : FaissVectorStore I), documents st' !! id = None ->
            forall q k rs, search st' q k = Ok rs -> id ∉ sr_id <$> rs) as Hsearch.
  { intros st' Hgone q k rs Hrun Hin. unfold search in Hrun.
    destruct (index st') as [i |]; [| done].
    apply list_elem_of_fmap_1 in Hin as (r & -> & Hr).
    case_bool_decide; injection Hrun as <-; [by apply elem_of_nil in Hr |].
    destruct (collect_elem _ _ _ Hr) as (e & _ & _ & Hid & _ & Hdoc).
    rewrite <- Hid in Hdoc. by rewrite Hgone in Hdoc. }
  case_bool_decide as Hdoc; simpl.
  - split_and!; try done.
    + apply lookup_delete_eq.
    + intros k Hk. by apply lookup_delete_ne.
    + rewrite map_size_delete_Some by done.
      pose proof (map_size_ne_0_lookup_2 _ _ Hdoc). lia.
    + apply Hsearch. simpl. apply lookup_delete_eq.
  - assert (documents st !! id = None) as Hnone.
    { by apply eq_None_not_Some. }
    split_and!; try done. by apply Hsearch.
Qed.

(** *** The store of the module *)

(** X10: A first [getVectorStore] that fails still leaves the store it made
    in the module variable: every later call answers with that store,
    whatever the files and its options then are, and does not initialise
    it again.  The store holds no document; when the index blob was the
    one that could not be read it has no index either, so that [add],
    [search] and [save] on it throw. *)
Theorem getVectorStore_failure_sticks {I} `{IndexFlatIP I} `{!IndexWrite I}
    (JSON_parse : jsstring -> option Parsed) (JSON_stringify : MetaDoc -> jsstring)
    (dip dmp : jsstring) (fs : FileSystem) (options : option jsstring * option jsstring)
    (e : exn) (g : option (FaissVectorStore I)) :
  getVectorStore JSON_parse dip dmp fs None options = (Throw e, g) ->
  exists st, g = Some st
    /\ documents st = ∅
    /\ e ∈ [IndexReadFailure; MetaParseFailure; MetaShapeFailure]
    /\ (forall fs' options',
          getVectorStore JSON_parse dip dmp fs' g options' = (Ok (), g))
    /\ (e = IndexReadFailure ->
        (forall c v, add st c v = (Throw NotInitialized, st))
        /\ (forall q k, search st q k = Throw NotInitialized)
        /\ (forall fs', save JSON_stringify fs' st = (Throw NotInitialized, fs', st))).
Proof.
  unfold getVectorStore, initialize, load.
  set (st0 := newStore dip dmp options).
  destruct (existsSync fs (indexPath st0) && existsSync fs (metaPath st0)) eqn:E; [| done].
  apply andb_true_iff in E as [[blob Eb]%bool_decide_eq_true_1 [content Ec]%bool_decide_eq_true_1].
  rewrite Eb, Ec.
  destruct (index_read blob) as [i |].
  - destruct (JSON_parse content) as [[| m] |].
    + intros [= <- <-]. eexists. split_and!; [done | done | | done | done].
      apply list_elem_of_In. simpl. tauto.
    + destruct (mapOf (meta_documents m)); [done |].
      intros [= <- <-]. eexists. split_and!; [done | done | | done | done].
      apply list_elem_of_In. simpl. tauto.
    + intros [= <- <-]. eexists. split_and!; [done | done | | done | done].
      apply list_elem_of_In. simpl. tauto.
  - intros [= <- <-]. eexists. split_and!; [done | done | | done | done].
    apply list_elem_of_here.
Qed.

Lemma getVectorStore_failure_sticks_witness :
  exists st : FaissVectorStore filed,
    getVectorStore meta_parse ip mp fs_unreadable None (None, None)
    = (Throw IndexReadFailure, Some st)
    /\ getVectorStore meta_parse ip mp ∅ (Some st) (Some (u16 "other.index"), None)
       = (Ok (), Some st)
    /\ (add st (sample "a") (axis 0)).1 = Throw NotInitialized.
Proof.
  assert (getVectorStore (I := filed) meta_parse ip mp fs_unreadable None (None, None)
          = (Throw IndexReadFailure, Some (construct ip mp))) as Hcall by reflexivity.
  destruct (getVectorStore_failure_sticks meta_parse meta_write ip mp
              fs_unreadable (None, None) IndexReadFailure _ Hcall)
    as (st & Hst & _ & _ & Hlater & Hdead).
  exists st. destruct (Hdead eq_refl) as (Hadd & _).
  split_and!; [rewrite <- Hst; exact Hcall | rewrite <- Hst; apply Hlater | by rewrite Hadd].
Defined.

End StoreIOFacts.

(* ===================================================================== *)
(** ** Properties of the embeddings and of task processing *)
(* ===================================================================== *)

Module EmbeddingsFacts.
Import Js FaissStore Embeddings EmbeddingsSpec.

Lemma mapM_app_option {A B} (f : A -> option B) (l1 l2 : list A) :
  mapM f (l1 ++ l2)
  = match mapM f l1, mapM f l2 with
    | Some a, Some b => Some (a ++ b)
    | _, _ => None
    end.
Proof.
  induction l1 as [| x l1 IH]; simpl.
  - by destruct (mapM f l2).
  - destruct (f x); simpl; [| done]. rewrite IH.
    destruct (mapM f l1); simpl; [| done]. by destruct (mapM f l2).
Qed.

(** Enough passes embed all that is left of the texts. *)
Lemma embedBatches_spec (p : Pipeline) (texts : list jsstring) (passes : nat) :
  forall i embeddings,
  (length (drop i texts) <= batchSize * passes)%nat ->
  embedBatches p passes texts i embeddings
  = match mapM p (drop i texts) with
    | Some rest => Done (embeddings ++ rest)
    | None => Rejected
    end.
Proof.
  induction passes as [| passes IH]; intros i embeddings Hlen; cbn [embedBatches].
  - rewrite (nil_length_inv (drop i texts)) by lia. simpl. by rewrite app_nil_r.
  - rewrite <- (take_drop batchSize (drop i texts)) at 2.
    rewrite mapM_app_option, drop_drop.
    destruct (mapM p (take batchSize (drop i texts))) as [batchResults |]; [| done].
    rewrite IH.
    + destruct (mapM p (drop (i + batchSize) texts)); [| done].
      by rewrite app_assoc.
    + rewrite length_drop in *. unfold batchSize in *. lia.
Qed.

Lemma passes_enough (n : nat) : (n <= batchSize * ((n + batchSize - 1) / batchSize))%nat.
Proof.
  unfold batchSize. pose proof (Nat.div_mod_eq (n + 32 - 1) 32) as Hdiv.
  pose proof (Nat.mod_upper_bound (n + 32 - 1) 32). lia.
Qed.

(** With the pipeline at hand [embedTexts] is the pipeline applied to
    each text. *)
Lemma embedTexts_run (loadModel : option Pipeline) (p : Pipeline) (texts : list jsstring) :
  embedTexts loadModel (Some p) texts
  = (match mapM p texts with Some vs => Done vs | None => Rejected end, Some p).
Proof.
  unfold embedTexts. case_bool_decide as Hnil; [by subst texts |].
  rewrite embedBatches_spec; [by rewrite drop_0 |].
  rewrite drop_0. apply passes_enough.
Qed.

Lemma embedText_run (loadModel : option Pipeline) (p : Pipeline) (t : jsstring) :
  embedText loadModel (Some p) t
  = (match p t with Some v => Done v | None => Rejected end, Some p).
Proof. unfold embedText. by destruct (p t). Qed.

(** X11: When the pipeline is loaded, or can be, [embedTexts] answers with
    the embeddings [vs] exactly when [embedText] answers each text with
    the embedding at its position, so there is one embedding per text in
    the order of the texts, however the texts fall into batches; and it
    rejects as soon as one text is rejected.  For no text at all it
    answers at once, also when the model cannot be loaded. *)
Theorem embedTexts_maps (loadModel embeddingPipeline : option Pipeline) (p : Pipeline)
    (texts : list jsstring) :
  embeddingPipeline = Some p \/ (embeddingPipeline = None /\ loadModel = Some p) ->
  (forall vs, (embedTexts loadModel embeddingPipeline texts).1 = Done vs <->
              Forall2 (fun t v => (embedText loadModel embeddingPipeline t).1 = Done v)
                      texts vs)
  /\ ((embedTexts loadModel embeddingPipeline texts).1 = Rejected <->
      Exists (fun t => (embedText loadModel embeddingPipeline t).1 = Rejected) texts)
  /\ (forall vs, (embedTexts loadModel embeddingPipeline texts).1 = Done vs ->
        length vs = length texts)
  /\ (forall load ep, embedTexts load ep [] = (Done [], ep)).
Proof.
  intros Hready.
  assert ((embedTexts loadModel embeddingPipeline texts).1
          = match mapM p texts with Some vs => Done vs | None => Rejected end) as Hall.
  { destruct Hready as [-> | [-> ->]]; [by rewrite embedTexts_run |].
    unfold embedTexts. case_bool_decide as Hnil; [by subst texts |].
    cbn [initEmbeddings fst]. rewrite embedBatches_spec; [by rewrite drop_0 |].
    rewrite drop_0. apply passes_enough. }
  assert (forall t, (embedText loadModel embeddingPipeline t).1
                    = match p t with Some v => Done v | None => Rejected end) as Hone.
  { intros t. destruct Hready as [-> | [-> ->]]; [by rewrite embedText_run |].
    unfold embedText. cbn [initEmbeddings]. by destruct (p t). }
  assert (forall vs, (embedTexts loadModel embeddingPipeline texts).1 = Done vs <->
            Forall2 (fun t v => (embedText loadModel embeddingPipeline t).1 = Done v)
                    texts vs) as Hiff.
  { intros vs. rewrite Hall. etrans; [| etrans; [apply (mapM_Some p texts vs) |]].
    - destruct (mapM p texts); split; congruence.
    - split; intros HF; (eapply Forall2_impl; [exact HF |]);
        intros t v; cbv beta; rewrite Hone; destruct (p t); congruence. }
  split_and!; [done | | | done].
  - rewrite Hall. etrans; [| etrans; [apply (mapM_None p texts) |]].
    + by destruct (mapM p texts).
    + split; intros HE; (eapply Exists_impl; [exact HE |]);
        intros t; cbv beta; rewrite Hone; by destruct (p t).
  - intros vs Hvs. apply Hiff in Hvs. symmetry. by eapply Forall2_length.
Qed.

Lemma embedTexts_maps_witness :
  exists vs,
    (embedTexts (Some byLength) None (replicate 40 (u16 "ab"))).1 = Done vs
    /\ length vs = 40%nat
    /\ (embedTexts (Some byLength) None (replicate 40 (u16 "ab") ++ [[]])).1 = Rejected.
Proof.
  destruct (embedTexts_maps (Some byLength) None byLength (replicate 40 (u16 "ab")))
    as (Hiff & _ & Hlen & _); [by right |].
  destruct (embedTexts_maps (Some byLength) None byLength (replicate 40 (u16 "ab") ++ [[]]))
    as (_ & Hrej & _); [by right |].
  exists (replicate 40 [inject_Z 2]).
  assert ((embedTexts (Some byLength) None (replicate 40 (u16 "ab"))).1
          = Done (replicate 40 [inject_Z 2])) as Hrun.
  { apply Hiff. apply Forall2_replicate. reflexivity. }
  split_and!; [exact Hrun | by rewrite length_replicate |].
  apply Hrej. apply Exists_app. right. by constructor.
Defined.

End EmbeddingsFacts.

Module IndexerFacts.
Import Js JsFacts Chunk ChunkSpec ChunkFacts ChunkShapeSpec ChunkShape.
Import Markdown MarkdownSpec MarkdownFacts JsNumber NumberFacts FaissStore StoreSpec StoreFacts.
Import Embeddings EmbeddingsFacts Vectorizer QueueSpec QueueFacts Indexer IndexerSpec.
Import FlatIndex StoreIOSpec.

(** *** Taking a batch *)

(** Along any history the queue is in descending order of priority. *)
Lemma history_sorted (es : list event) :
  StronglySorted descending (taskQueue (foldl apply_event newService es)).
Proof.
  induction es as [| e es IH] using rev_ind; [constructor |].
  rewrite foldl_snoc. set (s := foldl apply_event newService es) in *.
  destruct e as [task tick | | |]; simpl; [apply sort_descending | | done | done].
  unfold processTasks_take.
  destruct (isProcessing s || bool_decide (taskQueue s = []) || negb (storeReady s));
    [done |]. simpl.
  rewrite <- (take_drop 10 (taskQueue s)) in IH. by eapply StronglySorted_app_1_r.
Qed.

(** X12: After any history, [processTasks] takes nothing while a batch is in
    the works, the queue is empty or the store is missing; otherwise it
    takes the front of the queue, ten tasks or all there are, which are
    the most urgent ones: no task left behind has a higher priority than
    a task taken.  The service is then marked as processing, so that a
    call that comes in before the batch is done takes nothing. *)
Theorem processTasks_takes_most_urgent (es : list event) :
  let s := foldl apply_event newService es in
  let batch := (processTasks_take s).1 in
  let s' := (processTasks_take s).2 in
  (isProcessing s = true \/ taskQueue s = [] \/ storeReady s = false ->
   batch = [] /\ s' = s)
  /\ (isProcessing s = false -> taskQueue s <> [] -> storeReady s = true ->
      batch <> []
      /\ length batch = Nat.min 10 (length (taskQueue s))
      /\ taskQueue s = batch ++ taskQueue s'
      /\ (forall a b, a ∈ batch -> b ∈ taskQueue s' ->
            priority (request b) <= priority (request a))
      /\ isProcessing s' = true
      /\ processTasks_take s' = ([], s')
      /\ isProcessing (processTasks_done s') = false).
Proof.
  intros s batch s'. subst batch s'. pose proof (history_sorted es) as Hsorted.
  fold s in Hsorted. unfold processTasks_take. split.
  - intros [-> | [-> | ->]]; [done | | ].
    + by rewrite bool_decide_eq_true_2, orb_true_r by done.
    + by rewrite orb_true_r.
  - intros -> Hne ->. rewrite bool_decide_eq_false_2 by done.
    cbn [orb negb fst snd taskQueue isProcessing storeReady processTasks_done].
    split_and!; try done.
    + destruct (taskQueue s); [done | discriminate].
    + rewrite length_take. lia.
    + by rewrite take_drop.
    + intros a b Ha Hb. rewrite <- (take_drop 10 (taskQueue s)) in Hsorted.
      apply (StronglySorted_app_1_elem_of _ _ _ _ _ Hsorted Ha Hb).
Qed.

(** *** Processing a task *)

Lemma filter_all {A} (P : A -> Prop) `{!forall a, Decision (P a)} (l : list A) :
  Forall P l -> filter P l = l.
Proof.
  induction 1 as [| a l Ha Hl IH]; [done |].
  by rewrite filter_cons_True, IH.
Qed.

Lemma lookup_zip_fst {A B} (l : list A) (k : list B) (j : nat) (it : A * B) :
  zip l k !! j = Some it -> l !! j = Some it.1.
Proof.
  revert k j. induction l as [| a l IH]; intros [| b k] [| j]; simpl; try done.
  - by intros [= <-].
  - apply IH.
Qed.

Lemma lookup_zip_both {A B} (l : list A) (k : list B) (j : nat) (a : A) :
  length l = length k -> l !! j = Some a -> exists b, zip l k !! j = Some (a, b).
Proof.
  revert k j. induction l as [| x l IH]; intros [| b k] [| j]; simpl; try done.
  - intros _ [= <-]. by exists b.
  - intros [= Hlen]. by apply IH.
Qed.

(** The chunker a task goes to returns, and its chunks carry the source
    path and the session key of the task. *)
Lemma taskChunks_returns (config : Config) (envs : nat -> Env) (task : IndexTask) :
  0 < configStep config -> 0 <= configSize config ->
  exists chunks,
    (forall fuel, (length (content (request task)) <= fuel)%nat ->
       taskChunks config envs fuel task = Some chunks)
    /\ Forall (fun c => text c <> []
                 /\ sourcePath c = taskSourcePath (request task)
                 /\ sessionKey c = taskSessionKey (request task)) chunks.
Proof.
  intros Hstep Hsz. unfold taskChunks.
  assert (forall md,
            exists chunks,
              (forall fuel, (length (content (request task)) <= fuel)%nat ->
                 chunkText (envs 0%nat) (content (request task))
                   (taskOptions config task md) fuel = Some chunks)
              /\ Forall (fun c => text c <> []
                           /\ sourcePath c = taskSourcePath (request task)
                           /\ sessionKey c = taskSessionKey (request task)) chunks)
    as Hplain.
  { intros md.
    destruct (chunkText_returns (envs 0%nat) (content (request task))
                (taskOptions config task md) Hstep) as [chunks Hrun].
    exists chunks. split; [done |].
    pose proof (chunkText_run_shaped _ _ (taskOptions config task md) _ _ Hstep Hsz
                  (Hrun _ (le_n _))) as Hshape.
    eapply Forall_impl; [exact Hshape |].
    by intros c (Hne & _ & _ & _ & _ & _ & Hsrc & Hkey & _). }
  destruct (type (request task)); [apply Hplain | | apply Hplain].
  destruct (endsWith _ _); [| apply Hplain].
  destruct (chunkMarkdown_runs envs (content (request task))
              (taskOptions config task (taskMetadata (request task))) Hstep Hsz)
    as (chunks & Hrun & Hshape).
  exists chunks. split; [done |].
  eapply Forall_impl; [exact Hshape |].
  by intros c (sec & env & _ & Hne & _ & _ & _ & _ & _ & Hsrc & Hkey & _).
Qed.

Section ProcessFacts.
Context {I : Type} `{IndexFlatIP I}.
Variable config : Config.
Variable loadModel : option Pipeline.
Variable p : Pipeline.

Hypothesis step_positive : 0 < configStep config.
Hypothesis size_not_negative : 0 <= configSize config.
Hypothesis pipeline_dimension : forall t v, p t = Some v -> length v = DIMENSION.

Lemma processTask_run (envs : nat -> Env) (store : FaissVectorStore I) (i : I)
    (task : IndexTask) :
  index store = Some i ->
  exists chunks store',
    (forall fuel, (length (content (request task)) <= fuel)%nat ->
       taskChunks config envs fuel task = Some chunks
       /\ processTask config envs fuel loadModel (Some p) store task
          = Some (Some p, store'))
    /\ Forall (fun c => text c <> []
                 /\ sourcePath c = taskSourcePath (request task)
                 /\ sessionKey c = taskSessionKey (request task)) chunks
    /\ is_Some (index store')
    /\ match mapM p (text <$> chunks) with
       | None => store' = store
       | Some _ =>
           nextId store' = advance (nextId store) (length chunks)
           /\ (forall y, y ∉ idsFrom (nextId store) (length chunks) ->
                 documents store' !! y = documents store !! y)
           /\ (forall z, nextId store = Some (ofZ z) ->
                 - MAX_EXACT <= z <= MAX_EXACT ->
                 z + Z.of_nat (length chunks) <= MAX_EXACT + 1 ->
                 nextId store' = Some (ofZ (z + Z.of_nat (length chunks)))
                 /\ (forall (j : nat) c, chunks !! j = Some c ->
                       documents store' !! ofZ (z + Z.of_nat j) = Some c)
                 /\ (forall y, y ∉ ofZ <$> seqZ z (Z.of_nat (length chunks)) ->
                       documents store' !! y = documents store !! y))
       end.
Proof.
  intros Hi.
  destruct (taskChunks_returns config envs task step_positive size_not_negative)
    as (chunks & Hrun & Hshape).
  exists chunks. unfold processTask.
  destruct chunks as [| c cs].
  { exists store. split_and!; [| done | by rewrite Hi |].
    - intros fuel Hfuel. by rewrite (Hrun fuel Hfuel).
    - simpl. split_and!; [done | done |].
      intros z Hz _ _. split_and!; [| done | done].
      rewrite Hz. do 2 f_equal. lia. }
  set (chunks := c :: cs) in *.
  destruct (mapM p (text <$> chunks)) as [vs |] eqn:Emap.
  - pose proof (mapM_Some_1 _ _ _ Emap) as Hvs.
    pose proof (Forall2_length _ _ _ Hvs) as Hlen. rewrite length_fmap in Hlen.
    assert (Forall fits (zip chunks vs)) as Hfits.
    { apply Forall_forall. intros [c' v] Hin. unfold fits. simpl.
      apply list_elem_of_lookup_1 in Hin as [j Hj].
      pose proof (lookup_zip_fst _ _ _ _ Hj) as Hc. simpl in Hc.
      assert (vs !! j = Some v) as Hv.
      { revert Hj. clear. revert vs j. generalize chunks.
        induction chunks0 as [| a l IH]; intros [| b k] [| j]; simpl; try done.
        - by intros [= _ <-].
        - apply IH. }
      apply (pipeline_dimension (text c')).
      eapply (Forall2_lookup_lr _ _ _ j) in Hvs; [exact Hvs | | exact Hv].
      by rewrite list_lookup_fmap, Hc. }
    pose proof (addBatch_loop (zip chunks vs)
                  {| b_index := i; b_documents := documents store;
                     b_nextId := nextId store; b_ids := [] |}) as Hloop.
    pose proof (addBatch_loop_integers (zip chunks vs)
                  {| b_index := i; b_documents := documents store;
                     b_nextId := nextId store; b_ids := [] |}) as Hint.
    cbv zeta in Hloop, Hint.
    rewrite (filter_all _ _ Hfits) in Hloop, Hint.
    rewrite length_zip, <- Hlen, Nat.min_id in Hloop, Hint.
    cbn [b_index b_documents b_nextId b_ids] in Hloop, Hint.
    destruct Hloop as (_ & Hnext & _ & Hout & _).
    eexists. split_and!; [| done | | | |].
    + intros fuel Hfuel. rewrite (Hrun fuel Hfuel). split; [done |].
      subst chunks. cbv iota zeta.
      rewrite embedTexts_run, Emap. unfold addBatch. rewrite Hi. reflexivity.
    + by eexists.
    + exact Hnext.
    + exact Hout.
    + intros z Hz Hlow Hup.
      destruct (Hint z Hz Hlow Hup) as (_ & _ & Hnext' & _ & Hin' & Hout').
      split_and!; [done | | done].
      intros j c' Hj. destruct (lookup_zip_both chunks vs j c' Hlen Hj) as [v Hv].
      by apply (Hin' j _ Hv).
  - exists store. split_and!; [| done | by rewrite Hi | done].
    intros fuel Hfuel. rewrite (Hrun fuel Hfuel). split; [done |].
    subst chunks. cbv iota zeta. by rewrite embedTexts_run, Emap.
Qed.



End ProcessFacts.

(** X13: With a positive step, a store that has its index and a pipeline
    whose embeddings have the dimension of the index, [processTask]
    returns and does not throw.  It takes one id per chunk of the task
    from the counter and touches no document under another id; when the
    counter is an integer from [-2^53] on and the ids stay at or below
    [2^53], the chunks are in the store under the next ids, in the order
    of the chunks, and the counter has moved on by their number.  When
    the pipeline rejects one of the chunk texts the error is swallowed
    and nothing of the task is stored. *)
Theorem processTask_indexes {I} `{IndexFlatIP I} (config : Config) (envs : nat -> Env)
    (loadModel : option Pipeline) (p : Pipeline) (store : FaissVectorStore I) (i : I)
    (task : IndexTask) :
  0 < configStep config ->
  0 <= configSize config ->
  index store = Some i ->
  (forall t v, p t = Some v -> length v = DIMENSION) ->
  exists chunks store',
    (forall fuel, (length (content (request task)) <= fuel)%nat ->
       taskChunks config envs fuel task = Some chunks
       /\ processTask config envs fuel loadModel (Some p) store task
          = Some (Some p, store'))
    /\ Forall (fun c => text c <> []
                 /\ sourcePath c = taskSourcePath (request task)
                 /\ sessionKey c = taskSessionKey (request task)) chunks
    /\ match mapM p (text <$> chunks) with
       | None => store' = store
       | Some _ =>
           nextId store' = advance (nextId store) (length chunks)
           /\ (forall y, y ∉ idsFrom (nextId store) (length chunks) ->
                 documents store' !! y = documents store !! y)
           /\ (forall z, nextId store = Some (ofZ z) ->
                 - MAX_EXACT <= z <= MAX_EXACT ->
                 z + Z.of_nat (length chunks) <= MAX_EXACT + 1 ->
                 nextId store' = Some (ofZ (z + Z.of_nat (length chunks)))
                 /\ (forall (j : nat) c, chunks !! j = Some c ->
                       documents store' !! ofZ (z + Z.of_nat j) = Some c)
                 /\ (forall y, y ∉ ofZ <$> seqZ z (Z.of_nat (length chunks)) ->
                       documents store' !! y = documents store !! y))
       end.
Proof.
  intros Hstep Hsz Hi Hdim.
  destruct (processTask_run config loadModel p Hstep Hsz Hdim envs store i task Hi)
    as (chunks & store' & Hrun & Hshape & _ & Hstore).
  by exists chunks, store'.
Qed.

Lemma onAxis_dimension (t : jsstring) (v : vector) :
  onAxis t = Some v -> length v = DIMENSION.
Proof.
  unfold onAxis.
  pose proof (Nat.mod_upper_bound (length t) DIMENSION ltac:(done)) as Hm.
  revert Hm. generalize (length t mod DIMENSION)%nat. intros m Hm Hv.
  injection Hv as <-. unfold axis. rewrite !length_app, !length_replicate.
  cbn [length]. lia.
Qed.

Lemma processTask_indexes_witness :
  exists chunks store',
    taskChunks config0 (fun _ => env0) 40 task0 = Some chunks
    /\ processTask config0 (fun _ => env0) 40 None (Some onAxis) store1 task0
       = Some (Some onAxis, store')
    /\ nextId store' = Some (ofZ (Z.of_nat (length chunks)))
    /\ forall (j : nat) c, chunks !! j = Some c ->
         documents store' !! ofZ (Z.of_nat j) = Some c.
Proof.
  destruct (processTask_indexes config0 (fun _ => env0) None onAxis store1
              {| flat_d := DIMENSION; flat_xb := [] |} task0)
    as (chunks & store' & Hrun & _ & Hstore).
  - reflexivity.
  - vm_compute. discriminate.
  - reflexivity.
  - apply onAxis_dimension.
  - exists chunks, store'. destruct (Hrun 40%nat ltac:(vm_compute; lia)) as [Hchunks Hproc].
    assert (chunks = default [] (taskChunks config0 (fun _ => env0) 40 task0)) as Hc.
    { by rewrite Hchunks. }
    assert (Z.of_nat (length chunks) <= 5) as Hfew.
    { rewrite Hc. vm_compute. discriminate. }
    destruct (mapM onAxis (text <$> chunks)) eqn:E.
    2: { apply mapM_None_1, Exists_exists in E as (t & _ & Ht). discriminate Ht. }
    destruct Hstore as (_ & _ & Hint).
    destruct (Hint 0 eq_refl) as (Hnext & Hin & _).
    { vm_compute. split; discriminate. }
    { unfold MAX_EXACT. lia. }
    split; [exact Hchunks |]. split; [exact Hproc |]. split; [exact Hnext |].
    intros j c Hj. exact (Hin j c Hj).
Defined.

(** *** A round of the processing loop *)




End IndexerFacts.

(* ===================================================================== *)
(** ** Properties of escaping and of the hook's helpers *)
(* ===================================================================== *)

Module RagXmlFacts.
Import Js Chunk FaissStore RagHandler HandlerSpec HandlerFacts RagXml RagXmlSpec.

(** *** escapeXml *)

Lemma flat_map_flat_map {A B C} (f : A -> list B) (g : B -> list C) (l : list A) :
  flat_map g (flat_map f l) = flat_map (fun x => flat_map g (f x)) l.
Proof.
  induction l as [| a l IH]; [done |]. simpl. by rewrite flat_map_app, IH.
Qed.

Lemma escape_unit (c : N) : escapeXml [c] = entity c.
Proof.
  unfold escapeXml, replaceAll, entity. cbn [flat_map]. rewrite app_nil_r.
  destruct (N.eqb_spec c 38) as [-> | H38]; [reflexivity |].
  cbn [flat_map]. rewrite app_nil_r.
  destruct (N.eqb_spec c 60) as [-> | H60]; [reflexivity |].
  cbn [flat_map]. rewrite app_nil_r.
  destruct (N.eqb_spec c 62) as [-> | H62]; [reflexivity |].
  cbn [flat_map]. rewrite app_nil_r.
  destruct (N.eqb_spec c 34) as [-> | H34]; [reflexivity |].
  cbn [flat_map]. rewrite app_nil_r.
  destruct (N.eqb_spec c 39) as [-> | H39]; [reflexivity |].
  done.
Qed.

Lemma escape_app (s1 s2 : jsstring) : escapeXml (s1 ++ s2) = escapeXml s1 ++ escapeXml s2.
Proof. unfold escapeXml, replaceAll. by rewrite !flat_map_app. Qed.

Lemma escape_entities (s : jsstring) : escapeXml s = flat_map entity s.
Proof.
  induction s as [| c s IH]; [done |].
  change (c :: s) with ([c] ++ s). rewrite escape_app, escape_unit, IH. done.
Qed.

Ltac in_list := apply list_elem_of_In; simpl; tauto.

Ltac not_in_list :=
  let Hin := fresh "Hin" in
  intros Hin; apply list_elem_of_In in Hin; simpl in Hin;
  repeat (destruct Hin as [Hin | Hin]; [by subst |]); done.

Lemma entity_cases (c : N) :
  ((c ∈ [38; 60; 62; 34; 39]%N) /\ exists rest, entity c = 38%N :: rest)
  \/ ((c ∉ [38; 60; 62; 34; 39]%N) /\ entity c = [c]).
Proof.
  unfold entity.
  destruct (N.eqb_spec c 38) as [-> |]; [left; split; [in_list | by eexists] |].
  destruct (N.eqb_spec c 60) as [-> |]; [left; split; [in_list | by eexists] |].
  destruct (N.eqb_spec c 62) as [-> |]; [left; split; [in_list | by eexists] |].
  destruct (N.eqb_spec c 34) as [-> |]; [left; split; [in_list | by eexists] |].
  destruct (N.eqb_spec c 39) as [-> |]; [left; split; [in_list | by eexists] |].
  right. split; [not_in_list | done].
Qed.

Lemma entity_clean (c : N) : Forall (fun x => x ∉ [60; 62; 34; 39]%N) (entity c).
Proof.
  destruct (entity_cases c) as [[Hc _] | [Hc ->]].
  - apply list_elem_of_In in Hc. simpl in Hc.
    destruct Hc as [<- | [<- | [<- | [<- | [<- | []]]]]];
      vm_compute; repeat constructor; not_in_list.
  - constructor; [| constructor]. intros Hin. apply Hc.
    apply list_elem_of_In in Hin. apply list_elem_of_In. simpl in *. tauto.
Qed.

(** No entity is the start of what another one is followed by. *)
Lemma entity_prefix_free (c c' : N) (x y : jsstring) :
  entity c ++ x = entity c' ++ y -> c = c' /\ x = y.
Proof.
  destruct (entity_cases c) as [[Hc [r Hr]] | [Hc Hr]];
    destruct (entity_cases c') as [[Hc' [r' Hr']] | [Hc' Hr']].
  - apply list_elem_of_In in Hc, Hc'. simpl in Hc, Hc'.
    destruct Hc as [<- | [<- | [<- | [<- | [<- | []]]]]];
      destruct Hc' as [<- | [<- | [<- | [<- | [<- | []]]]]];
      vm_compute; intros Heq; by simplify_eq.
  - rewrite Hr, Hr'. intros [= <- _]. destruct Hc'. in_list.
  - rewrite Hr, Hr'. intros [= -> _]. destruct Hc. in_list.
  - rewrite Hr, Hr'. by intros [= -> ->].
Qed.

Lemma entity_nonempty (c : N) : entity c <> [].
Proof. destruct (entity_cases c) as [[_ [r ->]] | [_ ->]]; done. Qed.

Lemma flat_map_entity_inj (s : jsstring) :
  forall s', flat_map entity s = flat_map entity s' -> s = s'.
Proof.
  induction s as [| c s IH]; intros [| c' s']; simpl; [done | | |].
  - intros Heq. symmetry in Heq. apply app_eq_nil in Heq as [Heq _].
    by apply entity_nonempty in Heq.
  - intros Heq. apply app_eq_nil in Heq as [Heq _]. by apply entity_nonempty in Heq.
  - intros Heq. apply entity_prefix_free in Heq as [-> Heq]. f_equal. by apply IH.
Qed.

(** X15: [escapeXml] puts an entity in the place of each of the five special
    characters and leaves every other code unit alone; the ampersand of
    an entity it has just written is not escaped a second time.  The
    result holds no angle bracket and no quote, is never shorter than the
    text, and two different texts never escape to the same result. *)
Theorem escapeXml_entities (s : jsstring) :
  escapeXml s = flat_map entity s
  /\ Forall (fun x => x ∉ [60; 62; 34; 39]%N) (escapeXml s)
  /\ (length s <= length (escapeXml s))%nat
  /\ (forall s', escapeXml s = escapeXml s' -> s = s').
Proof.
  split_and!.
  - apply escape_entities.
  - rewrite escape_entities. induction s as [| c s IH]; [constructor |]. simpl.
    apply Forall_app. split; [apply entity_clean | done].
  - rewrite escape_entities. induction s as [| c s IH]; [done |]. simpl.
    rewrite length_app. pose proof (entity_nonempty c).
    destruct (entity c); [done |]. simpl. lia.
  - intros s'. rewrite !escape_entities. apply flat_map_entity_inj.
Qed.

(** *** Results with the same text *)

Lemma dedupe_spec (results : list SearchResult) :
  forall seen,
  dedupe seen results `sublist_of` results
  /\ Forall (fun r => textKey r ∉ seen) (dedupe seen results)
  /\ NoDup (textKey <$> dedupe seen results)
  /\ (forall k, filter (fun r => textKey r = k) (dedupe seen results)
                = if decide (k ∈ seen) then []
                  else take 1 (filter (fun r => textKey r = k) results)).
Proof.
  induction results as [| r rest IH]; intros seen.
  { simpl. split_and!; [done | constructor | constructor |].
    intros k. by destruct (decide (k ∈ seen)). }
  change (dedupe seen (r :: rest))
    with (if bool_decide (textKey r ∈ seen) then dedupe seen rest
          else r :: dedupe ({[textKey r]} ∪ seen) rest).
  case_bool_decide as Hseen.
  - destruct (IH seen) as (Hsub & Hfresh & Hnodup & Hclass).
    split_and!; [by apply sublist_cons | done | done |].
    intros k. rewrite Hclass. destruct (decide (k ∈ seen)) as [Hk |]; [done |].
    rewrite filter_cons_False; [done |]. by intros <-.
  - destruct (IH ({[textKey r]} ∪ seen)) as (Hsub & Hfresh & Hnodup & Hclass).
    split_and!.
    + by apply sublist_skip.
    + constructor; [done |]. eapply Forall_impl; [exact Hfresh |].
      intros r' Hr' Hin. apply Hr', elem_of_union. by right.
    + rewrite fmap_cons. apply NoDup_cons. split; [| done].
      intros Hin. apply list_elem_of_fmap_1 in Hin as (r' & Hkey & Hr').
      rewrite Forall_forall in Hfresh. apply (Hfresh r' Hr'), elem_of_union.
      left. by apply elem_of_singleton.
    + intros k. destruct (decide (textKey r = k)) as [<- | Hk].
      * rewrite !filter_cons_True by done. rewrite Hclass.
        rewrite decide_True by (apply elem_of_union; left; by apply elem_of_singleton).
        by rewrite decide_False.
      * rewrite !filter_cons_False by done. rewrite Hclass.
        destruct (decide (k ∈ seen)) as [Hin | Hout].
        -- by rewrite decide_True by (apply elem_of_union; by right).
        -- rewrite decide_False; [done |].
           intros [Hs%elem_of_singleton | Hs]%elem_of_union; [by subst | done].
Qed.

(** X16: Of the results that share a key, the trimmed text cut at 200 code
    units, [formatRagResultsXml] keeps the first and drops the others:
    what it keeps is a selection of the results in their order, no two
    with the same key, and for every key it is the first result with that
    key; so with results that come best first the best one of each text
    stays. *)
Theorem dedupe_keeps_first_of_each (results : list SearchResult) :
  dedupe ∅ results `sublist_of` results
  /\ NoDup (textKey <$> dedupe ∅ results)
  /\ (forall k, filter (fun r => textKey r = k) (dedupe ∅ results)
                = take 1 (filter (fun r => textKey r = k) results))
  /\ (length (dedupe ∅ results) <= length results)%nat
  /\ (results <> [] -> dedupe ∅ results <> []).
Proof.
  destruct (dedupe_spec results ∅) as (Hsub & _ & Hnodup & Hclass).
  split_and!; [done | done | | by apply sublist_length |].
  - intros k. rewrite Hclass. by rewrite decide_False by apply not_elem_of_empty.
  - destruct results as [| r rest]; [done |]. intros _.
    by destruct (dedupe_keeps_first r rest) as [rest' ->].
Qed.

(** *** The user's query *)

Lemma lastUserContent_answer (msg : Message) (rest : list Message) :
  lastUserContent (msg :: rest)
  = match answer msg with Some q => Some q | None => lastUserContent rest end.
Proof.
  cbn [lastUserContent]. unfold answer. case_bool_decide; [| done].
  by destruct (content msg) as [| [| c s] | [] json].
Qed.

Lemma lastUserContent_spec (l : list Message) (q : jsstring) :
  lastUserContent l = Some q <->
  exists skipped msg rest, l = skipped ++ msg :: rest /\ answer msg = Some q
                           /\ Forall (fun m => answer m = None) skipped.
Proof.
  induction l as [| m l IH].
  { split; [done |]. intros (skipped & msg & rest & Hl & _). by destruct skipped. }
  rewrite lastUserContent_answer. destruct (answer m) as [q' |] eqn:Em.
  - split.
    + intros [= ->]. by exists [], m, l.
    + intros ([| m' skipped] & msg & rest & Hl & Hq & Hskip).
      * injection Hl as -> ->. congruence.
      * injection Hl as -> ->. apply Forall_cons in Hskip as [Hm _]. congruence.
  - rewrite IH. split.
    + intros (skipped & msg & rest & -> & Hq & Hskip).
      exists (m :: skipped), msg, rest. split_and!; [done | done | by constructor].
    + intros ([| m' skipped] & msg & rest & Hl & Hq & Hskip).
      * injection Hl as -> ->. congruence.
      * injection Hl as -> ->. apply Forall_cons in Hskip as [_ Hskip].
        by exists skipped, msg, rest.
Qed.

(** X17: [extractUserQuery] answers with the content of the last message that
    has the role [user] and a truthy content: later messages of other
    roles, and later user messages whose content is missing, the empty
    string or another falsy value such as [null], [0] or [false], are
    passed over; a truthy content that is no string comes back as its
    JSON text.  Without such a message the answer is [null]. *)
Theorem extractUserQuery_last (event : HookEvent) (q : jsstring) :
  (extractUserQuery event = Some q <->
   exists ms before msg after,
     messages event = Some ms /\ ms = before ++ msg :: after
     /\ answer msg = Some q /\ Forall (fun m => answer m = None) after)
  /\ (forall msg, answer msg = Some q <->
         role msg = u16 "user"
         /\ (content msg = StringContent q /\ q <> []
             \/ content msg = OtherContent true q))
  /\ (extractUserQuery event = None <->
      forall ms, messages event = Some ms -> Forall (fun m => answer m = None) ms).
Proof.
  assert (forall msg, answer msg = Some q <->
            role msg = u16 "user"
            /\ (content msg = StringContent q /\ q <> []
                \/ content msg = OtherContent true q)) as Hanswer.
  { intros msg. unfold answer. case_bool_decide as Hrole.
    - destruct (content msg) as [| [| c s] | [] json].
      + split; [done | by intros [_ [[? _] | ?]]].
      + split; [done | by intros [_ [[[= <-] ?] | ?]]].
      + split; [intros [= <-]; split; [done | by left] |].
        by intros [_ [[[= <-] _] | ?]].
      + split; [intros [= <-]; split; [done | by right] |].
        by intros [_ [[? _] | [= <-]]].
      + split; [done | by intros [_ [[? _] | ?]]].
    - split; [done | by intros [? _]]. }
  split; [| split; [exact Hanswer |]].
  2: { unfold extractUserQuery. destruct (messages event) as [ms |].
       - split.
         + intros Hnone ms' [= <-]. apply Forall_forall. intros m Hm.
           destruct (answer m) as [q' |] eqn:Em; [| done].
           apply list_elem_of_In, in_rev, list_elem_of_In, list_elem_of_split in Hm
             as (l1 & l2 & Hsplit).
           assert (is_Some (lastUserContent (rev ms))) as [q'' Hq''].
           { rewrite Hsplit. clear Hsplit Hnone. induction l1 as [| a l1 IH]; cbn [app].
             - rewrite lastUserContent_answer, Em. by eexists.
             - rewrite lastUserContent_answer. destruct (answer a); [by eexists | done]. }
           congruence.
         + intros Hall. specialize (Hall ms eq_refl).
           apply List.Forall_rev in Hall.
           induction (rev ms) as [| a l IH]; [done |].
           apply Forall_cons in Hall as [Ha Hl].
           rewrite lastUserContent_answer, Ha. by apply IH.
       - by split. }
  unfold extractUserQuery. destruct (messages event) as [ms |]; [| split; [done |]].
  - rewrite lastUserContent_spec. split.
    + intros (skipped & msg & rest & Hrev & Hq & Hskip).
      exists ms, (rev rest), msg, (rev skipped). split_and!; [done | | done |].
      * apply (f_equal (@rev Message)) in Hrev.
        rewrite rev_involutive, rev_app_distr in Hrev. simpl in Hrev.
        by rewrite <- app_assoc in Hrev.
      * by apply List.Forall_rev.
    + intros (ms' & before & msg & after & [= <-] & -> & Hq & Hskip).
      exists (rev after), msg, (rev before). split_and!; [| done |].
      * rewrite rev_app_distr. simpl. by rewrite <- app_assoc.
      * by apply List.Forall_rev.
  - by intros (ms & before & msg & after & Hms & _).
Qed.

(** *** The source of a result *)

Lemma afterWorkspace_cons (c : N) (s : jsstring) :
  afterWorkspace (c :: s)
  = match (if isLineTerminator c then None else afterWorkspace s) with
    | Some r => Some r
    | None => if startsWith (c :: s) workspaceDir
              then Some (drop (length workspaceDir) (c :: s)) else None
    end.
Proof. done. Qed.

Lemma startsWith_split (s p : jsstring) :
  startsWith s p = true -> s = p ++ drop (length p) s.
Proof.
  revert s. induction p as [| a p IH]; intros [| b s]; simpl; try done.
  intros [->%N.eqb_eq Hp]%andb_true_iff. f_equal. by apply IH.
Qed.

Lemma afterWorkspace_skip (d r : jsstring) :
  Forall (fun c => isLineTerminator c = false) d ->
  afterWorkspace (d ++ r) = None -> afterWorkspace r = None.
Proof.
  induction 1 as [| c d Hc _ IH]; [done |]. rewrite <- app_comm_cons.
  rewrite afterWorkspace_cons, Hc. destruct (afterWorkspace (d ++ r)); [done |].
  intros _. by apply IH.
Qed.

Lemma afterWorkspace_suffix (s r : jsstring) :
  afterWorkspace s = Some r -> r `suffix_of` s /\ afterWorkspace r = None.
Proof.
  revert r. induction s as [| c s IH]; intros r; [done |].
  rewrite afterWorkspace_cons.
  destruct (if isLineTerminator c then None else afterWorkspace s) as [r' |] eqn:Einner.
  - intros [= <-]. destruct (isLineTerminator c); [done |].
    destruct (IH _ Einner) as [Hsuf Hnone]. split; [by apply suffix_cons_r | done].
  - destruct (startsWith (c :: s) workspaceDir) eqn:Estart; [| done].
    intros [= <-]. split.
    + exists (take (length workspaceDir) (c :: s)). symmetry.
      exact (take_drop (length workspaceDir) (c :: s)).
    + pose proof (startsWith_split _ _ Estart) as Hsplit.
      remember (drop (length workspaceDir) (c :: s)) as r eqn:Hr. clear Hr.
      change workspaceDir with (47%N :: tail workspaceDir) in Hsplit.
      injection Hsplit as -> ->.
      change (isLineTerminator 47) with false in Einner. cbv iota in Einner.
      apply (afterWorkspace_skip (tail workspaceDir) r); [| exact Einner].
      vm_compute. by repeat constructor.
Qed.

Lemma afterWorkspace_step (c : N) (s : jsstring) :
  afterWorkspace s = None -> startsWith (c :: s) workspaceDir = false ->
  afterWorkspace (c :: s) = None.
Proof.
  intros Hs Hc. rewrite afterWorkspace_cons, Hs, Hc. by destruct (isLineTerminator c).
Qed.

Lemma afterWorkspace_at (rest : jsstring) :
  afterWorkspace (47%N :: rest) = None ->
  afterWorkspace (workspaceDir ++ rest) = Some rest.
Proof.
  intros Hrest.
  change (workspaceDir ++ rest)
    with (47%N :: (u16 ".openclaw/workspace" ++ 47%N :: rest)).
  rewrite afterWorkspace_cons.
  assert (afterWorkspace (u16 ".openclaw/workspace" ++ 47%N :: rest) = None) as ->.
  { cbn [u16 app]. repeat (apply afterWorkspace_step; [| reflexivity]). exact Hrest. }
  clear Hrest. vm_compute. by destruct rest.
Qed.

(** X18: The source a result is listed with is what follows the last
    [/.openclaw/workspace/] of its path, the whole path when there is
    none: it is an end piece of the path, stripping it once more changes
    nothing, and a path without line terminator up to the directory, and
    with no further such directory behind it, comes back as what follows
    the directory. *)
Theorem stripWorkspace_spec (s : jsstring) :
  stripWorkspace s `suffix_of` s
  /\ stripWorkspace (stripWorkspace s) = stripWorkspace s
  /\ (forall pre rest,
        s = pre ++ workspaceDir ++ rest ->
        Forall (fun c => isLineTerminator c = false) pre ->
        afterWorkspace (47%N :: rest) = None ->
        stripWorkspace s = rest).
Proof.
  unfold stripWorkspace. split_and!.
  - destruct (afterWorkspace s) as [r |] eqn:E; [| done].
    by destruct (afterWorkspace_suffix _ _ E).
  - destruct (afterWorkspace s) as [r |] eqn:E; simpl.
    + destruct (afterWorkspace_suffix _ _ E) as [_ ->]. done.
    + by rewrite E.
  - intros pre rest -> Hpre Hrest.
    assert (afterWorkspace (pre ++ workspaceDir ++ rest) = Some rest) as ->; [| done].
    induction Hpre as [| c pre Hc _ IH]; [by apply afterWorkspace_at |].
    rewrite <- app_comm_cons, afterWorkspace_cons, Hc, IH. done.
Qed.

(** *** Keywords *)

Section KeywordFacts.
Variable lower_table : N -> list N.

(** Ideographs have no case. *)
Hypothesis ideographs_caseless : forall c, isIdeograph c = true -> lower_table c = [c].

Local Abbreviation lower := (RagInjector.toLowerCase lower_table).

Lemma keywordUnit_small (c : N) : keywordUnit c = true -> (c < 0xD800)%N.
Proof.
  unfold keywordUnit, isWordChar, isIdeograph. intros Hc.
  repeat match type of Hc with
         | (_ || _) = true => apply orb_true_iff in Hc as [Hc | Hc]
         | (_ && _) = true => apply andb_true_iff in Hc as [? Hc]
         end;
    repeat match goal with
           | H : (_ <=? _)%N = true |- _ => apply N.leb_le in H
           | H : (_ =? _)%N = true |- _ => apply N.eqb_eq in H
           end; lia.
Qed.

Lemma codePoints_units (w : jsstring) :
  Forall (fun c => keywordUnit c = true) w -> RagInjector.codePoints w = w.
Proof.
  induction 1 as [| c w Hc _ IH]; [done |].
  cbn [RagInjector.codePoints].
  assert (RagInjector.isHighSurrogate c = false) as Hhigh.
  { apply keywordUnit_small in Hc. unfold RagInjector.isHighSurrogate.
    apply andb_false_iff. left. apply N.leb_gt. lia. }
  rewrite Hhigh. simpl andb. cbv iota.
  destruct w as [| l w]; [done |]. by rewrite IH.
Qed.

Lemma lower_unit (c : N) :
  keywordUnit c = true ->
  exists c', flat_map RagInjector.encodeCodePoint (RagInjector.lowerCodePoint lower_table c)
             = [c'].
Proof.
  intros Hc. pose proof (keywordUnit_small c Hc) as Hsmall.
  unfold RagInjector.lowerCodePoint.
  assert (forall x, (x < 0x10000)%N -> flat_map RagInjector.encodeCodePoint [x] = [x])
    as Hencode.
  { intros x Hx. simpl. unfold RagInjector.encodeCodePoint.
    by rewrite (proj2 (N.ltb_lt _ _) Hx). }
  destruct ((0x41 <=? c) && (c <=? 0x5A))%N eqn:Eupper.
  { exists (c + 32)%N. apply Hencode. lia. }
  destruct (c <? 0x80)%N eqn:Eascii.
  { exists c. apply Hencode. lia. }
  exists c. apply N.ltb_ge in Eascii.
  assert (isIdeograph c = true) as Hideo.
  { unfold keywordUnit in Hc. apply orb_true_iff in Hc as [Hw | Hi]; [| done].
    exfalso. unfold isWordChar in Hw.
    repeat match type of Hw with
           | (_ || _) = true => apply orb_true_iff in Hw as [Hw | Hw]
           | (_ && _) = true => apply andb_true_iff in Hw as [? Hw]
           end;
      repeat match goal with
             | H : (_ <=? _)%N = true |- _ => apply N.leb_le in H
             | H : (_ =? _)%N = true |- _ => apply N.eqb_eq in H
             end; lia. }
  destruct (isWhiteSpace c); [apply Hencode; lia |].
  rewrite (ideographs_caseless c Hideo). apply Hencode. lia.
Qed.

(** Lower case keeps the length of a word of keyword units. *)
Lemma lower_length (w : jsstring) :
  Forall (fun c => keywordUnit c = true) w -> length (lower w) = length w.
Proof.
  intros Hw. unfold RagInjector.toLowerCase. rewrite codePoints_units by done.
  induction Hw as [| c w Hc _ IH]; [done |]. cbn [flat_map].
  destruct (lower_unit c Hc) as [c' ->]. simpl. by rewrite IH.
Qed.

Lemma splitSpaces_spec (s : jsstring) :
  exists w ws, splitSpaces s = w :: ws
    /\ (exists post, s = w ++ post)
    /\ Forall (fun x => exists pre post, s = pre ++ x ++ post) ws
    /\ Forall (Forall (fun c => isWhiteSpace c = false)) (w :: ws).
Proof.
  induction s as [| c s (w & ws & Hsplit & [post Hw] & Hws & Hclean)].
  { exists [], []. split_and!; [done | by exists [] | constructor | by repeat constructor]. }
  assert (Forall (fun x => exists pre post, c :: s = pre ++ x ++ post) (w :: ws)) as Hall.
  { constructor.
    - exists [c], post. simpl. by rewrite <- Hw.
    - eapply Forall_impl; [exact Hws |]. intros x (pre & post' & ->).
      by exists (c :: pre), post'. }
  cbn [splitSpaces]. destruct (isWhiteSpace c) eqn:Ec.
  - destruct s as [| c' s'].
    + exists [], [[]]. split_and!; [done | by exists [c] | | by repeat constructor].
      constructor; [| constructor]. by exists [c], [].
    + destruct (isWhiteSpace c') eqn:Ec'.
      * rewrite Hsplit. exists w, ws. split_and!; [done | | | done].
        -- cbn [splitSpaces] in Hsplit. rewrite Ec' in Hsplit.
           assert (w = []) as ->; [| by eexists].
           destruct s' as [| c'' s'']; [by injection Hsplit as <- |].
           destruct (isWhiteSpace c''); [| by injection Hsplit as <-].
           apply Forall_cons in Hclean as [Hclean _].
           destruct w as [| x w]; [done |]. injection Hw as <- _.
           apply Forall_cons in Hclean as [Hx _]. congruence.
        -- by apply Forall_cons in Hall as [_ Hall].
      * rewrite Hsplit. exists [], (w :: ws).
        split_and!; [done | by eexists | done | by constructor].
  - rewrite Hsplit. exists (c :: w), ws. split_and!; [done | | | ].
    + exists post. simpl. by rewrite <- Hw.
    + by apply Forall_cons in Hall as [_ Hall].
    + apply Forall_cons in Hclean as [Hw' Hws']. constructor; [by constructor | done].
Qed.

Lemma kept_units (q : jsstring) :
  Forall (fun c => isWhiteSpace c = false) (map cleanUnit q) ->
  map cleanUnit q = q /\ Forall (fun c => keywordUnit c = true) q.
Proof.
  induction q as [| c q IH]; [done |]. simpl. intros [Hc Hrest]%Forall_cons.
  destruct (IH Hrest) as [Heq Hunits].
  assert (cleanUnit c = c /\ keywordUnit c = true) as [Hfc Hk].
  { unfold keywordUnit, cleanUnit in *.
    destruct (isWordChar c); simpl in *; [done |].
    destruct (isWhiteSpace c) eqn:Es; simpl in *; [congruence |].
    by destruct (isIdeograph c). }
  split; [by rewrite Hfc, Heq | by constructor].
Qed.

(** The words the stop-word filter of [extractQueryKeywords] looks at. *)
Lemma words_spec (query w : jsstring) :
  w ∈ filter (fun w => (1 < length w)%nat) (splitSpaces (map cleanUnit query)) ->
  (2 <= length w)%nat
  /\ Forall (fun c => keywordUnit c = true) w
  /\ exists pre post, query = pre ++ w ++ post.
Proof.
  intros [Hlen Hin]%list_elem_of_filter. split; [lia |].
  destruct (splitSpaces_spec (map cleanUnit query))
    as (w0 & ws & Hsplit & [post0 Hw0] & Hws & Hclean).
  rewrite Hsplit in Hin.
  assert (Forall (fun c => isWhiteSpace c = false) w) as Hnows.
  { rewrite Forall_forall in Hclean. by apply Hclean. }
  assert (exists pre post, map cleanUnit query = pre ++ w ++ post) as (pre & post & Hmap).
  { apply elem_of_cons in Hin as [-> | Hin]; [by exists [], post0 |].
    rewrite Forall_forall in Hws. by apply Hws. }
  apply map_eq_app in Hmap as (q1 & q23 & -> & Hq1 & Hq23).
  apply map_eq_app in Hq23 as (q2 & q3 & -> & Hq2 & Hq3).
  subst w. destruct (kept_units q2 Hnows) as [-> Hunits].
  split; [done |]. by exists q1, q3.
Qed.

End KeywordFacts.

Lemma filter_agree {A} (P1 P2 : A -> Prop) `{!forall x, Decision (P1 x)}
    `{!forall x, Decision (P2 x)} (l : list A) :
  Forall (fun x => P1 x <-> P2 x) l -> filter P1 l = filter P2 l.
Proof.
  induction 1 as [| x l Hx _ IH]; [done |].
  destruct (decide (P1 x)) as [H1 | H1].
  - rewrite !filter_cons_True by tauto. by rewrite IH.
  - rewrite !filter_cons_False by tauto. done.
Qed.

(** X19: Every keyword [extractQueryKeywords] returns has two code units or
    more, is made of ASCII letters, digits, underscores and ideographs
    only, stands in the query as it is, and is no stop word in lower
    case.  The stop words of one code unit, which are all the Chinese
    ones and the article [a], never apply, since words that short are
    dropped before: without them the result is the same. *)
Theorem extractQueryKeywords_spec (lower_table : N -> list N) (query : jsstring) :
  (forall c, isIdeograph c = true -> lower_table c = [c]) ->
  Forall (fun w => (2 <= length w)%nat
            /\ Forall (fun c => keywordUnit c = true) w
            /\ (exists pre post, query = pre ++ w ++ post)
            /\ RagInjector.toLowerCase lower_table w ∉ stopWords)
    (extractQueryKeywords lower_table query)
  /\ extractQueryKeywords lower_table query = keywordsWithout lower_table longStopWords query.
Proof.
  intros Htable. unfold extractQueryKeywords, keywordsWithout. split.
  - apply Forall_forall. intros w [Hstop Hin]%list_elem_of_filter.
    destruct (words_spec query w Hin) as (Hlen & Hunits & Hinfix). done.
  - apply filter_agree. apply Forall_forall. intros w Hin.
    destruct (words_spec query w Hin) as (Hlen & Hunits & _).
    pose proof (lower_length lower_table Htable w Hunits) as Hlower.
    unfold longStopWords. split.
    + intros Hout Hlong. apply Hout. by apply list_elem_of_filter in Hlong as [_ ?].
    + intros Hout Hstop. apply Hout. apply list_elem_of_filter. split; [lia | done].
Qed.

Lemma extractQueryKeywords_spec_witness :
  extractQueryKeywords caseless (u16 "What is the FAISS index, a flat one?")
  = [u16 "What"; u16 "FAISS"; u16 "index"; u16 "flat"; u16 "one"]
  /\ Forall (fun w => (2 <= length w)%nat)
       (extractQueryKeywords caseless (u16 "What is the FAISS index, a flat one?")).
Proof.
  destruct (extractQueryKeywords_spec caseless (u16 "What is the FAISS index, a flat one?"))
    as [Hall _]; [done |].
  split; [by vm_compute |].
  eapply Forall_impl; [exact Hall |]. by intros w (Hlen & _).
Defined.

(** *** The cache *)

Section CacheWindow.
Variable toFixed2 : Q -> jsstring.

Local Abbreviation format := (formatRagResultsXml toFixed2).
Local Abbreviation run := (handler toFixed2).

(** What a run of the hook can do to the cache. *)
Lemma handler_outcomes (world : jsstring -> Retrieval) (now : Z) (cache : Cache)
    (event : HookEvent) (agentId : jsstring) :
  let out := run world now cache event agentId in
  (cacheAfter out = cache
   /\ (retrievals out = [] \/ prependContext out = None)
   /\ (forall txt, prependContext out = Some txt ->
         lastResult cache = Some txt /\ txt <> []
         /\ lastQuery cache = extractUserQuery event
         /\ now - lastTimestamp cache < CACHE_TTL))
  \/ (exists q r rest,
        retrievals out = [q] /\ extractUserQuery event = Some q
        /\ world q = Retrieved (r :: rest)
        /\ prependContext out = Some (format (r :: rest))
        /\ cacheAfter out = {| lastQuery := Some q;
                               lastResult := Some (format (r :: rest));
                               lastTimestamp := now |}).
Proof.
  unfold handler.
  destruct (negb (bool_decide (agentId ∈ ALLOWED_AGENTS))).
  { left. split_and!; [done | by left | done]. }
  destruct (extractUserQuery event) as [userQuery |].
  2: { left. split_and!; [done | by left | done]. }
  destruct (len userQuery <? MIN_QUERY_LENGTH).
  { left. split_and!; [done | by left | done]. }
  destruct (bool_decide (lastQuery cache = Some userQuery)) eqn:Eq; simpl.
  - apply bool_decide_eq_true_1 in Eq.
    destruct (lastResult cache) as [[| c s] |] eqn:Er; simpl.
    + destruct (world userQuery) as [| [| r rest] |] eqn:Ew.
      * left. split_and!; [done | by right | done].
      * left. split_and!; [done | by right | done].
      * right. by exists userQuery, r, rest.
      * left. split_and!; [done | by right | done].
    + destruct (now - lastTimestamp cache <? CACHE_TTL) eqn:Et.
      * apply Z.ltb_lt in Et. left. split_and!; [done | by left |].
        intros txt [= <-]. done.
      * destruct (world userQuery) as [| [| r rest] |] eqn:Ew.
        -- left. split_and!; [done | by right | done].
        -- left. split_and!; [done | by right | done].
        -- right. by exists userQuery, r, rest.
        -- left. split_and!; [done | by right | done].
    + destruct (world userQuery) as [| [| r rest] |] eqn:Ew.
      * left. split_and!; [done | by right | done].
      * left. split_and!; [done | by right | done].
      * right. by exists userQuery, r, rest.
      * left. split_and!; [done | by right | done].
  - destruct (world userQuery) as [| [| r rest] |] eqn:Ew.
    + left. split_and!; [done | by right | done].
    + left. split_and!; [done | by right | done].
    + right. by exists userQuery, r, rest.
    + left. split_and!; [done | by right | done].
Qed.

End CacheWindow.

(** X20: One run of the hook either leaves the cache as it is, or it made
    one retrieval for the user's query, got results, returns their
    formatted text and stores exactly this query, this text and the clock
    value of the run.  A run that leaves the cache returns a text only
    from the cache, for the same query and inside the time-to-live, and
    such a text is never empty; a failed or empty retrieval returns
    nothing and writes nothing; no run makes more than one retrieval. *)
Theorem handler_cache_protocol (toFixed2 : Q -> jsstring) (world : jsstring -> Retrieval)
    (now : Z) (cache : Cache) (event : HookEvent) (agentId : jsstring) :
  let out := handler toFixed2 world now cache event agentId in
  ((cacheAfter out = cache
    /\ (retrievals out = [] \/ prependContext out = None)
    /\ (forall txt, prependContext out = Some txt ->
          lastResult cache = Some txt /\ txt <> []
          /\ lastQuery cache = extractUserQuery event
          /\ now - lastTimestamp cache < CACHE_TTL))
   \/ (exists q r rest,
         retrievals out = [q] /\ extractUserQuery event = Some q
         /\ world q = Retrieved (r :: rest)
         /\ prependContext out = Some (formatRagResultsXml toFixed2 (r :: rest))
         /\ cacheAfter out = {| lastQuery := Some q;
                                lastResult := Some (formatRagResultsXml toFixed2 (r :: rest));
                                lastTimestamp := now |}))
  /\ (length (retrievals out) <= 1)%nat
  /\ (agentId ∉ ALLOWED_AGENTS -> out = skip cache).
Proof.
  intros out. split_and!.
  - apply handler_outcomes.
  - subst out. unfold handler.
    destruct (negb (bool_decide (agentId ∈ ALLOWED_AGENTS))); [simpl; lia |].
    destruct (extractUserQuery event) as [userQuery |]; [| simpl; lia].
    destruct (len userQuery <? MIN_QUERY_LENGTH); [simpl; lia |].
    destruct (_ && _ && _); [simpl; lia |].
    destruct (world userQuery) as [| [| r rest] |]; simpl; lia.
  - intros Hagent. subst out. unfold handler.
    by rewrite bool_decide_eq_false_2.
Qed.

(** X21: The time-to-live is exact: after a run that retrieved results for
    [q] and returned a text, a run for the same [q] from an agent the
    hook serves makes no retrieval if and only if less than 5000 ms have
    passed since the first run read the clock; from 5000 ms on it hands
    [q] to the retrieval again.  The test looks at the difference only,
    so a clock that was set back keeps the entry alive. *)
Theorem cache_window (toFixed2 : Q -> jsstring)
    (world1 world2 : jsstring -> Retrieval) (now1 now2 : Z) (cache : Cache)
    (event1 event2 : HookEvent) (agent1 agent2 q txt : jsstring) :
  let first := handler toFixed2 world1 now1 cache event1 agent1 in
  retrievals first = [q] ->
  prependContext first = Some txt ->
  agent2 ∈ ALLOWED_AGENTS ->
  extractUserQuery event2 = Some q ->
  let second := handler toFixed2 world2 now2 (cacheAfter first) event2 agent2 in
  (retrievals second = [] <-> now2 - now1 < CACHE_TTL)
  /\ (retrievals second = [q] <-> CACHE_TTL <= now2 - now1).
Proof.
  intros first Hcalls Htxt Hagent Hquery second. subst first second.
  destruct (retrieval_fills_cache _ _ _ _ _ _ _ _ Hcalls Htxt)
    as (-> & Hlen & (c & s & ->) & _).
  unfold handler. rewrite bool_decide_eq_true_2 by done. simpl negb. cbv iota.
  rewrite Hquery. rewrite (proj2 (Z.ltb_ge _ _) Hlen). simpl.
  rewrite bool_decide_eq_true_2 by done. simpl.
  destruct (Z.ltb_spec (now2 - now1) CACHE_TTL) as [Hin | Hout].
  - simpl. split; split; (done || (intros; lia)).
  - destruct (world2 q) as [| [| ? ?] |]; simpl;
      split; split; (done || (intros; lia)).
Qed.

Lemma cache_window_witness :
  let first := handler fixed2 found 1000 emptyCache ask (u16 "main") in
  retrievals (handler fixed2 down 5999 (cacheAfter first) ask (u16 "main")) = []
  /\ retrievals (handler fixed2 down 6000 (cacheAfter first) ask (u16 "main"))
     = [u16 "what did we decide about X?"].
Proof.
  intros first.
  assert (u16 "main" ∈ ALLOWED_AGENTS) as Hmain.
  { apply (bool_decide_unpack _). reflexivity. }
  destruct (cache_window fixed2 found down 1000 5999 emptyCache ask ask
              (u16 "main") (u16 "main") (u16 "what did we decide about X?")
              (formatRagResultsXml fixed2 [hit]))
    as [Hhit _]; [reflexivity | reflexivity | exact Hmain | reflexivity |].
  destruct (cache_window fixed2 found down 1000 6000 emptyCache ask ask
              (u16 "main") (u16 "main") (u16 "what did we decide about X?")
              (formatRagResultsXml fixed2 [hit]))
    as [_ Hmiss]; [reflexivity | reflexivity | exact Hmain | reflexivity |].
  split; [apply Hhit; reflexivity | apply Hmiss; vm_compute; discriminate].
Defined.

(** *** Which queries pass *)

Lemma greetings_long (t : jsstring) :
  5 <= len t -> (t ∈ RagInjector.greetings <-> t ∈ longGreetings).
Proof.
  intros Hlen. split; intros Hin; apply list_elem_of_In in Hin; apply list_elem_of_In.
  - simpl in Hin.
    repeat (destruct Hin as [<- | Hin];
            [first [by vm_compute in Hlen | simpl; tauto] |]).
    done.
  - simpl in *. tauto.
Qed.

(** X22: [shouldPerformRag] accepts a query exactly when its trimmed
    lower-case form does not start with a slash, has five code units or
    more, is none of [hello], [good morning], [good evening] and
    [good night], and holds a code point that is neither an emoji nor
    white space.  The ten shorter greetings of the list never decide
    anything: the length test turns them away first. *)
Theorem shouldPerformRag_decision (lower_table : N -> list N) (emoji_table : N -> bool)
    (query : jsstring) :
  let t := RagInjector.toLowerCase lower_table (trim query) in
  RagInjector.shouldPerformRag lower_table emoji_table query
  = negb (startsWith t (u16 "/")) && (5 <=? len t)
    && negb (bool_decide (t ∈ longGreetings))
    && negb (RagInjector.emojiOnly emoji_table t).
Proof.
  intros t. unfold RagInjector.shouldPerformRag. fold t.
  destruct (startsWith t (u16 "/")); [done |]. simpl.
  destruct (Z.ltb_spec (len t) 5) as [Hshort | Hlong].
  - by rewrite (proj2 (Z.leb_gt _ _) Hshort).
  - rewrite (proj2 (Z.leb_le _ _) Hlong). simpl.
    rewrite (bool_decide_ext _ _ (greetings_long t Hlong)).
    destruct (bool_decide (t ∈ longGreetings)); [done |]. simpl.
    by destruct (RagInjector.emojiOnly emoji_table t).
Qed.

End RagXmlFacts.

(* ===================================================================== *)
(** ** Properties of the bootstrap hook *)
(* ===================================================================== *)

Module BootstrapFacts.
Import Js FaissStore RagInjector RagXmlSpec AntiAmnesia Bootstrap BootstrapSpec.

Section HookFacts.
Variable lower_table : N -> list N.
Variable emoji_table : N -> bool.
Variable toISOString : Z -> option jsstring.
Variable getCriticalContextPath : jsstring -> jsstring.
Variable JSON_parse : jsstring -> option CriticalContext.
Variable unlinkSync : FileSystem -> jsstring -> option FileSystem.
Variable createRagBootstrapFile : jsstring -> option (option BootstrapFile).

Local Abbreviation load := (loadCriticalContext getCriticalContextPath JSON_parse).
Local Abbreviation inject :=
  (injectContext toISOString getCriticalContextPath JSON_parse unlinkSync).
Local Abbreviation query := (ragQuery getCriticalContextPath JSON_parse).
Local Abbreviation run :=
  (handler lower_table emoji_table toISOString getCriticalContextPath JSON_parse
     unlinkSync createRagBootstrapFile).

Lemma truthy_Some (s : option jsstring) (q : jsstring) :
  truthy s = Some q -> s = Some q /\ q <> [].
Proof. destruct s as [[| c t] |]; simpl; [done | | done]. by intros [= <-]. Qed.

(** A run for a bootstrap event with a workspace, in its two steps. *)
Lemma handler_steps (event : HookEvent) (fs : FileSystem) (workspaceDir : jsstring) :
  evType event = u16 "agent" -> evAction event = u16 "bootstrap" ->
  truthy (evWorkspaceDir event) = Some workspaceDir ->
  let step1 := inject (default [] (evBootstrapFiles event)) fs workspaceDir in
  fsAfter (run event fs) = step1.2
  /\ (exists more, filesAfter (run event fs) = Some (step1.1 ++ more))
  /\ (forall q, q ∈ ragQueries (run event fs) ->
        truthy (query step1.2 workspaceDir (evSessionKey event)) = Some q
        /\ shouldPerformRag lower_table emoji_table q = true)
  /\ (forall q, truthy (query step1.2 workspaceDir (evSessionKey event)) = Some q ->
        shouldPerformRag lower_table emoji_table q = true ->
        ragQueries (run event fs) = [q]).
Proof.
  intros Htype Haction Hdir step1. unfold handler.
  rewrite !bool_decide_eq_true_2 by done. cbn [negb orb]. rewrite Hdir.
  fold step1. destruct step1 as [files fs1]. cbn [fst snd].
  destruct (truthy (query fs1 workspaceDir (evSessionKey event))) as [q |].
  - destruct (shouldPerformRag lower_table emoji_table q) eqn:Egate.
    + destruct (createRagBootstrapFile q) as [[ragFile |] |]; cbn;
        (split_and!;
         [ done
         | first [by exists [ragFile] | by exists []; rewrite app_nil_r]
         | by intros q' ->%list_elem_of_singleton
         | by intros q' [= <-] _ ]).
    + cbn. split_and!; [done | by exists []; rewrite app_nil_r | |].
      * intros q' Hq'. by apply elem_of_nil in Hq'.
      * intros q' [= <-] Hgate. congruence.
  - cbn. split_and!; [done | by exists []; rewrite app_nil_r | | done].
    intros q' Hq'. by apply elem_of_nil in Hq'.
Qed.

Lemma query_without_context (fs : FileSystem) (workspaceDir : jsstring)
    (sessionKey : option jsstring) :
  load fs workspaceDir = None ->
  truthy (query fs workspaceDir sessionKey) = truthy sessionKey.
Proof.
  intros Hload. unfold ragQuery. rewrite Hload. cbn [truthy].
  destruct (truthy sessionKey) as [key |] eqn:Ekey; [| done].
  apply truthy_Some in Ekey as [_ Hne]. by destruct key.
Qed.

End HookFacts.

(** X23: The query of the bootstrap hook.  When the cached critical context,
    if there is one, can be formatted and its file can be removed, the
    hook injects it and removes the file before it looks for the user's
    last message in it: so the query it hands to the retrieval is never
    taken from the recent messages; it is the session key of the event,
    and without a session key there is no retrieval.  When formatting or
    removing throws, the file stays as it is, so that the next bootstrap
    finds the same context again, and the last user message of the
    context, if it has text and passes [shouldPerformRag], is the
    query. *)
Theorem bootstrap_query_source (lower_table : N -> list N) (emoji_table : N -> bool)
    (toISOString : Z -> option jsstring) (getCriticalContextPath : jsstring -> jsstring)
    (JSON_parse : jsstring -> option CriticalContext)
    (unlinkSync : FileSystem -> jsstring -> option FileSystem)
    (createRagBootstrapFile : jsstring -> option (option BootstrapFile))
    (event : HookEvent) (fs : FileSystem) (workspaceDir : jsstring) :
  evType event = u16 "agent" -> evAction event = u16 "bootstrap" ->
  truthy (evWorkspaceDir event) = Some workspaceDir ->
  let load := loadCriticalContext getCriticalContextPath JSON_parse in
  let cachePath := getCriticalContextPath workspaceDir in
  let out := handler lower_table emoji_table toISOString getCriticalContextPath
               JSON_parse unlinkSync createRagBootstrapFile event fs in
  ((forall context, load fs workspaceDir = Some context ->
      is_Some (toISOString (timestamp context))
      /\ unlinkSync fs cachePath = Some (delete cachePath fs)) ->
   load (fsAfter out) workspaceDir = None
   /\ (forall context, load fs workspaceDir = Some context ->
         exists xml more,
           formatCriticalContextXml toISOString context = Some xml
           /\ filesAfter out
              = Some (default [] (evBootstrapFiles event) ++ contextFile xml :: more))
   /\ (forall q, q ∈ ragQueries out ->
         truthy (evSessionKey event) = Some q
         /\ RagInjector.shouldPerformRag lower_table emoji_table q = true))
  /\ (forall context,
        load fs workspaceDir = Some context ->
        toISOString (timestamp context) = None \/ unlinkSync fs cachePath = None ->
        fsAfter out = fs
        /\ forall q,
             truthy (lastUserMessage (rev (recentMessages context))) = Some q ->
             RagInjector.shouldPerformRag lower_table emoji_table q = true ->
             ragQueries out = [q]).
Proof.
  intros Htype Haction Hdir load cachePath out.
  destruct (handler_steps lower_table emoji_table toISOString getCriticalContextPath
              JSON_parse unlinkSync createRagBootstrapFile event fs workspaceDir
              Htype Haction Hdir) as (Hfs & [more Hfiles] & Hqueries & Hquery).
  fold out in Hfs, Hfiles, Hqueries, Hquery.
  unfold injectContext, clearCriticalContext in Hfs, Hfiles, Hqueries, Hquery.
  fold load cachePath in Hfs, Hfiles, Hqueries, Hquery. split.
  - intros Hgood. destruct (load fs workspaceDir) as [context |] eqn:Eload.
    + destruct (Hgood context eq_refl) as [[iso Hiso] Hunlink]. clear Hgood.
      assert (is_Some (formatCriticalContextXml toISOString context)) as [xml Hxml].
      { unfold formatCriticalContextXml. rewrite Hiso. by eexists. }
      rewrite Hxml in Hfs, Hfiles, Hqueries, Hquery.
      assert (existsSync fs cachePath = true) as Hexists.
      { unfold load, loadCriticalContext in Eload. fold cachePath in Eload.
        unfold existsSync. destruct (fs !! cachePath); [by apply bool_decide_eq_true_2 |].
        done. }
      rewrite Hexists, Hunlink in Hfs, Hfiles, Hqueries, Hquery. cbn [fst snd] in *.
      assert (load (delete cachePath fs) workspaceDir = None) as Hgone.
      { unfold load, loadCriticalContext. fold cachePath. by rewrite lookup_delete_eq. }
      rewrite Hfs. split_and!; [done | |].
      * intros ctx [= <-]. exists xml, more. split; [done |].
        rewrite Hfiles. by rewrite <- app_assoc.
      * intros q Hq. destruct (Hqueries q Hq) as [Hsource Hgate]. split; [| done].
        by rewrite (query_without_context _ _ _ _ _ Hgone) in Hsource.
    + cbn [fst snd] in *. rewrite Hfs. split_and!; [done | done |].
      intros q Hq. destruct (Hqueries q Hq) as [Hsource Hgate]. split; [| done].
      by rewrite (query_without_context _ _ _ _ _ Eload) in Hsource.
  - intros context Eload Hbad. rewrite Eload in *.
    assert ((match formatCriticalContextXml toISOString context with
             | Some xml =>
                 match (if existsSync fs cachePath then unlinkSync fs cachePath
                        else Some fs) with
                 | Some fs0 => (default [] (evBootstrapFiles event) ++ [contextFile xml], fs0)
                 | None => (default [] (evBootstrapFiles event) ++ [contextFile xml], fs)
                 end
             | None => (default [] (evBootstrapFiles event), fs)
             end).2 = fs) as Hsame.
    { destruct (formatCriticalContextXml toISOString context) as [xml |] eqn:Eformat;
        [| done].
      destruct Hbad as [Hiso | Hunlink].
      { unfold formatCriticalContextXml in Eformat. by rewrite Hiso in Eformat. }
      assert (existsSync fs cachePath = true) as ->.
      { unfold load, loadCriticalContext in Eload. fold cachePath in Eload.
        unfold existsSync. destruct (fs !! cachePath); [by apply bool_decide_eq_true_2 |].
        done. }
      by rewrite Hunlink. }
    rewrite Hsame in Hfs, Hquery. split; [done |].
    intros q Hq Hgate. apply Hquery; [| done].
    unfold ragQuery. fold load. rewrite Eload.
    destruct (truthy (lastUserMessage (rev (recentMessages context)))) as [q' |] eqn:Eq;
      [| done].
    injection Hq as ->. apply truthy_Some in Eq as [Eq Hne]. rewrite Eq.
    destruct (truthy (evSessionKey event)); cbn; by destruct q.
Qed.

Lemma bootstrap_query_source_witness :
  let served := handler caseless (fun _ => false) iso0 cacheOf parse0 unlink0 noRag
                  event0 disk0 in
  let stuck := handler caseless (fun _ => false) iso0 cacheOf parse0 noRequire noRag
                 event0 disk0 in
  ragQueries served = [u16 "agent:main:1234"]
  /\ fsAfter served = ∅
  /\ ragQueries stuck = [u16 "what did we decide about the index?"]
  /\ fsAfter stuck = disk0.
Proof.
  intros served stuck.
  destruct (bootstrap_query_source caseless (fun _ => false) iso0 cacheOf parse0 unlink0
              noRag event0 disk0 (u16 "/home/u/ws") eq_refl eq_refl eq_refl)
    as [Hgood _].
  destruct (bootstrap_query_source caseless (fun _ => false) iso0 cacheOf parse0 noRequire
              noRag event0 disk0 (u16 "/home/u/ws") eq_refl eq_refl eq_refl)
    as [_ Hbad].
  destruct Hgood as (_ & _ & Hkey).
  { intros context _. split; [by eexists | done]. }
  destruct (Hbad context0 ltac:(by vm_compute) ltac:(by right)) as [Hfs Hquery].
  split_and!.
  - by vm_compute.
  - by vm_compute.
  - apply Hquery; by vm_compute.
  - exact Hfs.
Defined.

End BootstrapFacts.
